(** * vscode-livecodescript: outline scanner and checker-output pipeline

    A shallow embedding of [src/features/livecodebuilder/symbolProvider.ts]
    (the document symbol provider) and of the validation provider that the
    same file carries ([LineDecoder], [LivecodescriptValidationProvider]).

    JavaScript strings are sequences of UTF-16 code units, modelled as
    [list N]; numbers are doubles whose value is an integer, modelled as
    [Z], with the rounding of the language where the program computes a
    number from the digits of a text; a thrown exception (and hence a
    rejected promise, when thrown inside a promise executor) is the [Throw]
    case of [result]. *)

From Stdlib Require Import String Ascii NArith ZArith Bool Lia Sorted List.
Import ListNotations.

Local Open Scope list_scope.

(* ================================================================== *)
(** * JavaScript values used by the program *)

Module JS.

(** A string is its sequence of UTF-16 code units. *)
Definition char := N.
Definition jsstring := list char.

(** The literal ["..."] of the source, for texts whose characters are
    below U+0100. *)
Definition js (s : string) : jsstring :=
  map N_of_ascii (list_ascii_of_string s).

Definition streq (a b : jsstring) : bool :=
  if list_eq_dec N.eq_dec a b then true else false.

(** Truthiness of a string: only the empty string is falsy. *)
Definition truthy (s : jsstring) : bool :=
  match s with [] => false | _ :: _ => true end.

(** [s.substring(a, b)] for [a <= b]. *)
Definition substring (s : jsstring) (a b : nat) : jsstring :=
  firstn (b - a) (skipn a s).

(** [s.substr(a)]. *)
Definition substr (s : jsstring) (a : nat) : jsstring := skipn a s.

(** [s.charCodeAt(i)]; [None] stands for [NaN]. *)
Definition charCodeAt (s : jsstring) (i : nat) : option N := nth_error s i.

(** The line feed, as a text. *)
Definition LF : jsstring := [10%N].

(** Exceptions. *)
Inductive result (A : Type) : Type :=
| Ok (a : A)
| Throw (msg : string).
Arguments Ok {A} a.
Arguments Throw {A} msg.

Definition bind {A B} (x : result A) (f : A -> result B) : result B :=
  match x with
  | Ok a => f a
  | Throw e => Throw e
  end.

(** Numbers.  The numbers of the program are doubles whose value is an
    integer, or [+Infinity].  Such a double is modelled by the integer
    that it is, and [+Infinity] by [2 ^ 1024]: this is the value that
    the language definition adds above the largest double when it
    rounds, and it keeps the order of the numbers. *)
Definition Infinity : Z := (2 ^ 1024)%Z.

(** The double that is nearest to a positive integer; of two doubles
    that are equally near, the one with the even significand.  A double
    has a significand of 53 bits. *)
Definition round_pos (z : Z) : Z :=
  let e := Z.log2 z in
  if (e <? 53)%Z then z
  else
    let u := (2 ^ (e - 52))%Z in
    let q := (z / u)%Z in
    let r := (z mod u)%Z in
    let q' := if (2 * r <? u)%Z then q
              else if (u <? 2 * r)%Z then (q + 1)%Z
              else if Z.even q then q else (q + 1)%Z in
    Z.min (q' * u) Infinity.

(** The Number value for an integer. *)
Definition to_number (z : Z) : Z :=
  if (z <? 0)%Z then (- round_pos (- z))%Z
  else if (z =? 0)%Z then 0%Z
  else round_pos z.

(** [x - 1] for a number [x] that is an integer or [+Infinity]. *)
Definition minus_one (x : Z) : Z := to_number (x - 1).

End JS.
Import JS.

Notation "x <- e ;; k" := (JS.bind e (fun x => k))
  (at level 61, e at next level, right associativity).

(* ================================================================== *)
(** * Regular expressions

    The fragment of ECMAScript regular expressions that the program's
    literals use: characters, character classes, [^], concatenation,
    alternation, capture groups, and the greedy and lazy quantifiers
    [*], [+], [*?] applied to a one-character atom.  The matcher is the
    backtracking matcher of the language definition, written with
    continuations: alternatives are tried left to right, a greedy
    quantifier tries the longest repetition first and a lazy one the
    shortest. *)

Module Regex.

Inductive regex : Type :=
| Empty
| Char (c : char)
| Class (p : char -> bool)
| Bol                                   (* ^ *)
| Seq (r1 r2 : regex)
| Alt (r1 r2 : regex)
| Star (greedy : bool) (p : char -> bool)
| Group (n : nat) (r : regex).

Definition Plus (greedy : bool) (p : char -> bool) : regex :=
  Seq (Class p) (Star greedy p).

Fixpoint lit_chars (cs : jsstring) : regex :=
  match cs with
  | [] => Empty
  | [c] => Char c
  | c :: cs' => Seq (Char c) (lit_chars cs')
  end.

(** A run of literal characters. *)
Definition lit (s : string) : regex := lit_chars (js s).

(** [cat [r1; ...; rn]] is the pattern [r1...rn]. *)
Fixpoint cat (rs : list regex) : regex :=
  match rs with
  | [] => Empty
  | [r] => r
  | r :: rs' => Seq r (cat rs')
  end.

(** Character classes. *)
Definition between (lo hi c : N) : bool := (lo <=? c)%N && (c <=? hi)%N.

(** [\s]: white space and line terminators. *)
Definition cls_s (c : char) : bool :=
  between 9 13 c || (c =? 32)%N || (c =? 160)%N || (c =? 5760)%N
  || between 8192 8202 c || (c =? 8232)%N || (c =? 8233)%N
  || (c =? 8239)%N || (c =? 8287)%N || (c =? 12288)%N || (c =? 65279)%N.

(** [\d] *)
Definition cls_d (c : char) : bool := between 48 57 c.

(** [\w] *)
Definition cls_w (c : char) : bool :=
  between 97 122 c || between 65 90 c || cls_d c || (c =? 95)%N.

(** [.]: anything but a line terminator. *)
Definition cls_dot (c : char) : bool :=
  negb ((c =? 10)%N || (c =? 13)%N || (c =? 8232)%N || (c =? 8233)%N).

(** Captures: group number to the text it matched last. *)
Definition captures := list (nat * jsstring).

Definition set_group (n : nat) (v : jsstring) (c : captures) : captures :=
  (n, v) :: c.

Fixpoint group (n : nat) (c : captures) : option jsstring :=
  match c with
  | [] => None
  | (k, v) :: c' => if Nat.eqb k n then Some v else group n c'
  end.

(** A continuation receives the position reached, the input that is
    left, and the captures so far. *)
Definition cont := nat -> jsstring -> captures -> option (nat * captures).

Fixpoint star_greedy (p : char -> bool) (k : cont)
         (i : nat) (s : jsstring) (c : captures) : option (nat * captures) :=
  match s with
  | x :: s' =>
      if p x then
        match star_greedy p k (S i) s' c with
        | Some r => Some r
        | None => k i s c
        end
      else k i s c
  | [] => k i s c
  end.

Fixpoint star_lazy (p : char -> bool) (k : cont)
         (i : nat) (s : jsstring) (c : captures) : option (nat * captures) :=
  match k i s c with
  | Some r => Some r
  | None =>
      match s with
      | x :: s' => if p x then star_lazy p k (S i) s' c else None
      | [] => None
      end
  end.

(** [m r k i s c]: match [r] against a prefix of [s], which starts at
    position [i] of the input, then continue with [k]. *)
Fixpoint m (r : regex) (k : cont) (i : nat) (s : jsstring) (c : captures)
  : option (nat * captures) :=
  match r with
  | Empty => k i s c
  | Char a =>
      match s with
      | x :: s' => if (x =? a)%N then k (S i) s' c else None
      | [] => None
      end
  | Class p =>
      match s with
      | x :: s' => if p x then k (S i) s' c else None
      | [] => None
      end
  | Bol => if Nat.eqb i 0 then k i s c else None
  | Seq r1 r2 => m r1 (m r2 k) i s c
  | Alt r1 r2 =>
      match m r1 k i s c with
      | Some res => Some res
      | None => m r2 k i s c
      end
  | Star g p => if g then star_greedy p k i s c else star_lazy p k i s c
  | Group n r =>
      m r (fun i' s' c' => k i' s' (set_group n (firstn (i' - i) s) c')) i s c
  end.

Definition accept : cont := fun i _ c => Some (i, c).

(** The result of a successful match: where it starts, where it ends,
    and the groups. *)
Record match_result : Type := MatchResult {
  m_index : nat;
  m_end : nat;
  m_groups : captures
}.

(** A match that starts exactly at position [i], [s] being the input
    from [i] on. *)
Definition match_at (r : regex) (i : nat) (s : jsstring) : option match_result :=
  match m r accept i s [] with
  | Some (e, c) => Some (MatchResult i e (set_group 0 (firstn (e - i) s) c))
  | None => None
  end.

(** The leftmost match at or after position [i]. *)
Fixpoint search (r : regex) (i : nat) (s : jsstring) : option match_result :=
  match match_at r i s with
  | Some res => Some res
  | None =>
      match s with
      | _ :: s' => search r (S i) s'
      | [] => None
      end
  end.

(** [s.match(r)] for a pattern without the [g] flag. *)
Definition exec (r : regex) (s : jsstring) : option match_result := search r 0 s.

(** Truthiness of [s.match(r)]. *)
Definition test (r : regex) (s : jsstring) : bool :=
  match exec r s with Some _ => true | None => false end.

(** [s.replace(r, f)] for a pattern with the [g] flag; [f] builds the
    replacement from the groups.  [s] is the input from position [i] on. *)
Fixpoint replace_loop (fuel : nat) (r : regex) (f : captures -> jsstring)
         (i : nat) (s : jsstring) : jsstring :=
  match fuel with
  | O => s
  | S fuel' =>
      match search r i s with
      | None => s
      | Some res =>
          let pre := firstn (m_index res - i) s in
          let rest := skipn (m_end res - i) s in
          if Nat.eqb (m_end res) (m_index res) then
            match rest with
            | x :: rest' =>
                pre ++ f (m_groups res) ++ x :: replace_loop fuel' r f (S (m_end res)) rest'
            | [] => pre ++ f (m_groups res)
            end
          else pre ++ f (m_groups res) ++ replace_loop fuel' r f (m_end res) rest
      end
  end.

Definition replace_all (r : regex) (f : captures -> jsstring) (s : jsstring) : jsstring :=
  replace_loop (S (length s)) r f 0 s.

(** [s.split(r)] for a separator without capture groups: [p] is where
    the current piece starts and [q] where a separator is looked for. *)
Fixpoint split_loop (fuel : nat) (r : regex) (s : jsstring) (p q : nat)
  : list jsstring :=
  match fuel with
  | O => [substring s p (length s)]
  | S fuel' =>
      if length s <=? q then [substring s p (length s)]
      else
        match match_at r q (skipn q s) with
        | None => split_loop fuel' r s p (S q)
        | Some res =>
            if Nat.eqb (m_end res) p then split_loop fuel' r s p (S q)
            else substring s p q :: split_loop fuel' r s (m_end res) (m_end res)
        end
  end.

Definition split (r : regex) (s : jsstring) : list jsstring :=
  match s with
  | [] => match match_at r 0 [] with Some _ => [] | None => [[]] end
  | _ => split_loop (2 * length s + 2) r s 0 0
  end.

(** The meaning of a pattern, without the matcher: [matches r i s c c']
    says that [r] can match exactly the text [s] found at position [i]
    of the input, taking the captures from [c] to [c']. *)
Fixpoint matches (r : regex) (i : nat) (s : jsstring) (c c' : captures) : Prop :=
  match r with
  | Empty => s = [] /\ c' = c
  | Char a => s = [a] /\ c' = c
  | Class p => (exists x, s = [x] /\ p x = true) /\ c' = c
  | Bol => s = [] /\ i = 0 /\ c' = c
  | Seq r1 r2 =>
      exists s1 s2 c1,
        s = s1 ++ s2 /\ matches r1 i s1 c c1 /\ matches r2 (i + length s1) s2 c1 c'
  | Alt r1 r2 => matches r1 i s c c' \/ matches r2 i s c c'
  | Star _ p => forallb p s = true /\ c' = c
  | Group n r => exists c1, matches r i s c c1 /\ c' = set_group n s c1
  end.

(** [r] occurs in [s]: some part of [s] is matched by [r]. *)
Definition occurs (r : regex) (s : jsstring) : Prop :=
  exists pre mid post c,
    s = pre ++ mid ++ post /\ matches r (length pre) mid [] c.

End Regex.
Import Regex.

(* ================================================================== *)
(** * The part of the editor API that the program calls

    Positions, ranges, text documents and document symbols, with the
    argument checks their constructors perform: [TextDocument.lineAt]
    raises on a line number outside the document, [new Position] on a
    negative coordinate, [new DocumentSymbol] on a falsy name or on a
    selection range that is not inside the full range. *)

Module VSCode.

Record Position : Type := mkPosition { p_line : Z; p_character : Z }.

Definition new_Position (l c : Z) : result Position :=
  if (l <? 0)%Z then Throw "Illegal argument: line must be non-negative"
  else if (c <? 0)%Z then Throw "Illegal argument: character must be non-negative"
  else Ok (mkPosition l c).

Definition isBefore (a b : Position) : bool :=
  (p_line a <? p_line b)%Z
  || ((p_line a =? p_line b)%Z && (p_character a <? p_character b)%Z).

Record Range : Type := mkRange { r_start : Position; r_end : Position }.

(** [new Range(start, end)] orders its two positions. *)
Definition new_Range (a b : Position) : Range :=
  if isBefore a b then mkRange a b else mkRange b a.

(** The range of a line: from its first column to its length. *)
Definition line_range (l len : Z) : Range :=
  mkRange (mkPosition l 0) (mkPosition l len).

(** [new Range(startLine, startCharacter, endLine, endCharacter)]. *)
Definition new_Range4 (l1 c1 l2 c2 : Z) : result Range :=
  a <- new_Position l1 c1 ;;
  b <- new_Position l2 c2 ;;
  Ok (new_Range a b).

(** [range.contains(position)] and [range.contains(otherRange)] *)
Definition contains_position (r : Range) (p : Position) : bool :=
  negb (isBefore p (r_start r)) && negb (isBefore (r_end r) p).

Definition contains (r sel : Range) : bool :=
  contains_position r (r_start sel) && contains_position r (r_end sel).

Module SymbolKind.
Inductive t : Type := Field | Method | Function | Property | String | Variable_.
End SymbolKind.

#[warnings="-register-all"]
Inductive DocumentSymbol : Type := mkDocumentSymbol {
  name : jsstring;
  detail : option jsstring;          (* [None] is [undefined] *)
  kind : SymbolKind.t;
  range : Range;
  selectionRange : Range;
  children : list DocumentSymbol
}.

(** [new DocumentSymbol(name, detail, kind, range, selectionRange)];
    an argument read from beyond the end of an array is [undefined],
    here [None]. *)
Definition new_DocumentSymbol (nm dt : option jsstring) (k : SymbolKind.t)
           (r sel : Range) : result DocumentSymbol :=
  match nm with
  | Some n =>
      if truthy n then
        if contains r sel then Ok (mkDocumentSymbol n dt k r sel [])
        else Throw "selectionRange must be contained in fullRange"
      else Throw "name must not be falsy"
  | None => Throw "name must not be falsy"
  end.

Definition set_range (d : DocumentSymbol) (r : Range) : DocumentSymbol :=
  mkDocumentSymbol (name d) (detail d) (kind d) r (selectionRange d) (children d).

Definition set_selectionRange (d : DocumentSymbol) (r : Range) : DocumentSymbol :=
  mkDocumentSymbol (name d) (detail d) (kind d) (range d) r (children d).

Definition set_kind (d : DocumentSymbol) (k : SymbolKind.t) : DocumentSymbol :=
  mkDocumentSymbol (name d) (detail d) k (range d) (selectionRange d) (children d).

Definition set_name (d : DocumentSymbol) (n : jsstring) : DocumentSymbol :=
  mkDocumentSymbol n (detail d) (kind d) (range d) (selectionRange d) (children d).

(** [d.children.push(x)] *)
Definition push_child (d : DocumentSymbol) (x : DocumentSymbol) : DocumentSymbol :=
  mkDocumentSymbol (name d) (detail d) (kind d) (range d) (selectionRange d)
                   (children d ++ [x]).

Record TextLine : Type := mkTextLine { text : jsstring; tl_range : Range }.

(** A text document is the list of its lines, without their
    terminators; it always has at least one line. *)
Definition TextDocument := list jsstring.

Definition lineCount (d : TextDocument) : nat := length d.

Definition lineAt (d : TextDocument) (i : nat) : result TextLine :=
  match nth_error d i with
  | Some t =>
      Ok (mkTextLine t (mkRange (mkPosition (Z.of_nat i) 0)
                                (mkPosition (Z.of_nat i) (Z.of_nat (length t)))))
  | None => Throw "Illegal value for `line`"
  end.

(** The lines of a text: CR LF, CR and LF each end a line. *)
Fixpoint lines_from (cur : jsstring) (s : jsstring) : list jsstring :=
  match s with
  | [] => [rev cur]
  | c :: s' =>
      if (c =? 10)%N then rev cur :: lines_from [] s'
      else if (c =? 13)%N then
        match s' with
        | c' :: s'' =>
            if (c' =? 10)%N then rev cur :: lines_from [] s''
            else rev cur :: lines_from [] s'
        | [] => rev cur :: lines_from [] s'
        end
      else lines_from (c :: cur) s'
  end.

Definition document_of (txt : jsstring) : TextDocument := lines_from [] txt.

End VSCode.
Import VSCode.

(* ================================================================== *)
(** * The document symbol provider
    ([livecodebuilderConfigDocumentSymbolProvider.provideDocumentSymbols]) *)

Module SymbolProvider.

Definition symbolkind_marker := SymbolKind.Field.
Definition symbolkind_private_handler := SymbolKind.Method.
Definition symbolkind_ftn := SymbolKind.Function.
Definition symbolkind_public_handler := SymbolKind.Method.
Definition symbolkind_getprop := SymbolKind.Property.
Definition symbolkind_setprop := SymbolKind.Property.
Definition symbolkind_blockcomment := SymbolKind.String.
Definition symbolkind_comment := SymbolKind.String.
Definition symbolkind_variable := SymbolKind.Variable_.

Definition c_eq : char := 61%N.      (* = *)
Definition c_quote : char := 34%N.   (* the double quote *)
Definition c_space : char := 32%N.

(** The pattern [re]: one group holding the class of [=] and the
    double quote, with the flags [gi]. *)
Definition re : regex :=
  Group 1 (Class (fun c => (c =? c_eq)%N || (c =? c_quote)%N)).

(** The replacement [" $1 "]. *)
Definition spaced (c : captures) : jsstring :=
  match group 1 c with
  | Some g => [c_space] ++ g ++ [c_space]
  | None => [c_space; c_space]
  end.

(** [/[\s]+/] *)
Definition re_split : regex := Plus true cls_s.

(** [/^\s*(handler)\s+/] *)
Definition re_handler : regex :=
  cat [Bol; Star true cls_s; Group 1 (lit "handler"); Plus true cls_s].

(** [/^\s*end\s+handler\s*/] *)
Definition re_end_handler : regex :=
  cat [Bol; Star true cls_s; lit "end"; Plus true cls_s; lit "handler";
       Star true cls_s].

(** [/^\s*(private)\s+handler\s+[\w]+/] *)
Definition re_private_handler : regex :=
  cat [Bol; Star true cls_s; Group 1 (lit "private"); Plus true cls_s;
       lit "handler"; Plus true cls_s; Plus true cls_w].

(** [/^end\s+handler\s*/] *)
Definition re_end_handler_0 : regex :=
  cat [Bol; lit "end"; Plus true cls_s; lit "handler"; Star true cls_s].

(** [/(^\s*private\s*variable|^\s*variable)\s+[\w]+/] *)
Definition re_variable : regex :=
  cat [Group 1 (Alt (cat [Bol; Star true cls_s; lit "private";
                          Star true cls_s; lit "variable"])
                    (cat [Bol; Star true cls_s; lit "variable"]));
       Plus true cls_s; Plus true cls_w].

(** The text of a line with [=] and the double quote set off by
    spaces, and its tokens. *)
Definition lineText_of (t : jsstring) : jsstring := replace_all re spaced t.

Definition tokens_of (lineText : jsstring) : list jsstring :=
  let tokensDirty := split re_split lineText in
  filter truthy tokensDirty.

(** [tokens[i]] for a number [i]: [undefined] outside the array. *)
Definition token_at (tokens : list jsstring) (i : Z) : option jsstring :=
  if (i <? 0)%Z then None else nth_error tokens (Z.to_nat i).

(** [x == "..."] for [x] a string or [undefined]. *)
Definition is_str (x : option jsstring) (s : jsstring) : bool :=
  match x with
  | Some t => streq t s
  | None => false
  end.

(** The variables of the scan that the loop body changes.  [nodes] is
    the one-element array [[symbols]] throughout, so
    [nodes[nodes.length - 1]] is [symbols]; [inside_blockcomment] and
    [blockcomment_Symbol] are never assigned after their
    initialisation.

    The handler symbol is one object, which [handler_Symbol] and, once
    it is pushed, the top-level array refer to.  Every write to it is
    under [inside_handler], which the push clears, and a line that opens
    a handler makes a new object: the object is not written to after the
    push, and the array can hold its value. *)
Record ScanState : Type := mkScanState {
  symbols : list DocumentSymbol;
  handler_Symbol : DocumentSymbol;
  inside_handler : bool
}.

Definition inside_blockcomment : bool := false.

(** The body shared by the two [end handler] branches. *)
Definition close_handler (st : ScanState) (line : TextLine) : ScanState :=
  if inside_handler st then
    let h := handler_Symbol st in
    let h := set_range h (new_Range (r_start (range h)) (r_end (tl_range line))) in
    let h := set_selectionRange h (range h) in
    mkScanState (symbols st ++ [h]) h false
  else st.

(** The [////Handler] statement. *)
Definition handler_branch (lineText : jsstring) (tokens : list jsstring)
           (line : TextLine) (st : ScanState) : result ScanState :=
  if test re_handler lineText then
    h <- new_DocumentSymbol (token_at tokens 1) (token_at tokens 2)
           symbolkind_public_handler (tl_range line) (tl_range line) ;;
    let h := set_kind h symbolkind_public_handler in
    let h := match token_at tokens 1 with Some n => set_name h n | None => h end in
    let h := set_range h (tl_range line) in
    let h := set_selectionRange h (tl_range line) in
    let h := set_range h (tl_range line) in
    Ok (mkScanState (symbols st) h true)
  else if test re_end_handler lineText then Ok (close_handler st line)
  else Ok st.

(** The [//////Private Command] statement. *)
Definition private_branch (lineText : jsstring) (tokens : list jsstring)
           (line : TextLine) (st : ScanState) : result ScanState :=
  if test re_private_handler lineText then
    h <- new_DocumentSymbol (token_at tokens 2) (token_at tokens 3)
           symbolkind_private_handler (tl_range line) (tl_range line) ;;
    Ok (mkScanState (symbols st) h true)
  else if test re_end_handler_0 lineText then Ok (close_handler st line)
  else Ok st.

(** The [for (var index1 in tokens)] loop of the [////variables]
    statement; [indices] are the indices still to visit. *)
Fixpoint variables_loop (tokens : list jsstring) (line : TextLine)
         (indices : list nat) (tInQuotes : bool) (st : ScanState)
  : result ScanState :=
  match indices with
  | [] => Ok st
  | index1 :: rest =>
      let tok := nth_error tokens index1 in
      let tInQuotes := if is_str tok [c_quote] then negb tInQuotes else tInQuotes in
      if tInQuotes || Nat.eqb index1 0 || is_str tok [c_eq] || is_str tok [c_quote]
         || is_str (token_at tokens (Z.of_nat index1 - 1)) [c_eq]
         || is_str tok (js ",")
      then variables_loop tokens line rest tInQuotes st
      else if is_str tok (js "variable") then
        variables_loop tokens line rest tInQuotes st
      else if is_str tok (js "as") then Ok st
      else
        localvar_Symbol <- new_DocumentSymbol tok (token_at tokens 0)
                             symbolkind_variable (tl_range line) (tl_range line) ;;
        if inside_blockcomment then
          variables_loop tokens line rest tInQuotes st
        else
          let v := set_range localvar_Symbol
                     (new_Range (r_start (range localvar_Symbol))
                                (r_end (tl_range line))) in
          let v := set_selectionRange v (range v) in
          if inside_handler st then
            variables_loop tokens line rest tInQuotes
              (mkScanState (symbols st) (push_child (handler_Symbol st) v)
                           (inside_handler st))
          else
            variables_loop tokens line rest tInQuotes
              (mkScanState (symbols st ++ [v]) (handler_Symbol st)
                           (inside_handler st))
  end.

(** The [////variables] statement. *)
Definition variables_branch (lineText : jsstring) (tokens : list jsstring)
           (line : TextLine) (st : ScanState) : result ScanState :=
  if test re_variable lineText then
    variables_loop tokens line (seq 0 (length tokens)) false st
  else Ok st.

(** One iteration of the loop over the lines. *)
Definition scan_line (line : TextLine) (st : ScanState) : result ScanState :=
  let lineText := lineText_of (text line) in
  let tokens := tokens_of lineText in
  st <- handler_branch lineText tokens line st ;;
  st <- private_branch lineText tokens line st ;;
  variables_branch lineText tokens line st.

(** [for (var i = 0; i < document.lineCount; i++)], [n] iterations
    being left. *)
Fixpoint scan_from (document : TextDocument) (i n : nat) (st : ScanState)
  : result ScanState :=
  match n with
  | O => Ok st
  | S n' =>
      line <- lineAt document i ;;
      st <- scan_line line st ;;
      scan_from document (S i) n' st
  end.

(** The promise's outcome: [Ok symbols] when it is resolved with
    [symbols], [Throw] when the executor raises and it is rejected. *)
Definition provideDocumentSymbols (document : TextDocument)
  : result (list DocumentSymbol) :=
  line <- lineAt document 1 ;;
  handler_Symbol <- new_DocumentSymbol (Some (js "start")) (Some (js "start"))
                      SymbolKind.Method (tl_range line) (tl_range line) ;;
  blockcomment_Symbol <- new_DocumentSymbol (Some (js "start")) (Some (js "start"))
                           SymbolKind.Method (tl_range line) (tl_range line) ;;
  st <- scan_from document 0 (lineCount document)
          (mkScanState [] handler_Symbol false) ;;
  Ok (symbols st).

(** The state when [n] lines have been scanned. *)
Definition scan_prefix (document : TextDocument) (n : nat) : result ScanState :=
  line <- lineAt document 1 ;;
  handler_Symbol <- new_DocumentSymbol (Some (js "start")) (Some (js "start"))
                      SymbolKind.Method (tl_range line) (tl_range line) ;;
  scan_from document 0 n (mkScanState [] handler_Symbol false).

(** A line that opens a handler: one of the two opening patterns
    matches it. *)
Definition opens_handler (t : jsstring) : bool :=
  test re_handler (lineText_of t) || test re_private_handler (lineText_of t).

(** An [end handler] line: one of the two closing patterns matches it. *)
Definition ends_handler (t : jsstring) : bool :=
  test re_end_handler (lineText_of t) || test re_end_handler_0 (lineText_of t).

(** A symbol that spans a closed handler of the document: its range goes
    from the start of a line [i] that opens a handler to the end of an
    [end handler] line [j] after it, and no line between the two opens
    or ends a handler. *)
Definition handler_span (document : TextDocument) (s : DocumentSymbol) : Prop :=
  exists i j ti tj,
    i < j
    /\ nth_error document i = Some ti /\ opens_handler ti = true
    /\ nth_error document j = Some tj /\ ends_handler tj = true
    /\ range s = mkRange (mkPosition (Z.of_nat i) 0)
                         (mkPosition (Z.of_nat j) (Z.of_nat (length tj)))
    /\ forall k u, i < k < j -> nth_error document k = Some u ->
                   opens_handler u = false /\ ends_handler u = false.

(** What holds of the state when [n] lines have been scanned: every
    symbol of kind [Method] in the top-level list spans a closed handler,
    and when the scope is open the handler symbol is that of the last
    line that opened a handler, no [end handler] line having been read
    since. *)
Definition scan_inv (document : TextDocument) (n : nat) (st : ScanState) : Prop :=
  (forall s, In s (symbols st) -> kind s = SymbolKind.Method ->
             handler_span document s)
  /\ (inside_handler st = true ->
      exists i ti,
        i < n /\ nth_error document i = Some ti /\ opens_handler ti = true
        /\ range (handler_Symbol st) = line_range (Z.of_nat i) (Z.of_nat (length ti))
        /\ forall k u, i < k < n -> nth_error document k = Some u ->
                       opens_handler u = false /\ ends_handler u = false).

End SymbolProvider.
Import SymbolProvider.

(* ================================================================== *)
(** * The line decoder ([LineDecoder])

    [StringDecoder] belongs to the runtime: it is a parameter here, a
    state with a [write] that turns the bytes of a buffer into text. *)

Definition Buffer := list N.

Module LineDecoder.
Section WithStringDecoder.

Variable StringDecoder : Type.
Variable sd_write : StringDecoder -> Buffer -> StringDecoder * jsstring.

Record t : Type := mk {
  stringDecoder : StringDecoder;
  remaining : option jsstring          (* [None] is [null] *)
}.

(** [new LineDecoder(encoding)], given the decoder the constructor makes. *)
Definition new (sd : StringDecoder) : t := mk sd None.

Definition is_eol (ch : N) : bool := (ch =? 13)%N || (ch =? 10)%N.

(** [while (start < value.length && (value.charCodeAt(start) is 13 or 10)) start++] *)
Fixpoint skip_eol (fuel : nat) (value : jsstring) (start : nat) : nat :=
  match fuel with
  | O => start
  | S fuel' =>
      if start <? length value then
        match charCodeAt value start with
        | Some ch => if is_eol ch then skip_eol fuel' value (S start) else start
        | None => start
        end
      else start
  end.

(** [while (idx < value.length) { ... }]; the result is the array of
    lines and the final [start]. *)
Fixpoint scan (fuel : nat) (value : jsstring) (start idx : nat)
         (result : list jsstring) : list jsstring * nat :=
  match fuel with
  | O => (result, start)
  | S fuel' =>
      if idx <? length value then
        match charCodeAt value idx with
        | Some ch =>
            if is_eol ch then
              let result := result ++ [substring value start idx] in
              let idx := skip_eol (length value) value (S idx) in
              scan fuel' value idx idx result
            else scan fuel' value start (S idx) result
        | None => (result, start)
        end
      else (result, start)
  end.

Definition write (d : t) (buffer : Buffer) : t * list jsstring :=
  let (sd, decoded) := sd_write (stringDecoder d) buffer in
  let value :=
    match remaining d with
    | Some r => if truthy r then r ++ decoded else decoded
    | None => decoded
    end in
  if length value <? 1 then (mk sd (remaining d), [])
  else
    let start := skip_eol (length value) value 0 in
    let (result, start) := scan (length value) value start start [] in
    (mk sd (if start <? length value then Some (substr value start) else None),
     result).

Definition end_ (d : t) : option jsstring := remaining d.

(** The chunks written in order, the lines of all the writes collected. *)
Fixpoint write_all (d : t) (chunks : list Buffer) : t * list jsstring :=
  match chunks with
  | [] => (d, [])
  | b :: chunks' =>
      let (d1, ls) := write d b in
      let (d2, ls') := write_all d1 chunks' in
      (d2, ls ++ ls')
  end.

(** The text that the string decoder hands out over the writes. *)
Fixpoint decode_chunks (sd : StringDecoder) (chunks : list Buffer)
  : StringDecoder * jsstring :=
  match chunks with
  | [] => (sd, [])
  | b :: chunks' =>
      let (sd1, s1) := sd_write sd b in
      let (sd2, s2) := decode_chunks sd1 chunks' in
      (sd2, s1 ++ s2)
  end.

(** What a consumer sees of a stream: the lines of the writes, then the
    line that [end] returns, if any. *)
Definition lines_of_stream (sd : StringDecoder) (chunks : list Buffer) : list jsstring :=
  let (d, ls) := write_all (new sd) chunks in
  ls ++ match end_ d with
        | Some l => [l]
        | None => []
        end.

End WithStringDecoder.

Arguments mk {StringDecoder} _ _.
Arguments stringDecoder {StringDecoder} _.
Arguments remaining {StringDecoder} _.
Arguments new {StringDecoder} _.
Arguments write {StringDecoder} _ _ _.
Arguments end_ {StringDecoder} _.
Arguments write_all {StringDecoder} _ _ _.
Arguments decode_chunks {StringDecoder} _ _ _.
Arguments lines_of_stream {StringDecoder} _ _ _.

(** The text cut at every run of CR and LF: the lines that are complete
    and what follows the last terminator.  [cur] is the current line so
    far, in reverse. *)
Fixpoint cut (cur : jsstring) (s : jsstring) : list jsstring * jsstring :=
  match s with
  | [] => ([], rev cur)
  | c :: s' =>
      if is_eol c then
        match cur with
        | [] => cut [] s'
        | _ :: _ => let (ls, r) := cut [] s' in (rev cur :: ls, r)
        end
      else cut (c :: cur) s'
  end.

(** The lines of a text: the complete ones, then the last one if the
    text does not end with a terminator. *)
Definition lines_of_text (txt : jsstring) : list jsstring :=
  let (ls, r) := cut [] txt in
  ls ++ (if truthy r then [r] else []).

(** The number of terminators that a text starts with. *)
Fixpoint eol_run (s : jsstring) : nat :=
  match s with
  | c :: s' => if is_eol c then S (eol_run s') else 0
  | [] => 0
  end.

Definition no_eol (s : jsstring) : bool := forallb (fun c => negb (is_eol c)) s.

(** What [remaining] can hold between two calls: [null], or a text
    that is not empty and has no terminator. *)
Definition wf_remaining (r : option jsstring) : Prop :=
  match r with
  | None => True
  | Some t => t <> [] /\ no_eol t = true
  end.

Definition remaining_text (r : option jsstring) : jsstring :=
  match r with
  | Some t => t
  | None => []
  end.

Definition remaining_of (t : jsstring) : option jsstring :=
  if truthy t then Some t else None.

(** A decoder for a single-byte encoding: every byte is one character. *)
Definition bytewise_write (d : unit) (b : Buffer) : unit * jsstring := (d, b).

End LineDecoder.

(* ================================================================== *)
(** * The validation provider ([LivecodescriptValidationProvider]) *)

Module Validation.

Inductive RunTrigger : Type := onSave | onType.

Definition RunTrigger_from (value : jsstring) : RunTrigger :=
  if streq value (js "onType") then onType else onSave.

Record ILivecodescriptConfig : Type := mkConfig {
  executable : option jsstring;               (* [None] is [undefined] *)
  executableIsUserDefined : option bool;
  trigger : RunTrigger
}.

Record Diagnostic : Type := mkDiagnostic {
  d_range : Range;
  message : jsstring
}.

(** [Number.MAX_VALUE] *)
Definition MAX_VALUE : Z := (2 ^ 1024 - 2 ^ 971)%Z.

(** The pattern [MatchExpression]: [Parse] or [Fatal], then [ error: ],
    then group 1, a greedy run of any characters, then [ in ], then
    group 2, a lazy run of any characters, then [ on line ], then
    group 3, one or more digits.  It has no anchor. *)
Definition MatchExpression : regex :=
  cat [cat [Alt (lit "Parse") (lit "Fatal"); lit " error"]; lit ": ";
       Group 1 (Star true cls_dot); lit " in ";
       Group 2 (Star false cls_dot); lit " on line ";
       Group 3 (Plus true cls_d)].

(** [new vscode.Diagnostic(range, message)]: the message must be
    truthy. *)
Definition new_Diagnostic (range : Range) (message : jsstring) : result Diagnostic :=
  if truthy message then Ok (mkDiagnostic range message)
  else Throw "message must be set".

(** The integer that a run of decimal digits writes. *)
Definition decimal (s : jsstring) : Z :=
  fold_left (fun acc c => (10 * acc + (Z.of_N c - 48))%Z) s 0%Z.

(** [parseInt] on a run of decimal digits, which is what group 3 of
    [MatchExpression] holds: the Number value for the integer that they
    write, which is that integer up to [2 ^ 53], a double near it above,
    and [+Infinity] from 309 digits on. *)
Definition parseInt (s : jsstring) : Z := to_number (decimal s).

(** [matches[n]]; every group of [MatchExpression] takes part in every
    match. *)
Definition matches_at (matches : match_result) (n : nat) : jsstring :=
  match group n (m_groups matches) with
  | Some g => g
  | None => []
  end.

(** The closure [processLine]; [diagnostics] is the array it pushes
    to: [Ok] gives the array afterwards, and when the closure raises the
    array is as it was, the push being its last statement. *)
Definition processLine (line : jsstring) (diagnostics : list Diagnostic)
  : result (list Diagnostic) :=
  match exec MatchExpression line with
  | Some matches =>
      let message := matches_at matches 1 in
      let line := minus_one (parseInt (matches_at matches 3)) in
      r <- new_Range4 line 0 line MAX_VALUE ;;
      diagnostic <- new_Diagnostic r message ;;
      Ok (diagnostics ++ [diagnostic])
  | None => Ok diagnostics
  end.

(** Whether [processLine] raises on a line. *)
Definition raises (line : jsstring) : bool :=
  match processLine line [] with
  | Ok _ => false
  | Throw _ => true
  end.

(** The shape of a diagnostic line: [mid] is [Parse error: ] or
    [Fatal error: ], a message, [ in ], a file name, [ on line ] and one
    or more digits, the message and the file name without line
    terminators. *)
Definition diagnostic_shape (mid msg file digits : jsstring) : Prop :=
  (mid = js "Parse error: " ++ msg ++ js " in " ++ file ++ js " on line " ++ digits
   \/ mid = js "Fatal error: " ++ msg ++ js " in " ++ file ++ js " on line " ++ digits)
  /\ forallb cls_dot msg = true /\ forallb cls_dot file = true
  /\ digits <> [] /\ forallb cls_d digits = true.

(** The whole line has the shape. *)
Definition is_diagnostic_line (line : jsstring) : Prop :=
  exists msg file digits, diagnostic_shape line msg file digits.

(** The shape is found somewhere in the line. *)
Definition has_diagnostic (line : jsstring) : Prop :=
  exists pre mid post msg file digits,
    line = pre ++ mid ++ post /\ diagnostic_shape mid msg file digits.

(** The shape is found in the line right after [pre], with this
    message, file name and digits, and [post] comes after it. *)
Definition shape_at (line pre msg file digits post : jsstring) : Prop :=
  exists mid, line = pre ++ mid ++ post /\ diagnostic_shape mid msg file digits.

(** The place where the shape is found first, in the order in which a
    backtracking matcher looks for it: as early in the line as can be;
    there, with the longest message; for this message, with the shortest
    file name; and with all the digits that follow. *)
Definition first_shape (line pre msg file digits post : jsstring) : Prop :=
  shape_at line pre msg file digits post
  /\ forall pre' msg' file' digits' post',
       shape_at line pre' msg' file' digits' post' ->
       length pre <= length pre'
       /\ (length pre' = length pre ->
           length msg' <= length msg
           /\ (length msg' = length msg ->
               length file <= length file'
               /\ (length file' = length file ->
                   length digits' <= length digits))).

(** The diagnostic that [processLine] builds from a message and the
    digits of a line number. *)
Definition diagnostic_for (msg digits : jsstring) : result Diagnostic :=
  let line := minus_one (parseInt digits) in
  r <- new_Range4 line 0 line MAX_VALUE ;;
  new_Diagnostic r msg.

(** [lines.forEach(processLine)] on the array [diagnostics]: the array
    afterwards and, when a call raised, the exception, which ends the
    loop and leaves the callback; what was pushed before stays in the
    array. *)
Fixpoint forEach_processLine (lines : list jsstring) (diagnostics : list Diagnostic)
  : list Diagnostic * option string :=
  match lines with
  | [] => (diagnostics, None)
  | l :: lines' =>
      match processLine l diagnostics with
      | Ok diagnostics => forEach_processLine lines' diagnostics
      | Throw e => (diagnostics, Some e)
      end
  end.

(** The outcome of a loop as a result. *)
Definition outcome (r : list Diagnostic * option string) : result (list Diagnostic) :=
  match snd r with
  | None => Ok (fst r)
  | Some e => Throw e
  end.


(** The fields of the provider that the claims are about. *)
Record Provider : Type := mkProvider {
  validationEnabled : bool;
  pauseValidation : bool;
  config : option ILivecodescriptConfig;      (* [None] is [undefined] *)
  delayers : list jsstring                    (* the keys in use *)
}.

(** The constructor's assignments. *)
Definition new_Provider : Provider := mkProvider true false None [].

(** [a === b] for two values that are a string or [undefined]. *)
Definition strict_eq (a b : option jsstring) : bool :=
  match a, b with
  | Some x, Some y => streq x y
  | None, None => true
  | _, _ => false
  end.

(** [this.config?.executable] *)
Definition config_executable (p : Provider) : option jsstring :=
  match config p with
  | Some c => executable c
  | None => None
  end.

(** [loadConfiguration], given what the settings hold when it runs:
    the [enable] flag and the result of [getConfig()]. *)
Definition loadConfiguration (enable : bool) (cfg : ILivecodescriptConfig)
           (p : Provider) : Provider :=
  let oldExecutable := config_executable p in
  mkProvider enable
    (if pauseValidation p then strict_eq oldExecutable (executable cfg)
     else pauseValidation p)
    (Some cfg)
    [].

(** [triggerValidate]: the provider afterwards, and whether
    [doValidate] has been handed to the document's delayer. *)
Definition triggerValidate (languageId : jsstring) (isTrusted : bool)
           (key : jsstring) (p : Provider) : Provider * bool :=
  if negb (streq languageId (js "livecodescript")) || pauseValidation p
     || negb (validationEnabled p)
  then (p, false)
  else if isTrusted then
    (mkProvider (validationEnabled p) (pauseValidation p) (config p)
       (if existsb (streq key) (delayers p) then delayers p
        else delayers p ++ [key]),
     true)
  else (p, false).

(** What happens in the [try] block: [cp.spawn] or the write to the
    input of the child raises; or the child is made and the [error]
    event comes, or it has no pid, or it runs and writes [stdout], chunk
    by chunk. *)
Inductive Spawned : Type :=
| SpawnThrows                (* an exception, caught by [catch] *)
| SpawnError                 (* the [error] event *)
| NoPid
| Running (stdout : list Buffer).

Section WithStringDecoder.

Variable StringDecoder : Type.
Variable sd_write : StringDecoder -> Buffer -> StringDecoder * jsstring.

(** The [data] events of the checker's standard output, one callback
    per chunk.  The decoder and the array [diagnostics] are shared by
    the callbacks.  An exception leaves the callback in which it is
    raised and no other: the decoder has taken the chunk by then, the
    lines of the chunk that are left are not handled, and the next
    event is handled as any other.  The result is the decoder, the
    array, and the exceptions that left a callback, in order. *)
Fixpoint on_data (decoder : LineDecoder.t StringDecoder) (chunks : list Buffer)
         (diagnostics : list Diagnostic)
  : LineDecoder.t StringDecoder * list Diagnostic * list string :=
  match chunks with
  | [] => (decoder, diagnostics, [])
  | data :: chunks' =>
      let (decoder, lines) := LineDecoder.write sd_write decoder data in
      let (diagnostics, e) := forEach_processLine lines diagnostics in
      let '(decoder, diagnostics, es) := on_data decoder chunks' diagnostics in
      (decoder, diagnostics,
       match e with
       | Some e => e :: es
       | None => es
       end)
  end.

(** The [end] event: what is handed to [diagnosticCollection.set], or
    the exception that leaves the callback before that. *)
Definition on_end (decoder : LineDecoder.t StringDecoder)
           (diagnostics : list Diagnostic) : result (list Diagnostic) :=
  match LineDecoder.end_ decoder with
  | Some line => if truthy line then processLine line diagnostics else Ok diagnostics
  | None => Ok diagnostics
  end.

(** The diagnostics set for the document when the output has come in
    [chunks]; [Throw] when the [end] callback raises and nothing is
    set.  [sd] is the decoder that [new LineDecoder()] makes. *)
Definition stdout_diagnostics (sd : StringDecoder) (chunks : list Buffer)
  : result (list Diagnostic) :=
  let '(decoder, diagnostics, _) := on_data (LineDecoder.new sd) chunks [] in
  on_end decoder diagnostics.

(** The exceptions that left a [data] callback. *)
Definition stdout_uncaught (sd : StringDecoder) (chunks : list Buffer) : list string :=
  snd (on_data (LineDecoder.new sd) chunks []).

(** [doValidate] up to the end of the checker's output: the provider
    afterwards, the number of messages shown, and the diagnostics set
    for the document, if any.  [triggerValidate] awaits the load of the
    configuration first, so [config] is set when this runs.  [showError]
    always has a message to show.  An exception in the [try] block is
    shown and nothing else is done: the pause is not set. *)
Definition doValidate (sd : StringDecoder) (isAbsolute : jsstring -> bool)
           (child : Spawned) (p : Provider)
  : Provider * nat * option (result (list Diagnostic)) :=
  let pause p := mkProvider (validationEnabled p) true (config p) (delayers p) in
  match config_executable p with
  | None => (pause p, 1, None)
  | Some executable =>
      if negb (truthy executable) then (pause p, 1, None)
      else if negb (isAbsolute executable) then (p, 0, None)
      else
        match child with
        | SpawnThrows => (p, 1, None)
        | SpawnError =>
            if pauseValidation p then (p, 0, None) else (pause p, 1, None)
        | NoPid => (p, 0, None)
        | Running stdout => (p, 0, Some (stdout_diagnostics sd stdout))
        end
  end.

End WithStringDecoder.

Arguments on_data {StringDecoder} _ _ _ _.
Arguments on_end {StringDecoder} _ _.
Arguments stdout_diagnostics {StringDecoder} _ _ _.
Arguments stdout_uncaught {StringDecoder} _ _ _.
Arguments doValidate {StringDecoder} _ _ _ _ _.

End Validation.
Import Validation.

(* ================================================================== *)
(** * The tokens of a line, without the patterns *)

Module Tokenizer.

(** The characters that [re] sets off with spaces. *)
Definition is_special (c : char) : bool := (c =? c_eq)%N || (c =? c_quote)%N.

(** A text with a space before and after every [=] and double quote. *)
Definition spaced_text (t : jsstring) : jsstring :=
  flat_map (fun c => if is_special c then [c_space; c; c_space] else [c]) t.

(** The words of a text: its longest runs of characters that are not
    white space.  [cur] is the current word so far, in reverse. *)
Fixpoint words (cur : jsstring) (s : jsstring) : list jsstring :=
  match s with
  | [] => match cur with [] => [] | _ :: _ => [rev cur] end
  | c :: s' =>
      if cls_s c then
        match cur with
        | [] => words [] s'
        | _ :: _ => rev cur :: words [] s'
        end
      else words (c :: cur) s'
  end.

(** What holds of a token: it is not empty, it has no white space, and
    when [=] or a double quote is in it, it is that one character. *)
Definition token_ok (tok : jsstring) : Prop :=
  tok <> []
  /\ forallb (fun c => negb (cls_s c)) tok = true
  /\ (existsb is_special tok = true -> exists c, tok = [c]).

(** The number of characters of a class that a text starts with. *)
Fixpoint run (p : char -> bool) (s : jsstring) : nat :=
  match s with
  | c :: s' => if p c then S (run p s') else 0
  | [] => 0
  end.

(** The number of double quote tokens among some tokens. *)
Definition quote_count (tokens : list jsstring) : nat :=
  length (filter (fun t => streq t [c_quote]) tokens).

(** The tokens that never give a variable its name. *)
Definition never_a_name (t : jsstring) : bool :=
  streq t [c_eq] || streq t [c_quote] || streq t (js ",")
  || streq t (js "variable") || streq t (js "as").

(** A line that matches the handler pattern and has no second token. *)
Definition nameless_handler (t : jsstring) : bool :=
  test re_handler (lineText_of t)
  && match token_at (tokens_of (lineText_of t)) 1 with
     | Some _ => false
     | None => true
     end.

(** The variable symbol that the loop over the tokens makes of a token
    of a line. *)
Definition variable_symbol (tokens : list jsstring) (line : TextLine)
           (nm : jsstring) : DocumentSymbol :=
  mkDocumentSymbol nm (token_at tokens 0) symbolkind_variable
    (new_Range (r_start (tl_range line)) (r_end (tl_range line)))
    (new_Range (r_start (tl_range line)) (r_end (tl_range line))) [].

(** What holds of a symbol that the loop makes of the token at index
    [j]. *)
Definition from_token (tokens : list jsstring) (line : TextLine) (j : nat)
           (v : DocumentSymbol) : Prop :=
  0 < j
  /\ nth_error tokens j = Some (name v)
  /\ Nat.even (quote_count (firstn j tokens)) = true
  /\ never_a_name (name v) = false
  /\ is_str (token_at tokens (Z.of_nat j - 1)) [c_eq] = false
  /\ v = variable_symbol tokens line (name v).

(** Where the symbols of the loop go: to the children of the handler
    symbol inside a handler, to the top-level list outside. *)
Definition placed (st st' : ScanState) (vs : list DocumentSymbol) : Prop :=
  inside_handler st' = inside_handler st
  /\ if inside_handler st then
       symbols st' = symbols st
       /\ handler_Symbol st'
          = mkDocumentSymbol (name (handler_Symbol st)) (detail (handler_Symbol st))
              (kind (handler_Symbol st)) (range (handler_Symbol st))
              (selectionRange (handler_Symbol st))
              (children (handler_Symbol st) ++ vs)
     else
       symbols st' = symbols st ++ vs /\ handler_Symbol st' = handler_Symbol st.

End Tokenizer.
Import Tokenizer.

(* ================================================================== *)
(** * The ranges of the outline *)

Module Nesting.

(** A range whose end is not before its start. *)
Definition ordered (r : Range) : Prop := isBefore (r_end r) (r_start r) = false.

(** A symbol whose range is ordered and whose children lie within its
    range and have no children of their own. *)
Definition well_nested (s : DocumentSymbol) : Prop :=
  ordered (range s)
  /\ Forall (fun c => contains (range s) (range c) = true /\ children c = [])
            (children s).

(** What holds of the ranges when [n] lines have been scanned: the
    top-level symbols are well nested, and when the scope is open the
    handler symbol has the range of a line [i] already read, and its
    children have the ranges of lines read after that line. *)
Definition nested_inv (n : nat) (st : ScanState) : Prop :=
  Forall well_nested (symbols st)
  /\ (inside_handler st = true ->
      exists i len,
        i < n
        /\ range (handler_Symbol st) = line_range (Z.of_nat i) (Z.of_nat len)
        /\ Forall (fun c =>
                     children c = []
                     /\ exists k l, i < k < n
                                    /\ range c = line_range (Z.of_nat k) (Z.of_nat l))
                  (children (handler_Symbol st))).

End Nesting.
Import Nesting.

(* ================================================================== *)
(** * The shape of the diagnostics *)

Module Diagnostics.

(** A diagnostic as [processLine] makes them: on one line whose number
    is not negative, from column 0 to [Number.MAX_VALUE], with a message
    that holds no line terminator. *)
Definition on_one_line (d : Diagnostic) : Prop :=
  exists n, (0 <= n)%Z
            /\ d_range d = line_range n MAX_VALUE
            /\ forallb cls_dot (message d) = true.

End Diagnostics.
Import Diagnostics.

(* ================================================================== *)
(** * The configuration ([getConfig]) *)

Module Config.

(** What [section.inspect(Setting.ExecutablePath)] gives; [None] is
    [undefined]. *)
Record Inspect : Type := mkInspect {
  workspaceValue : option jsstring;
  globalValue : option jsstring;
  defaultValue : option jsstring
}.

(** Truthiness of a value that is a string or [undefined]. *)
Definition truthy_value (v : option jsstring) : bool :=
  match v with
  | Some s => truthy s
  | None => false
  end.

Section WithHost.

(** [path.isAbsolute], and [vscode.Uri.joinPath(first.uri, executable).fsPath]
    as a function of the folder and the path. *)
Variable isAbsolute : jsstring -> bool.
Variable joinPath : jsstring -> jsstring -> jsstring.

(** [getConfig], given what its calls answer: [inspect] for the
    executable path, the first workspace folder if there is one, what
    [which('livecodescript')] finds ([None] when it raises), and the
    value of the run setting. *)
Definition getConfig (inspect : option Inspect) (first : option jsstring)
           (which : option jsstring) (run : jsstring) : ILivecodescriptConfig :=
  let found :=
    match inspect with
    | Some ins =>
        if truthy_value (workspaceValue ins) then (workspaceValue ins, Some false)
        else if truthy_value (globalValue ins) then (globalValue ins, Some true)
        else if truthy_value (defaultValue ins) then (defaultValue ins, Some false)
        else (None, None)
    | None => (None, None)
    end in
  let executable := fst found in
  let executableIsUserDefined := snd found in
  let executable :=
    match executable with
    | Some e =>
        if truthy e && negb (isAbsolute e) then
          match first with
          | Some uri => Some (joinPath uri e)
          | None => None
          end
        else if negb (truthy e) then which
        else Some e
    | None => which
    end in
  mkConfig executable executableIsUserDefined (RunTrigger_from run).

End WithHost.

End Config.
Import Config.

(* ================================================================== *)
(** * The matcher and the meaning of patterns *)

Section RegexFacts.

Lemma firstn_len_app (s1 s2 : jsstring) (i : nat) :
  firstn (i + length s1 - i) (s1 ++ s2) = s1.
Proof.
  replace (i + length s1 - i) with (length s1 + 0) by lia.
  rewrite firstn_app_2. simpl. apply app_nil_r.
Qed.

Lemma star_greedy_sound p (k : cont) s : forall i c res,
  star_greedy p k i s c = Some res ->
  exists s1 s2, s = s1 ++ s2 /\ forallb p s1 = true
                /\ k (i + length s1) s2 c = Some res.
Proof.
  induction s as [|x s IH]; intros i c res H; simpl in H.
  - exists [], []. simpl. rewrite Nat.add_0_r. auto.
  - destruct (p x) eqn:Hp.
    + destruct (star_greedy p k (S i) s c) as [r0|] eqn:Hg.
      * inversion H; subst r0. destruct (IH _ _ _ Hg) as (s1 & s2 & -> & Hall & Hk).
        exists (x :: s1), s2. simpl. rewrite Hp, Hall.
        replace (i + S (length s1)) with (S i + length s1) by lia. auto.
      * exists [], (x :: s). simpl. rewrite Nat.add_0_r. auto.
    + exists [], (x :: s). simpl. rewrite Nat.add_0_r. auto.
Qed.

Lemma star_lazy_sound p (k : cont) s : forall i c res,
  star_lazy p k i s c = Some res ->
  exists s1 s2, s = s1 ++ s2 /\ forallb p s1 = true
                /\ k (i + length s1) s2 c = Some res.
Proof.
  induction s as [|x s IH]; intros i c res H; simpl in H.
  - destruct (k i [] c) eqn:Hk; [|destruct (k i [] c); discriminate].
    exists [], []. simpl. rewrite Nat.add_0_r. rewrite Hk. auto.
  - destruct (k i (x :: s) c) eqn:Hk.
    + exists [], (x :: s). simpl. rewrite Nat.add_0_r, Hk. auto.
    + destruct (p x) eqn:Hp; [|discriminate].
      destruct (IH _ _ _ H) as (s1 & s2 & -> & Hall & Hk').
      exists (x :: s1), s2. simpl. rewrite Hp, Hall.
      replace (i + S (length s1)) with (S i + length s1) by lia. auto.
Qed.

(** Whatever the matcher finds is a match of the pattern, followed by
    what the continuation accepted. *)
Lemma m_sound r : forall (k : cont) i s c res,
  m r k i s c = Some res ->
  exists s1 s2 c1,
    s = s1 ++ s2 /\ matches r i s1 c c1 /\ k (i + length s1) s2 c1 = Some res.
Proof.
  induction r as [|a|p| |r1 IH1 r2 IH2|r1 IH1 r2 IH2|g p|n r IH];
    intros k i s c res H; simpl in H.
  - exists [], s, c. simpl. rewrite Nat.add_0_r. auto.
  - destruct s as [|x s]; [discriminate|].
    destruct (N.eqb_spec x a); [subst x|discriminate].
    exists [a], s, c. simpl. replace (i + 1) with (S i) by lia. auto.
  - destruct s as [|x s]; [discriminate|].
    destruct (p x) eqn:Hp; [|discriminate].
    exists [x], s, c. simpl. replace (i + 1) with (S i) by lia. eauto 6.
  - destruct (Nat.eqb_spec i 0); [subst i|discriminate].
    exists [], s, c. simpl. auto.
  - destruct (IH1 _ _ _ _ _ H) as (s1 & s' & c1 & -> & M1 & H2).
    destruct (IH2 _ _ _ _ _ H2) as (s2 & s3 & c2 & -> & M2 & H3).
    exists (s1 ++ s2), s3, c2. rewrite length_app, Nat.add_assoc, app_assoc.
    split; [reflexivity|]. split; [|assumption].
    simpl. exists s1, s2, c1. auto.
  - destruct (m r1 k i s c) as [r0|] eqn:H1.
    + inversion H; subst r0.
      destruct (IH1 _ _ _ _ _ H1) as (s1 & s2 & c1 & ? & ? & ?).
      exists s1, s2, c1. simpl. auto.
    + destruct (IH2 _ _ _ _ _ H) as (s1 & s2 & c1 & ? & ? & ?).
      exists s1, s2, c1. simpl. auto.
  - assert (exists s1 s2, s = s1 ++ s2 /\ forallb p s1 = true
                          /\ k (i + length s1) s2 c = Some res)
      as (s1 & s2 & ? & ? & ?)
      by (destruct g; [eapply star_greedy_sound|eapply star_lazy_sound]; eassumption).
    exists s1, s2, c. simpl. auto.
  - destruct (IH _ _ _ _ _ H) as (s1 & s2 & c1 & -> & M1 & Hk).
    cbv beta in Hk. rewrite firstn_len_app in Hk.
    exists s1, s2, (set_group n s1 c1). simpl. eauto.
Qed.

Lemma star_greedy_complete p (k : cont) s1 : forall s2 i c,
  forallb p s1 = true ->
  k (i + length s1) s2 c <> None ->
  star_greedy p k i (s1 ++ s2) c <> None.
Proof.
  induction s1 as [|x s1 IH]; intros s2 i c Hall Hk; simpl in *.
  - rewrite Nat.add_0_r in Hk.
    destruct s2 as [|y s2]; simpl; [assumption|].
    destruct (p y); [|assumption].
    destruct (star_greedy p k (S i) s2 c); [discriminate|assumption].
  - apply andb_prop in Hall as [Hx Hall]. rewrite Hx.
    replace (i + S (length s1)) with (S i + length s1) in Hk by lia.
    specialize (IH s2 (S i) c Hall Hk).
    destruct (star_greedy p k (S i) (s1 ++ s2) c); [discriminate|contradiction].
Qed.

Lemma star_lazy_complete p (k : cont) s1 : forall s2 i c,
  forallb p s1 = true ->
  k (i + length s1) s2 c <> None ->
  star_lazy p k i (s1 ++ s2) c <> None.
Proof.
  induction s1 as [|x s1 IH]; intros s2 i c Hall Hk; simpl in *.
  - rewrite Nat.add_0_r in Hk.
    destruct s2 as [|y s2]; simpl; destruct (k i _ c); try discriminate; contradiction.
  - apply andb_prop in Hall as [Hx Hall]. rewrite Hx.
    replace (i + S (length s1)) with (S i + length s1) in Hk by lia.
    specialize (IH s2 (S i) c Hall Hk).
    destruct (k i (x :: s1 ++ s2) c); [discriminate|assumption].
Qed.

(** Every match of the pattern that the continuation accepts makes the
    matcher succeed (with this match or with one it tries before). *)
Lemma m_complete r : forall (k : cont) i s1 s2 c c1,
  matches r i s1 c c1 ->
  k (i + length s1) s2 c1 <> None ->
  m r k i (s1 ++ s2) c <> None.
Proof.
  induction r as [|a|p| |r1 IH1 r2 IH2|r1 IH1 r2 IH2|g p|n r IH];
    intros k i s1 s2 c c1 HM Hk; simpl in HM; simpl.
  - destruct HM as [-> ->]. simpl in *. rewrite Nat.add_0_r in Hk. assumption.
  - destruct HM as [-> ->]. simpl in *. rewrite N.eqb_refl.
    replace (i + 1) with (S i) in Hk by lia. assumption.
  - destruct HM as [(x & -> & Hp) ->]. simpl in *. rewrite Hp.
    replace (i + 1) with (S i) in Hk by lia. assumption.
  - destruct HM as (-> & -> & ->). simpl in *. assumption.
  - destruct HM as (t1 & t2 & c' & -> & M1 & M2).
    rewrite <- app_assoc. eapply IH1; [eassumption|].
    eapply IH2; [eassumption|].
    rewrite length_app, Nat.add_assoc in Hk. assumption.
  - destruct HM as [M1|M2].
    + specialize (IH1 _ _ _ _ _ _ M1 Hk).
      destruct (m r1 k i (s1 ++ s2) c); [discriminate|contradiction].
    + specialize (IH2 _ _ _ _ _ _ M2 Hk).
      destruct (m r1 k i (s1 ++ s2) c); [discriminate|assumption].
  - destruct HM as [Hall ->].
    destruct g; [apply star_greedy_complete|apply star_lazy_complete]; assumption.
  - destruct HM as (c' & M1 & ->).
    eapply IH; [eassumption|]. cbv beta. rewrite firstn_len_app. assumption.
Qed.

Lemma match_at_sound r i s res :
  match_at r i s = Some res ->
  exists mid post c,
    s = mid ++ post /\ matches r i mid [] c /\
    res = MatchResult i (i + length mid) (set_group 0 mid c).
Proof.
  unfold match_at. destruct (m r accept i s []) as [[e c]|] eqn:H; [|discriminate].
  intros E; inversion E; subst res; clear E.
  destruct (m_sound _ _ _ _ _ _ H) as (s1 & s2 & c1 & -> & HM & Hk).
  unfold accept in Hk. inversion Hk; subst e c1.
  exists s1, s2, c. rewrite firstn_len_app. auto.
Qed.

Lemma match_at_complete r i mid post c :
  matches r i mid [] c -> match_at r i (mid ++ post) <> None.
Proof.
  intros HM. unfold match_at.
  assert (H : m r accept i (mid ++ post) [] <> None)
    by (eapply m_complete; [eassumption|unfold accept; discriminate]).
  destruct (m r accept i (mid ++ post) []) as [[e c']|]; [discriminate|contradiction].
Qed.

Lemma search_sound r s : forall i res,
  search r i s = Some res ->
  exists pre mid post c,
    s = pre ++ mid ++ post /\ matches r (i + length pre) mid [] c /\
    res = MatchResult (i + length pre) (i + length pre + length mid)
                      (set_group 0 mid c).
Proof.
  induction s as [|x s IH]; intros i res H; simpl in H.
  - destruct (match_at r i []) as [r0|] eqn:Hm; [|discriminate].
    inversion H; subst r0.
    destruct (match_at_sound _ _ _ _ Hm) as (mid & post & c & E & HM & ->).
    exists [], mid, post, c. simpl. rewrite Nat.add_0_r. auto.
  - destruct (match_at r i (x :: s)) as [r0|] eqn:Hm.
    + inversion H; subst r0.
      destruct (match_at_sound _ _ _ _ Hm) as (mid & post & c & E & HM & ->).
      exists [], mid, post, c. simpl. rewrite Nat.add_0_r. auto.
    + destruct (IH _ _ H) as (pre & mid & post & c & -> & HM & ->).
      exists (x :: pre), mid, post, c. simpl.
      replace (i + S (length pre)) with (S i + length pre) by lia. auto.
Qed.

Lemma search_complete r pre : forall i mid post c,
  matches r (i + length pre) mid [] c ->
  search r i (pre ++ mid ++ post) <> None.
Proof.
  induction pre as [|x pre IH]; intros i mid post c HM; simpl in *.
  - rewrite Nat.add_0_r in HM.
    pose proof (match_at_complete _ _ _ post _ HM) as H.
    destruct (mid ++ post) as [|y t]; simpl;
      destruct (match_at r i _); try discriminate; contradiction.
  - destruct (match_at r i (x :: pre ++ mid ++ post)); [discriminate|].
    apply IH with (c := c).
    replace (S i + length pre) with (i + S (length pre)) by lia. assumption.
Qed.

(** [s.match(r)] is truthy exactly when [r] occurs in [s]. *)
Lemma test_occurs r s : test r s = true <-> occurs r s.
Proof.
  unfold test, exec, occurs. split.
  - destruct (search r 0 s) as [res|] eqn:H; [|discriminate].
    intros _. destruct (search_sound _ _ _ _ H) as (pre & mid & post & c & E & HM & _).
    simpl in HM. eauto 8.
  - intros (pre & mid & post & c & -> & HM).
    pose proof (search_complete r pre 0 mid post c HM) as H.
    destruct (search r 0 (pre ++ mid ++ post)); [reflexivity|contradiction].
Qed.

End RegexFacts.

(* ================================================================== *)
(** * The line decoder cuts the decoded text at its terminators *)

Module LineDecoderFacts.
Import LineDecoder.

Lemma charCodeAt_app (pre rest : jsstring) :
  charCodeAt (pre ++ rest) (length pre) = hd_error rest.
Proof.
  unfold charCodeAt. rewrite nth_error_app2 by lia.
  rewrite Nat.sub_diag. destruct rest; reflexivity.
Qed.

Lemma ltb_app (pre rest : jsstring) :
  (length pre <? length (pre ++ rest)) = truthy rest.
Proof.
  rewrite length_app. destruct rest; simpl.
  - apply Nat.ltb_ge. lia.
  - apply Nat.ltb_lt. lia.
Qed.

Lemma skip_eol_spec : forall fuel pre rest,
  length rest <= fuel ->
  skip_eol fuel (pre ++ rest) (length pre) = length pre + eol_run rest.
Proof.
  induction fuel as [|fuel IH]; intros pre rest Hf.
  - destruct rest; simpl in *; [lia|lia].
  - simpl. rewrite ltb_app, charCodeAt_app.
    destruct rest as [|c rest]; simpl; [lia|].
    destruct (is_eol c); [|lia].
    replace (pre ++ c :: rest) with ((pre ++ [c]) ++ rest)
      by (rewrite <- app_assoc; reflexivity).
    replace (S (length pre)) with (length (pre ++ [c]))
      by (rewrite length_app; simpl; lia).
    rewrite IH by (simpl in Hf; lia).
    rewrite length_app. simpl. lia.
Qed.

Lemma eol_run_le s : eol_run s <= length s.
Proof. induction s as [|c s IH]; simpl; [lia|]. destruct (is_eol c); lia. Qed.

Lemma eol_run_skipn s : eol_run (skipn (eol_run s) s) = 0.
Proof.
  induction s as [|c s IH]; simpl; [reflexivity|].
  destruct (is_eol c) eqn:E; simpl; [assumption|]. rewrite E. reflexivity.
Qed.

Lemma cut_skipn s : cut [] (skipn (eol_run s) s) = cut [] s.
Proof.
  induction s as [|c s IH]; simpl; [reflexivity|].
  destruct (is_eol c) eqn:E; simpl; [assumption|]. rewrite E. reflexivity.
Qed.

Lemma substring_mid (pre cur rest : jsstring) :
  substring (pre ++ cur ++ rest) (length pre) (length (pre ++ cur)) = cur.
Proof.
  unfold substring. rewrite skipn_app, skipn_all, Nat.sub_diag. simpl.
  rewrite length_app. replace (length pre + length cur - length pre)
    with (length cur + 0) by lia.
  rewrite firstn_app_2. simpl. apply app_nil_r.
Qed.

(** The main loop of [write], from a point where [cur] is the line
    being read and [rest] is what is still to read. *)
Lemma scan_spec : forall fuel pre cur rest result,
  length rest <= fuel ->
  cur <> [] \/ eol_run rest = 0 ->
  exists pre',
    pre ++ cur ++ rest = pre' ++ snd (cut (rev cur) rest) /\
    scan fuel (pre ++ cur ++ rest) (length pre) (length (pre ++ cur)) result
    = (result ++ fst (cut (rev cur) rest), length pre').
Proof.
  induction fuel as [|fuel IH]; intros pre cur rest result Hf Hc.
  - destruct rest; simpl in Hf; [|lia]. simpl.
    exists pre. rewrite rev_involutive, !app_nil_r. auto.
  - simpl scan. rewrite app_assoc, ltb_app, charCodeAt_app, <- app_assoc.
    destruct rest as [|c rest]; simpl truthy; cbv iota.
    + simpl. exists pre. rewrite rev_involutive, !app_nil_r. auto.
    + simpl hd_error. cbv iota. simpl cut. destruct (is_eol c) eqn:E.
      * assert (Hcur : cur <> []) by (destruct Hc as [?|Hc]; [assumption|simpl in Hc; rewrite E in Hc; discriminate]).
        rewrite substring_mid.
        replace (pre ++ cur ++ c :: rest) with ((pre ++ cur ++ [c]) ++ rest)
          by (rewrite <- !app_assoc; reflexivity).
        replace (S (length (pre ++ cur))) with (length (pre ++ cur ++ [c]))
          by (rewrite !length_app; simpl; lia).
        rewrite skip_eol_spec by (rewrite !length_app; simpl; lia).
        destruct (rev cur) as [|y t] eqn:Er.
        { apply (f_equal (@rev _)) in Er. rewrite rev_involutive in Er.
          simpl in Er. contradiction. }
        rewrite <- Er, rev_involutive. clear Er y t.
        rewrite <- (cut_skipn rest).
        pose proof (eol_run_le rest) as Hn.
        pose proof (eol_run_skipn rest) as Hr.
        pose proof (firstn_skipn (eol_run rest) rest) as Hsplit.
        pose proof (firstn_length_le rest Hn) as Hle.
        set (n := eol_run rest) in *.
        set (eols := firstn n rest) in *. set (rest' := skipn n rest) in *.
        clearbody eols rest' n. subst rest n.
        replace ((pre ++ cur ++ [c]) ++ eols ++ rest')
          with ((pre ++ cur ++ [c] ++ eols) ++ [] ++ rest')
          by (rewrite <- !app_assoc; reflexivity).
        replace (length (pre ++ cur ++ [c]) + length eols)
          with (length (pre ++ cur ++ [c] ++ eols))
          by (rewrite !length_app; simpl; lia).
        destruct (IH (pre ++ cur ++ [c] ++ eols) [] rest' (result ++ [cur]))
          as (pre' & Hv & Hs).
        { simpl in Hf. rewrite length_app in Hf. lia. }
        { right. assumption. }
        rewrite (app_nil_r (pre ++ cur ++ [c] ++ eols)) in Hs.
        exists pre'. simpl rev in *.
        destruct (cut [] rest') as [ls r]. simpl fst in *. simpl snd in *.
        split; [assumption|].
        etransitivity; [exact Hs|].
        rewrite <- app_assoc. reflexivity.
      * replace (pre ++ cur ++ c :: rest) with (pre ++ (cur ++ [c]) ++ rest)
          by (rewrite <- !app_assoc; reflexivity).
        replace (S (length (pre ++ cur))) with (length (pre ++ cur ++ [c]))
          by (rewrite !length_app; simpl; lia).
        destruct (IH pre (cur ++ [c]) rest result) as (pre' & Hv & Hs).
        { simpl in Hf. lia. }
        { left. destruct cur; discriminate. }
        rewrite rev_app_distr in Hv, Hs. simpl in Hv, Hs.
        exists pre'. auto.
Qed.

Lemma cut_app_no_eol a : forall cur b,
  no_eol a = true -> cut cur (a ++ b) = cut (rev a ++ cur) b.
Proof.
  induction a as [|c a IH]; intros cur b H; simpl in *; [reflexivity|].
  apply andb_prop in H as [Hc Ha]. apply negb_true_iff in Hc. rewrite Hc.
  rewrite IH by assumption. rewrite <- app_assoc. reflexivity.
Qed.

(** Cutting a text in two pieces: the second piece goes on from the
    line that the first one left open. *)
Lemma cut_app x : forall cur y,
  cut cur (x ++ y) =
  (fst (cut cur x) ++ fst (cut (rev (snd (cut cur x))) y),
   snd (cut (rev (snd (cut cur x))) y)).
Proof.
  induction x as [|c x IH]; intros cur y; simpl.
  - rewrite rev_involutive. destruct (cut cur y); reflexivity.
  - destruct (is_eol c).
    + destruct cur as [|a cur]; [apply IH|].
      rewrite IH. destruct (cut [] x) as [ls r]. simpl. reflexivity.
    + apply IH.
Qed.

Lemma no_eol_rev s : no_eol (rev s) = no_eol s.
Proof.
  unfold no_eol. induction s as [|c s IH]; simpl; [reflexivity|].
  rewrite forallb_app. simpl. rewrite andb_true_r.
  unfold jsstring, char in *. rewrite IH. apply andb_comm.
Qed.

Lemma cut_snd_no_eol s : forall cur,
  no_eol cur = true -> no_eol (snd (cut cur s)) = true.
Proof.
  induction s as [|c s IH]; intros cur H; simpl.
  - rewrite no_eol_rev. assumption.
  - destruct (is_eol c) eqn:E.
    + destruct cur as [|a cur]; [apply IH; reflexivity|].
      specialize (IH [] eq_refl). destruct (cut [] s). assumption.
    + apply IH. simpl. rewrite E. assumption.
Qed.

(** No line is empty, and no line holds a terminator. *)
Lemma cut_fst_lines s : forall cur,
  no_eol cur = true ->
  Forall (fun l => l <> [] /\ no_eol l = true) (fst (cut cur s)).
Proof.
  induction s as [|c s IH]; intros cur H; simpl; [constructor|].
  destruct (is_eol c) eqn:E.
  - destruct cur as [|a cur]; [apply IH; reflexivity|].
    specialize (IH [] eq_refl). destruct (cut [] s) as [ls r]. simpl in *.
    constructor; [|assumption]. split.
    + intros Hr. apply (f_equal (@length _)) in Hr.
      rewrite length_app in Hr. simpl in Hr. lia.
    + change (no_eol (rev (a :: cur)) = true). rewrite no_eol_rev. assumption.
  - apply IH. simpl. rewrite E. assumption.
Qed.

(** Nothing but the terminators is dropped. *)
Lemma cut_concat s : forall cur,
  concat (fst (cut cur s)) ++ snd (cut cur s)
  = rev cur ++ filter (fun c => negb (is_eol c)) s.
Proof.
  induction s as [|c s IH]; intros cur; simpl.
  - rewrite app_nil_r. reflexivity.
  - destruct (is_eol c) eqn:E; simpl.
    + destruct cur as [|a cur]; [apply IH|].
      specialize (IH []). destruct (cut [] s) as [ls r]. simpl in *.
      rewrite <- IH, <- !app_assoc. reflexivity.
    + rewrite IH. simpl. rewrite <- app_assoc. reflexivity.
Qed.

Lemma write_value_spec (value : jsstring) :
  let start := skip_eol (length value) value 0 in
  let (result, start') := scan (length value) value start start [] in
  (result, if start' <? length value then Some (substr value start') else None)
  = (fst (cut [] value), remaining_of (snd (cut [] value))).
Proof.
  cbv zeta.
  pose proof (skip_eol_spec (length value) [] value (le_n _)) as Hskip.
  simpl in Hskip. rewrite Hskip. clear Hskip.
  pose proof (eol_run_le value) as Hn.
  pose proof (eol_run_skipn value) as Hr.
  pose proof (firstn_skipn (eol_run value) value) as Hsplit.
  pose proof (firstn_length_le value Hn) as Hle.
  rewrite <- (cut_skipn value).
  set (n := eol_run value) in *.
  set (pre := firstn n value) in *. set (rest := skipn n value) in *.
  clearbody pre rest n. subst value n.
  destruct (scan_spec (length (pre ++ rest)) pre [] rest [])
    as (pre' & Hv & Hs).
  { rewrite length_app. lia. }
  { right. assumption. }
  simpl in Hv, Hs. rewrite app_nil_r in Hs.
  replace (scan (length (pre ++ rest)) (pre ++ rest) (length pre) (length pre) [])
    with (fst (cut [] rest), length pre') by (symmetry; exact Hs).
  rewrite Hv, ltb_app. unfold substr.
  rewrite skipn_app, skipn_all, Nat.sub_diag. reflexivity.
Qed.

Section WithStringDecoder.

Variable StringDecoder : Type.
Variable sd_write : StringDecoder -> Buffer -> StringDecoder * jsstring.

(** One [write]: the decoded text is cut, starting in the line that
    [remaining] holds. *)
Lemma write_spec (d : t StringDecoder) (buffer : Buffer) :
  wf_remaining (remaining d) ->
  write sd_write d buffer =
  (mk (fst (sd_write (stringDecoder d) buffer))
      (remaining_of (snd (cut (rev (remaining_text (remaining d)))
                              (snd (sd_write (stringDecoder d) buffer))))),
   fst (cut (rev (remaining_text (remaining d)))
            (snd (sd_write (stringDecoder d) buffer)))).
Proof.
  intros Hwf. unfold LineDecoder.write.
  destruct (sd_write (stringDecoder d) buffer) as [sd decoded]. simpl fst. simpl snd.
  set (r0 := remaining_text (remaining d)).
  assert (Hval : match remaining d with
                 | Some r => if truthy r then r ++ decoded else decoded
                 | None => decoded
                 end = r0 ++ decoded).
  { subst r0. destruct (remaining d) as [r|]; simpl; [|reflexivity].
    destruct r; [destruct Hwf; contradiction|reflexivity]. }
  assert (Hr0 : no_eol r0 = true).
  { subst r0. destruct (remaining d) as [r|]; simpl in *; [tauto|reflexivity]. }
  rewrite Hval.
  assert (Hcut : cut [] (r0 ++ decoded) = cut (rev r0) decoded).
  { rewrite cut_app_no_eol by assumption. rewrite app_nil_r. reflexivity. }
  rewrite <- Hcut.
  destruct (r0 ++ decoded) as [|c value] eqn:Ev.
  - simpl. f_equal. f_equal.
    destruct (remaining d) as [r|]; [|reflexivity].
    subst r0. simpl in Ev. destruct r; [destruct Hwf; contradiction|discriminate].
  - replace (length (c :: value) <? 1) with false
      by (symmetry; apply Nat.ltb_ge; simpl; lia).
    pose proof (write_value_spec (c :: value)) as Hw. cbv zeta in Hw.
    destruct (scan (length (c :: value)) (c :: value)
                (skip_eol (length (c :: value)) (c :: value) 0)
                (skip_eol (length (c :: value)) (c :: value) 0) [])
      as [result start'].
    apply (f_equal (fun p => (mk sd (snd p), fst p))) in Hw. exact Hw.
Qed.

Lemma remaining_of_wf s : no_eol s = true -> wf_remaining (remaining_of s).
Proof. destruct s; simpl; [tauto|]. intros H. split; [discriminate|assumption]. Qed.

Lemma remaining_text_of s : remaining_text (remaining_of s) = s.
Proof. destruct s; reflexivity. Qed.

Lemma wf_remaining_no_eol r : wf_remaining r -> no_eol (remaining_text r) = true.
Proof. destruct r; simpl; tauto. Qed.

(** All the writes of a stream: the whole decoded text is cut. *)
Lemma write_all_spec chunks : forall d : t StringDecoder,
  wf_remaining (remaining d) ->
  write_all sd_write d chunks =
  (mk (fst (decode_chunks sd_write (stringDecoder d) chunks))
      (remaining_of (snd (cut (rev (remaining_text (remaining d)))
                              (snd (decode_chunks sd_write (stringDecoder d) chunks))))),
   fst (cut (rev (remaining_text (remaining d)))
            (snd (decode_chunks sd_write (stringDecoder d) chunks)))).
Proof.
  induction chunks as [|b chunks IH]; intros d Hwf; simpl.
  - rewrite rev_involutive.
    destruct d as [sd [r|]]; simpl in *; [|reflexivity].
    destruct r; [destruct Hwf; contradiction|reflexivity].
  - rewrite write_spec by assumption.
    pose proof (wf_remaining_no_eol _ Hwf) as Hr0.
    set (r0 := remaining_text (remaining d)) in *.
    destruct (sd_write (stringDecoder d) b) as [sd1 s1]. simpl fst. simpl snd.
    assert (Hwf1 : wf_remaining (remaining_of (snd (cut (rev r0) s1)))).
    { apply remaining_of_wf, cut_snd_no_eol. rewrite no_eol_rev. assumption. }
    rewrite IH by exact Hwf1. simpl stringDecoder. simpl remaining.
    rewrite remaining_text_of.
    destruct (decode_chunks sd_write sd1 chunks) as [sd2 s2]. simpl fst. simpl snd.
    rewrite (cut_app s1 (rev r0) s2). reflexivity.
Qed.

(** The consumer's view of a stream is the list of the lines of the
    decoded text. *)
Lemma lines_of_stream_spec sd chunks :
  lines_of_stream sd_write sd chunks = lines_of_text (snd (decode_chunks sd_write sd chunks)).
Proof.
  unfold LineDecoder.lines_of_stream, lines_of_text.
  rewrite write_all_spec by exact I. simpl.
  destruct (cut [] (snd (decode_chunks sd_write sd chunks))) as [ls r]. simpl.
  destruct r; reflexivity.
Qed.

End WithStringDecoder.

End LineDecoderFacts.

(* ================================================================== *)
(** * Streams of chunks *)

Section Streaming.
Import LineDecoder LineDecoderFacts.

Variable StringDecoder : Type.
Variable sd_write : StringDecoder -> Buffer -> StringDecoder * jsstring.

(** The string decoder is a streaming decoder: the text it hands out
    for two buffers in a row is the text it hands out for the two
    buffers joined, and it leaves the same decoder behind. *)
Hypothesis sd_write_nil : forall sd, sd_write sd [] = (sd, []).
Hypothesis sd_write_app : forall sd b1 b2,
  sd_write sd (b1 ++ b2) =
  (fst (sd_write (fst (sd_write sd b1)) b2),
   snd (sd_write sd b1) ++ snd (sd_write (fst (sd_write sd b1)) b2)).

Lemma decode_chunks_concat chunks : forall sd,
  decode_chunks sd_write sd chunks = sd_write sd (concat chunks).
Proof.
  induction chunks as [|b chunks IH]; intros sd; simpl.
  - symmetry. apply sd_write_nil.
  - rewrite sd_write_app. destruct (sd_write sd b) as [sd1 s1]. simpl.
    rewrite IH. destruct (sd_write sd1 (concat chunks)); reflexivity.
Qed.

Lemma lines_of_text_lines txt :
  Forall (fun l => l <> [] /\ no_eol l = true) (lines_of_text txt).
Proof.
  unfold lines_of_text.
  pose proof (cut_fst_lines txt [] eq_refl) as Hl.
  pose proof (cut_snd_no_eol txt [] eq_refl) as Hr.
  destruct (cut [] txt) as [ls r]. simpl in *.
  apply Forall_app. split; [assumption|].
  destruct r; simpl; constructor; [|constructor].
  split; [discriminate|assumption].
Qed.

Lemma lines_of_text_concat txt :
  concat (lines_of_text txt) = filter (fun c => negb (is_eol c)) txt.
Proof.
  unfold lines_of_text. pose proof (cut_concat txt []) as H.
  destruct (cut [] txt) as [ls r]. simpl in *. rewrite <- H.
  rewrite concat_app. destruct r; simpl; rewrite ?app_nil_r; reflexivity.
Qed.

(** C3.  For every text and every way of splitting it into chunks,
    writing the chunks in order and then calling [end] gives the same
    lines, in the same order, as one write of the whole text: they are
    the lines of the decoded text.  No line is empty or holds a CR or
    LF, and nothing of the text but its CR and LF is missing from the
    lines, so a last line without terminator is among them. *)
Theorem LineDecoder_chunks_same_lines (sd : StringDecoder) (chunks : list Buffer) :
  lines_of_stream sd_write sd chunks = lines_of_stream sd_write sd [concat chunks]
  /\ lines_of_stream sd_write sd chunks
     = lines_of_text (snd (sd_write sd (concat chunks)))
  /\ Forall (fun l => l <> [] /\ no_eol l = true) (lines_of_stream sd_write sd chunks)
  /\ concat (lines_of_stream sd_write sd chunks)
     = filter (fun c => negb (is_eol c)) (snd (sd_write sd (concat chunks))).
Proof.
  assert (E : lines_of_stream sd_write sd chunks
              = lines_of_text (snd (sd_write sd (concat chunks))))
    by (rewrite lines_of_stream_spec, decode_chunks_concat; reflexivity).
  repeat split.
  - rewrite E, lines_of_stream_spec, decode_chunks_concat.
    simpl. rewrite app_nil_r. reflexivity.
  - exact E.
  - rewrite E. apply lines_of_text_lines.
  - rewrite E. apply lines_of_text_concat.
Qed.

End Streaming.

Lemma LineDecoder_chunks_same_lines_witness :
  let chunks := [js "one" ++ [13%N]; [10%N; 10%N] ++ js "tw"; js "o"; [13%N] ++ js "three"] in
  LineDecoder.lines_of_stream LineDecoder.bytewise_write tt chunks
  = LineDecoder.lines_of_stream LineDecoder.bytewise_write tt [concat chunks]
  /\ LineDecoder.lines_of_stream LineDecoder.bytewise_write tt chunks
     = [js "one"; js "two"; js "three"].
Proof.
  intros chunks.
  destruct (LineDecoder_chunks_same_lines unit LineDecoder.bytewise_write
              (fun sd => eq_refl) (fun sd b1 b2 => eq_refl) tt chunks)
    as (H1 & H2 & _).
  split; [exact H1|]. rewrite H2. vm_compute. reflexivity.
Defined.

(* ================================================================== *)
(** * The diagnostics of a run of the checker *)

Section Diagnostics.
Import LineDecoder LineDecoderFacts.

Variable StringDecoder : Type.
Variable sd_write : StringDecoder -> Buffer -> StringDecoder * jsstring.

Lemma forEach_processLine_app (a b : list jsstring) : forall diagnostics,
  forEach_processLine (a ++ b) diagnostics
  = match forEach_processLine a diagnostics with
    | (diagnostics1, None) => forEach_processLine b diagnostics1
    | (diagnostics1, Some e) => (diagnostics1, Some e)
    end.
Proof.
  induction a as [|l a IH]; intros diagnostics; simpl; [reflexivity|].
  destruct (processLine l diagnostics) as [ds|e]; [apply IH|reflexivity].
Qed.

(** Whether [processLine] raises does not depend on the array. *)
Lemma processLine_raises line diagnostics :
  match processLine line diagnostics with
  | Ok _ => raises line = false
  | Throw e => raises line = true /\ processLine line [] = Throw e
  end.
Proof.
  unfold raises, processLine.
  destruct (exec MatchExpression line) as [res|]; [|reflexivity].
  cbv zeta. destruct (new_Range4 _ _ _ _) as [r|e]; cbn [JS.bind]; [|auto].
  destruct (new_Diagnostic r _) as [d|e]; cbn [JS.bind]; auto.
Qed.

Lemma forEach_processLine_quiet lines : forall diagnostics,
  forallb (fun l => negb (raises l)) lines = true ->
  snd (forEach_processLine lines diagnostics) = None.
Proof.
  induction lines as [|l lines IH]; intros diagnostics H; simpl in *; [reflexivity|].
  apply andb_prop in H as [Hl H].
  pose proof (processLine_raises l diagnostics) as Hr.
  destruct (processLine l diagnostics) as [ds|e]; [apply IH, H|].
  destruct Hr as [Hr _]. rewrite Hr in Hl. discriminate.
Qed.

(** When no callback raises, the chunks are handled as their lines
    taken together. *)
Lemma on_data_quiet chunks : forall (d : LineDecoder.t StringDecoder) diagnostics,
  snd (forEach_processLine (snd (write_all sd_write d chunks)) diagnostics) = None ->
  on_data sd_write d chunks diagnostics
  = (fst (write_all sd_write d chunks),
     fst (forEach_processLine (snd (write_all sd_write d chunks)) diagnostics), []).
Proof.
  induction chunks as [|b chunks IH]; intros d diagnostics H; simpl in *; [reflexivity|].
  destruct (write sd_write d b) as [d1 ls].
  specialize (IH d1).
  destruct (write_all sd_write d1 chunks) as [d2 ls']. simpl in *.
  rewrite forEach_processLine_app in H |- *.
  destruct (forEach_processLine ls diagnostics) as [ds1 [e|]]; [discriminate H|].
  rewrite (IH ds1 H). reflexivity.
Qed.

(** When no complete line of the output makes [processLine] raise, the
    outcome of a run is that of the lines of the stream, taken in
    order. *)
Lemma stdout_diagnostics_quiet (sd : StringDecoder) (chunks : list Buffer) :
  snd (forEach_processLine
         (fst (cut [] (snd (decode_chunks sd_write sd chunks)))) []) = None ->
  stdout_diagnostics sd_write sd chunks
  = outcome (forEach_processLine (lines_of_stream sd_write sd chunks) []).
Proof.
  intros H. unfold stdout_diagnostics, lines_of_stream.
  pose proof (write_all_spec StringDecoder sd_write chunks (new sd) I) as Hw.
  simpl in Hw. rewrite on_data_quiet; rewrite Hw; simpl fst; simpl snd; [|exact H].
  rewrite forEach_processLine_app.
  destruct (forEach_processLine _ []) as [ds e]. simpl in H. subst e.
  unfold on_end, end_, outcome. simpl.
  destruct (snd (cut [] (snd (decode_chunks sd_write sd chunks)))) as [|c r]; simpl;
    [reflexivity|].
  destruct (processLine (c :: r) ds); reflexivity.
Qed.

Hypothesis sd_write_nil : forall sd, sd_write sd [] = (sd, []).
Hypothesis sd_write_app : forall sd b1 b2,
  sd_write sd (b1 ++ b2) =
  (fst (sd_write (fst (sd_write sd b1)) b2),
   snd (sd_write sd b1) ++ snd (sd_write (fst (sd_write sd b1)) b2)).

(** C4.  When the text of the checker's standard output is the line
    [Parse error: bad token in test.lc on line 5], with or without a line
    feed after it and in whatever chunks it arrives, the diagnostics set
    for the document are exactly one diagnostic, with the message
    [bad token] and a range that starts at line 4, column 0. *)
Theorem parse_error_line_diagnostic (sd : StringDecoder) (chunks : list Buffer) :
  snd (sd_write sd (concat chunks)) = js "Parse error: bad token in test.lc on line 5"
  \/ snd (sd_write sd (concat chunks))
     = js "Parse error: bad token in test.lc on line 5" ++ [10%N] ->
  exists d,
    stdout_diagnostics sd_write sd chunks = Ok [d]
    /\ message d = js "bad token"
    /\ r_start (d_range d) = mkPosition 4 0
    /\ r_end (d_range d) = mkPosition 4 MAX_VALUE.
Proof.
  intros H.
  pose proof (decode_chunks_concat StringDecoder sd_write sd_write_nil sd_write_app
                chunks sd) as Hc.
  rewrite stdout_diagnostics_quiet; rewrite ?lines_of_stream_spec, Hc;
    destruct H as [-> | ->]; vm_compute; try reflexivity; eexists; repeat split.
Qed.

End Diagnostics.

Lemma parse_error_line_diagnostic_witness :
  exists d,
    stdout_diagnostics LineDecoder.bytewise_write tt
      [js "Parse error: bad to"; js "ken in test.lc on line 5" ++ [10%N]] = Ok [d]
    /\ message d = js "bad token"
    /\ r_start (d_range d) = mkPosition 4 0
    /\ r_end (d_range d) = mkPosition 4 MAX_VALUE.
Proof.
  apply (parse_error_line_diagnostic unit LineDecoder.bytewise_write
           (fun sd => eq_refl) (fun sd b1 b2 => eq_refl) tt).
  right. reflexivity.
Defined.

(* ================================================================== *)
(** * What the patterns of the scanner match *)

Section PatternFacts.

Lemma matches_lit_chars cs : forall i s c c',
  matches (lit_chars cs) i s c c' <-> s = cs /\ c' = c.
Proof.
  induction cs as [|a cs IH]; intros i s c c'; [simpl; tauto|].
  destruct cs as [|b cs]; [simpl; tauto|].
  change (lit_chars (a :: b :: cs)) with (Seq (Char a) (lit_chars (b :: cs))).
  simpl matches. split.
  - intros (s1 & s2 & c1 & -> & (-> & ->) & H). apply IH in H as [-> ->]. auto.
  - intros [-> ->]. exists [a], (b :: cs), c. repeat split. apply IH. auto.
Qed.

Lemma matches_lit str i s c c' :
  matches (lit str) i s c c' <-> s = js str /\ c' = c.
Proof. apply matches_lit_chars. Qed.

Ltac break_match :=
  repeat match goal with
         | H : exists _, _ |- _ => destruct H
         | H : _ /\ _ |- _ => destruct H
         | H : matches (lit _) _ _ _ _ |- _ => apply matches_lit in H
         end.

(** The first character of a text that is not white space is where
    its leading white space ends, however the text is cut. *)
Lemma first_after_run (p : char -> bool) ws : forall ws' a b x y,
  ws ++ a :: x = ws' ++ b :: y ->
  forallb p ws = true -> forallb p ws' = true ->
  p a = false -> p b = false -> a = b.
Proof.
  induction ws as [|w ws IH]; intros ws' a b x y E H H' Ha Hb.
  - destruct ws' as [|w' ws']; simpl in *; [congruence|].
    inversion E; subst. apply andb_prop in H' as [Hw _]. congruence.
  - destruct ws' as [|w' ws']; simpl in *.
    + inversion E; subst. apply andb_prop in H as [Hw _]. congruence.
    + inversion E; subst. apply andb_prop in H as [_ H].
      apply andb_prop in H' as [_ H']. eapply IH; eassumption.
Qed.

Lemma occurs_re_handler s :
  occurs re_handler s ->
  exists ws rest, s = ws ++ js "handler" ++ rest /\ forallb cls_s ws = true.
Proof.
  intros (pre & mid & post & c & -> & H). unfold re_handler, Plus in H. cbn [matches cat] in H.
  break_match. subst. destruct pre; [|discriminate].
  simpl. rewrite <- ?app_assoc. simpl.
  eexists _, _. split; [reflexivity|assumption].
Qed.

Lemma occurs_re_private_handler s :
  occurs re_private_handler s ->
  exists ws rest, s = ws ++ js "private" ++ rest /\ forallb cls_s ws = true.
Proof.
  intros (pre & mid & post & c & -> & H). unfold re_private_handler, Plus in H. cbn [matches cat] in H.
  break_match. subst. destruct pre; [|discriminate].
  simpl. rewrite <- ?app_assoc. simpl.
  eexists _, _. split; [reflexivity|assumption].
Qed.

Lemma occurs_re_end_handler s :
  occurs re_end_handler s ->
  exists ws rest, s = ws ++ js "end" ++ rest /\ forallb cls_s ws = true.
Proof.
  intros (pre & mid & post & c & -> & H). unfold re_end_handler, Plus in H. cbn [matches cat] in H.
  break_match. subst. destruct pre; [|discriminate].
  simpl. rewrite <- ?app_assoc. simpl.
  eexists _, _. split; [reflexivity|assumption].
Qed.

Lemma occurs_re_end_handler_0 s :
  occurs re_end_handler_0 s -> exists rest, s = js "end" ++ rest.
Proof.
  intros (pre & mid & post & c & -> & H). unfold re_end_handler_0, Plus in H. cbn [matches cat] in H.
  break_match. subst. destruct pre; [|discriminate].
  simpl. rewrite <- ?app_assoc. simpl. eexists. reflexivity.
Qed.

(** A pattern anchored at the start still matches when optional white
    space is allowed before it. *)
Lemma matches_bol_skip (g : bool) (p : char -> bool) (r : regex) i s c c' :
  matches (Seq Bol r) i s c c' -> matches (Seq Bol (Seq (Star g p) r)) i s c c'.
Proof.
  simpl. intros (s1 & s2 & c1 & -> & (-> & Hi & ->) & H).
  exists [], s2, c. repeat split; try assumption.
  exists [], s2, c. repeat split. simpl in *.
  rewrite Nat.add_0_r. assumption.
Qed.

(** The closing pattern that starts with [end] at the first column
    matches nothing that the other closing pattern does not match. *)
Lemma end_handler_0_end_handler s :
  test re_end_handler_0 s = true -> test re_end_handler s = true.
Proof.
  rewrite !test_occurs.
  intros (pre & mid & post & c & -> & H).
  exists pre, mid, post, c. split; [reflexivity|].
  apply (matches_bol_skip true cls_s) in H. exact H.
Qed.

(** A line that opens a handler is no [end handler] line. *)
Lemma opens_not_ends_text s :
  test re_handler s = true \/ test re_private_handler s = true ->
  test re_end_handler s = false.
Proof.
  intros H. destruct (test re_end_handler s) eqn:E; [exfalso|reflexivity].
  apply test_occurs, occurs_re_end_handler in E as (ws' & rest' & E & Hws').
  destruct H as [H|H].
  - apply test_occurs, occurs_re_handler in H as (ws & rest & -> & Hws).
    simpl in E.
    pose proof (first_after_run cls_s ws ws' _ _ _ _ E Hws Hws' eq_refl eq_refl).
    discriminate.
  - apply test_occurs, occurs_re_private_handler in H as (ws & rest & -> & Hws).
    simpl in E.
    pose proof (first_after_run cls_s ws ws' _ _ _ _ E Hws Hws' eq_refl eq_refl).
    discriminate.
Qed.

Lemma opens_not_ends t : opens_handler t = true -> ends_handler t = false.
Proof.
  unfold opens_handler, ends_handler. intros H. apply orb_prop in H.
  pose proof (opens_not_ends_text _ H) as E. rewrite E. simpl.
  destruct (test re_end_handler_0 (lineText_of t)) eqn:E0; [|reflexivity].
  apply end_handler_0_end_handler in E0. congruence.
Qed.

End PatternFacts.

(* ================================================================== *)
(** * The handler scope during the scan *)

Section ScanFacts.

Ltac case_if H :=
  match type of H with
  | context [if ?b then _ else _] => destruct b eqn:?
  end.

(** The loop over the tokens of a declaration leaves the scope flag and
    the kind of the handler symbol alone, and inside a handler it leaves
    the top-level list alone too. *)
Lemma variables_loop_keeps tokens line indices : forall tInQuotes st st',
  variables_loop tokens line indices tInQuotes st = Ok st' ->
  inside_handler st' = inside_handler st
  /\ kind (handler_Symbol st') = kind (handler_Symbol st)
  /\ (inside_handler st = true -> symbols st' = symbols st).
Proof.
  induction indices as [|index1 rest IH]; intros tInQuotes st st' H; simpl in H.
  - inversion H; subst. auto.
  - case_if H; [apply IH in H; exact H|].
    case_if H; [apply IH in H; exact H|].
    case_if H; [inversion H; subst; auto|].
    destruct (new_DocumentSymbol _ _ _ _ _) as [v|e]; simpl in H; [|discriminate].
    unfold inside_blockcomment in H.
    destruct (inside_handler st) eqn:Hin; apply IH in H; simpl in H;
      destruct H as (H1 & H2 & H3);
      repeat split; try assumption; intros; try discriminate; auto.
Qed.

Lemma variables_branch_keeps lineText tokens line st st' :
  variables_branch lineText tokens line st = Ok st' ->
  inside_handler st' = inside_handler st
  /\ kind (handler_Symbol st') = kind (handler_Symbol st)
  /\ (inside_handler st = true -> symbols st' = symbols st).
Proof.
  unfold variables_branch. destruct (test re_variable lineText).
  - apply variables_loop_keeps.
  - intros H; inversion H; subst. auto.
Qed.

Lemma close_handler_kind st line :
  kind (handler_Symbol (close_handler st line)) = kind (handler_Symbol st).
Proof. unfold close_handler. destruct (inside_handler st); reflexivity. Qed.

Lemma new_DocumentSymbol_kind nm dt k r sel d :
  new_DocumentSymbol nm dt k r sel = Ok d -> kind d = k.
Proof.
  unfold new_DocumentSymbol. destruct nm as [n|]; [|discriminate].
  destruct (truthy n); [|discriminate]. destruct (contains r sel); [|discriminate].
  intros H; inversion H; reflexivity.
Qed.

(** The kind that a line opening a handler gives to the handler symbol. *)
Lemma scan_line_kind line st st' :
  scan_line line st = Ok st' ->
  (test re_private_handler (lineText_of (text line)) = true ->
   kind (handler_Symbol st') = symbolkind_private_handler)
  /\ (test re_private_handler (lineText_of (text line)) = false ->
      test re_handler (lineText_of (text line)) = true ->
      kind (handler_Symbol st') = symbolkind_public_handler).
Proof.
  unfold scan_line. set (lineText := lineText_of (text line)).
  set (tokens := tokens_of lineText). intros H.
  destruct (handler_branch lineText tokens line st) as [st1|e] eqn:H1;
    simpl in H; [|discriminate].
  destruct (private_branch lineText tokens line st1) as [st2|e] eqn:H2;
    simpl in H; [|discriminate].
  apply variables_branch_keeps in H as (_ & Hk & _). rewrite Hk. clear Hk.
  unfold private_branch in H2. unfold handler_branch in H1. split.
  - intros Hp. rewrite Hp in H2.
    destruct (new_DocumentSymbol _ _ _ _ _) as [h|e] eqn:Hn in H2; simpl in H2;
      [|discriminate].
    inversion H2; subst. simpl. eapply new_DocumentSymbol_kind; eassumption.
  - intros Hp Hh. rewrite Hp in H2. rewrite Hh in H1.
    destruct (new_DocumentSymbol _ _ _ _ _) as [h|e] eqn:Hn in H1; simpl in H1;
      [|discriminate].
    assert (Hk1 : kind (handler_Symbol st1) = symbolkind_public_handler).
    { inversion H1; subst. simpl. destruct (token_at tokens 1); reflexivity. }
    destruct (test re_end_handler_0 lineText); inversion H2; subst;
      [rewrite close_handler_kind|]; assumption.
Qed.

(** A line that opens a handler opens the scope and adds nothing to the
    top-level list. *)
Lemma scan_line_opens line st st' :
  scan_line line st = Ok st' ->
  opens_handler (text line) = true ->
  inside_handler st' = true /\ symbols st' = symbols st.
Proof.
  unfold scan_line. set (lineText := lineText_of (text line)).
  set (tokens := tokens_of lineText). intros H Ho.
  pose proof (opens_not_ends _ Ho) as He.
  unfold opens_handler in Ho. unfold ends_handler in He.
  fold lineText in Ho, He. apply orb_false_elim in He as [He He0].
  destruct (handler_branch lineText tokens line st) as [st1|e] eqn:H1;
    simpl in H; [|discriminate].
  destruct (private_branch lineText tokens line st1) as [st2|e] eqn:H2;
    simpl in H; [|discriminate].
  apply variables_branch_keeps in H as (Hin & _ & Hs).
  unfold private_branch in H2. unfold handler_branch in H1.
  rewrite He in H1. rewrite He0 in H2.
  assert (Hs2 : inside_handler st2 = true /\ symbols st2 = symbols st).
  { destruct (test re_private_handler lineText) eqn:Hp.
    - destruct (new_DocumentSymbol _ _ _ _ _) as [h|e] eqn:Hn in H2; simpl in H2;
        [|discriminate].
      inversion H2; subst. simpl. split; [reflexivity|].
      destruct (test re_handler lineText).
      + destruct (new_DocumentSymbol _ _ _ _ _) as [h1|e] in H1; simpl in H1;
          [|discriminate].
        inversion H1; reflexivity.
      + inversion H1; reflexivity.
    - rewrite orb_false_r in Ho. rewrite Ho in H1.
      destruct (new_DocumentSymbol _ _ _ _ _) as [h1|e] in H1; simpl in H1;
        [|discriminate].
      inversion H2; subst. inversion H1; subst. simpl. auto. }
  destruct Hs2 as [Hi2 Hsy2]. rewrite Hin, Hs by assumption. auto.
Qed.

(** Inside a handler, a line that is no [end handler] line keeps the
    scope open and adds nothing to the top-level list. *)
Lemma scan_line_inside line st st' :
  scan_line line st = Ok st' ->
  ends_handler (text line) = false ->
  inside_handler st = true ->
  inside_handler st' = true /\ symbols st' = symbols st.
Proof.
  unfold scan_line. set (lineText := lineText_of (text line)).
  set (tokens := tokens_of lineText). intros H He Hi.
  unfold ends_handler in He. fold lineText in He.
  apply orb_false_elim in He as [He He0].
  destruct (handler_branch lineText tokens line st) as [st1|e] eqn:H1;
    simpl in H; [|discriminate].
  destruct (private_branch lineText tokens line st1) as [st2|e] eqn:H2;
    simpl in H; [|discriminate].
  apply variables_branch_keeps in H as (Hin & _ & Hs).
  unfold private_branch in H2. unfold handler_branch in H1.
  rewrite He in H1. rewrite He0 in H2.
  assert (Hs1 : inside_handler st1 = true /\ symbols st1 = symbols st).
  { destruct (test re_handler lineText).
    - destruct (new_DocumentSymbol _ _ _ _ _) as [h1|e] in H1; simpl in H1;
        [|discriminate].
      inversion H1; subst. simpl. auto.
    - inversion H1; subst. auto. }
  destruct Hs1 as [Hi1 Hsy1].
  assert (Hs2 : inside_handler st2 = true /\ symbols st2 = symbols st1).
  { destruct (test re_private_handler lineText).
    - destruct (new_DocumentSymbol _ _ _ _ _) as [h|e] in H2; simpl in H2;
        [|discriminate].
      inversion H2; subst. simpl. auto.
    - inversion H2; subst. auto. }
  destruct Hs2 as [Hi2 Hsy2]. rewrite Hin, Hs by assumption.
  split; congruence.
Qed.

Lemma lineAt_text document i line :
  lineAt document i = Ok line -> nth_error document i = Some (text line).
Proof.
  unfold lineAt. destruct (nth_error document i); [|discriminate].
  intros H; inversion H; reflexivity.
Qed.

(** From inside a handler, lines without [end handler] add nothing to
    the top-level list. *)
Lemma scan_from_inside document n : forall i st st',
  (forall j u, i <= j -> nth_error document j = Some u -> ends_handler u = false) ->
  inside_handler st = true ->
  scan_from document i n st = Ok st' ->
  symbols st' = symbols st.
Proof.
  induction n as [|n IH]; intros i st st' Hno Hi H; simpl in H.
  - inversion H; reflexivity.
  - destruct (lineAt document i) as [line|e] eqn:Hl; simpl in H; [|discriminate].
    destruct (scan_line line st) as [st1|e] eqn:H1; simpl in H; [|discriminate].
    apply lineAt_text in Hl.
    destruct (scan_line_inside _ _ _ H1 (Hno _ _ (le_n i) Hl) Hi) as [Hi1 Hs1].
    rewrite <- Hs1. apply (IH (S i)); try assumption.
    intros j u Hj. apply Hno. lia.
Qed.

(** The loop over the lines, cut in two. *)
Lemma scan_from_add document n : forall k i st,
  scan_from document i (n + k) st
  = JS.bind (scan_from document i n st) (scan_from document (i + n) k).
Proof.
  induction n as [|n IH]; intros k i st; simpl.
  - rewrite Nat.add_0_r. reflexivity.
  - destruct (lineAt document i) as [line|e]; simpl; [|reflexivity].
    destruct (scan_line line st) as [st1|e]; simpl; [|reflexivity].
    rewrite IH. replace (S i + n) with (i + S n) by lia. reflexivity.
Qed.

Lemma provideDocumentSymbols_scan_prefix document :
  provideDocumentSymbols document
  = JS.bind (scan_prefix document (lineCount document)) (fun st => Ok (symbols st)).
Proof.
  unfold provideDocumentSymbols, scan_prefix.
  destruct (lineAt document 1) as [line|e]; cbn [JS.bind]; [|reflexivity].
  destruct (new_DocumentSymbol _ _ _ _ _) as [h|e]; cbn [JS.bind]; reflexivity.
Qed.

(** The loop over the tokens of a declaration only adds symbols of kind
    [Variable] to the top-level list, and leaves the range of the handler
    symbol alone. *)
Lemma variables_loop_adds tokens line indices : forall tInQuotes st st',
  variables_loop tokens line indices tInQuotes st = Ok st' ->
  range (handler_Symbol st') = range (handler_Symbol st)
  /\ exists vs, symbols st' = symbols st ++ vs
                /\ Forall (fun v => kind v = symbolkind_variable) vs.
Proof.
  induction indices as [|index1 rest IH]; intros tInQuotes st st' H; simpl in H.
  - inversion H; subst. split; [reflexivity|]. exists []. rewrite app_nil_r. auto.
  - case_if H; [apply IH in H; exact H|].
    case_if H; [apply IH in H; exact H|].
    case_if H; [inversion H; subst; split; [reflexivity|];
                exists []; rewrite app_nil_r; auto|].
    destruct (new_DocumentSymbol _ _ _ _ _) as [v|e] eqn:Hv; simpl in H; [|discriminate].
    apply new_DocumentSymbol_kind in Hv. unfold inside_blockcomment in H.
    destruct (inside_handler st) eqn:Hin; apply IH in H; simpl in H;
      destruct H as (Hr & vs & Hs & Hvs).
    + split; [assumption|]. exists vs. auto.
    + split; [assumption|]. eexists (_ :: vs). rewrite Hs, <- app_assoc.
      split; [reflexivity|]. constructor; assumption.
Qed.

Lemma variables_branch_adds lineText tokens line st st' :
  variables_branch lineText tokens line st = Ok st' ->
  range (handler_Symbol st') = range (handler_Symbol st)
  /\ exists vs, symbols st' = symbols st ++ vs
                /\ Forall (fun v => kind v = symbolkind_variable) vs.
Proof.
  unfold variables_branch. destruct (test re_variable lineText).
  - apply variables_loop_adds.
  - intros H; inversion H; subst. split; [reflexivity|].
    exists []. rewrite app_nil_r. auto.
Qed.

Lemma new_DocumentSymbol_range nm dt k r sel d :
  new_DocumentSymbol nm dt k r sel = Ok d -> range d = r.
Proof.
  unfold new_DocumentSymbol. destruct nm as [n|]; [|discriminate].
  destruct (truthy n); [|discriminate]. destruct (contains r sel); [|discriminate].
  intros H; inversion H; reflexivity.
Qed.

(** The handler symbol that a line opening a handler leaves in place has
    the range of that line. *)
Lemma scan_line_opens_range line st st' :
  scan_line line st = Ok st' ->
  opens_handler (text line) = true ->
  range (handler_Symbol st') = tl_range line.
Proof.
  unfold scan_line. set (lineText := lineText_of (text line)).
  set (tokens := tokens_of lineText). intros H Ho.
  pose proof (opens_not_ends _ Ho) as He.
  unfold opens_handler in Ho. unfold ends_handler in He.
  fold lineText in Ho, He. apply orb_false_elim in He as [He He0].
  destruct (handler_branch lineText tokens line st) as [st1|e] eqn:H1;
    simpl in H; [|discriminate].
  destruct (private_branch lineText tokens line st1) as [st2|e] eqn:H2;
    simpl in H; [|discriminate].
  apply variables_branch_adds in H as (Hr & _). rewrite Hr.
  unfold private_branch in H2. unfold handler_branch in H1.
  rewrite He in H1. rewrite He0 in H2.
  destruct (test re_private_handler lineText) eqn:Hp.
  - destruct (new_DocumentSymbol _ _ _ _ _) as [h|e] eqn:Hn in H2; simpl in H2;
      [|discriminate].
    inversion H2; subst. simpl. eapply new_DocumentSymbol_range; eassumption.
  - rewrite orb_false_r in Ho. rewrite Ho in H1.
    destruct (new_DocumentSymbol _ _ _ _ _) as [h1|e] in H1; simpl in H1;
      [|discriminate].
    inversion H2; subst. inversion H1; subst. simpl. reflexivity.
Qed.

(** An [end handler] line closes the scope: if it was open, the handler
    symbol is appended with its range extended to the end of the line;
    after it come only symbols of kind [Variable]. *)
Lemma scan_line_ends line st st' :
  scan_line line st = Ok st' ->
  ends_handler (text line) = true ->
  inside_handler st' = false
  /\ exists vs,
       Forall (fun v => kind v = symbolkind_variable) vs
       /\ symbols st'
          = symbols (close_handler st line) ++ vs.
Proof.
  unfold scan_line. set (lineText := lineText_of (text line)).
  set (tokens := tokens_of lineText). intros H He.
  assert (Hno : opens_handler (text line) = false).
  { destruct (opens_handler (text line)) eqn:Ho; [|reflexivity].
    apply opens_not_ends in Ho. congruence. }
  unfold opens_handler in Hno. unfold ends_handler in He.
  fold lineText in Hno, He. apply orb_false_elim in Hno as [Hh Hp].
  assert (He1 : test re_end_handler lineText = true).
  { apply orb_prop in He as [He|He]; [assumption|].
    apply end_handler_0_end_handler; assumption. }
  destruct (handler_branch lineText tokens line st) as [st1|e] eqn:H1;
    simpl in H; [|discriminate].
  destruct (private_branch lineText tokens line st1) as [st2|e] eqn:H2;
    simpl in H; [|discriminate].
  unfold private_branch in H2. unfold handler_branch in H1.
  rewrite Hh, He1 in H1. rewrite Hp in H2. inversion H1; subst st1. clear H1.
  assert (Hc : inside_handler (close_handler st line) = false)
    by (unfold close_handler; destruct (inside_handler st) eqn:E; simpl; auto).
  assert (E2 : st2 = close_handler st line).
  { destruct (test re_end_handler_0 lineText); inversion H2; [|reflexivity].
    unfold close_handler at 1. rewrite Hc. reflexivity. }
  subst st2.
  pose proof (variables_branch_keeps _ _ _ _ _ H) as (Hin & _ & _).
  apply variables_branch_adds in H as (_ & vs & Hs & Hvs).
  split; [congruence|]. exists vs. auto.
Qed.

(** Any other line leaves the scope as it is and adds only symbols of
    kind [Variable] to the top-level list. *)
Lemma scan_line_other line st st' :
  scan_line line st = Ok st' ->
  opens_handler (text line) = false ->
  ends_handler (text line) = false ->
  inside_handler st' = inside_handler st
  /\ range (handler_Symbol st') = range (handler_Symbol st)
  /\ exists vs,
       Forall (fun v => kind v = symbolkind_variable) vs
       /\ symbols st' = symbols st ++ vs.
Proof.
  unfold scan_line. set (lineText := lineText_of (text line)).
  set (tokens := tokens_of lineText). intros H Ho He.
  unfold opens_handler in Ho. unfold ends_handler in He.
  fold lineText in Ho, He.
  apply orb_false_elim in Ho as [Hh Hp]. apply orb_false_elim in He as [He He0].
  destruct (handler_branch lineText tokens line st) as [st1|e] eqn:H1;
    simpl in H; [|discriminate].
  destruct (private_branch lineText tokens line st1) as [st2|e] eqn:H2;
    simpl in H; [|discriminate].
  unfold private_branch in H2. unfold handler_branch in H1.
  rewrite Hh, He in H1. rewrite Hp, He0 in H2.
  inversion H1; subst st1. inversion H2; subst st2.
  pose proof (variables_branch_keeps _ _ _ _ _ H) as (Hin & _ & _).
  apply variables_branch_adds in H as (Hr & vs & Hs & Hvs).
  repeat split; try assumption. exists vs. auto.
Qed.

Lemma lineAt_range document i line :
  lineAt document i = Ok line ->
  tl_range line = line_range (Z.of_nat i) (Z.of_nat (length (text line))).
Proof.
  unfold lineAt. destruct (nth_error document i); [|discriminate].
  intros H; inversion H; reflexivity.
Qed.

Lemma in_app_variables (s : DocumentSymbol) l vs :
  Forall (fun v => kind v = symbolkind_variable) vs ->
  In s (l ++ vs) -> kind s = SymbolKind.Method -> In s l.
Proof.
  intros Hvs Hin Hk. apply in_app_or in Hin as [?|Hin]; [assumption|].
  rewrite Forall_forall in Hvs. apply Hvs in Hin.
  rewrite Hk in Hin. discriminate.
Qed.

(** One more line keeps [scan_inv]. *)
Lemma scan_line_inv document n line st st' :
  scan_inv document n st ->
  lineAt document n = Ok line ->
  scan_line line st = Ok st' ->
  scan_inv document (S n) st'.
Proof.
  intros [Ha Hb] Hl H.
  pose proof (lineAt_range _ _ _ Hl) as Hrg. apply lineAt_text in Hl.
  destruct (opens_handler (text line)) eqn:Ho;
    [|destruct (ends_handler (text line)) eqn:He].
  - destruct (scan_line_opens _ _ _ H Ho) as [Hin Hs].
    pose proof (scan_line_opens_range _ _ _ H Ho) as Hr.
    split.
    + rewrite Hs. exact Ha.
    + intros _. exists n, (text line). repeat split; try assumption; try lia.
      rewrite Hr. exact Hrg.
  - destruct (scan_line_ends _ _ _ H He) as (Hin & vs & Hvs & Hs).
    split; [|rewrite Hin; discriminate].
    intros s Hs' Hk. rewrite Hs in Hs'.
    apply (in_app_variables _ _ _ Hvs) in Hs'; [|assumption].
    unfold close_handler in Hs'. destruct (inside_handler st) eqn:Hi;
      [|apply Ha; assumption].
    simpl in Hs'. apply in_app_or in Hs' as [Hs'|[<-|[]]]; [apply Ha; assumption|].
    destruct (Hb eq_refl) as (i & ti & Hlt & Hti & Hoi & Hri & Hgap).
    exists i, n, ti, (text line). repeat split; try assumption.
    + simpl. rewrite Hri, Hrg. unfold line_range, new_Range, isBefore. simpl.
      replace (Z.of_nat i <? Z.of_nat n)%Z with true
        by (symmetry; apply Z.ltb_lt; lia).
      reflexivity.
    + apply (Hgap k u); assumption.
    + apply (Hgap k u); assumption.
  - destruct (scan_line_other _ _ _ H Ho He) as (Hin & Hr & vs & Hvs & Hs).
    split.
    + intros s Hs' Hk. rewrite Hs in Hs'.
      apply (in_app_variables _ _ _ Hvs) in Hs'; [|assumption]. apply Ha; assumption.
    + rewrite Hin. intros Hi.
      destruct (Hb Hi) as (i & ti & Hlt & Hti & Hoi & Hri & Hgap).
      exists i, ti. repeat split; try assumption; try lia; try congruence.
      * destruct (Nat.eq_dec k n) as [->|Hne].
        -- rewrite Hl in H1. inversion H1; subst u. assumption.
        -- apply (Hgap k u); [lia|assumption].
      * destruct (Nat.eq_dec k n) as [->|Hne].
        -- rewrite Hl in H1. inversion H1; subst u. assumption.
        -- apply (Hgap k u); [lia|assumption].
Qed.

Lemma scan_from_inv document n : forall i st st',
  scan_inv document i st ->
  scan_from document i n st = Ok st' ->
  scan_inv document (i + n) st'.
Proof.
  induction n as [|n IH]; intros i st st' Hinv H; simpl in H.
  - inversion H; subst. rewrite Nat.add_0_r. assumption.
  - destruct (lineAt document i) as [line|e] eqn:Hl; simpl in H; [|discriminate].
    destruct (scan_line line st) as [st1|e] eqn:H1; simpl in H; [|discriminate].
    replace (i + S n) with (S i + n) by lia.
    eapply IH; [|eassumption]. eapply scan_line_inv; eassumption.
Qed.

(** Every symbol of kind [Method] that the scan resolves with spans a
    closed handler. *)
Lemma provideDocumentSymbols_spans document syms :
  provideDocumentSymbols document = Ok syms ->
  forall s, In s syms -> kind s = SymbolKind.Method -> handler_span document s.
Proof.
  unfold provideDocumentSymbols. intros H.
  destruct (lineAt document 1) as [line1|e]; cbn [JS.bind] in H; [|discriminate].
  destruct (new_DocumentSymbol _ _ _ _ _) as [h0|e]; cbn [JS.bind] in H; [|discriminate].
  destruct (scan_from document 0 _ _) as [st|e] eqn:Hs; cbn [JS.bind] in H;
    [|discriminate].
  inversion H; subst syms.
  apply scan_from_inv in Hs; [exact (proj1 Hs)|].
  split; [intros s []|discriminate].
Qed.

End ScanFacts.

(* ================================================================== *)
(** * The outline of some documents *)

(** C7.  The document [handler foo], [variable x], [end handler] (with or
    without a line feed after the last line) has one top-level symbol:
    the handler [foo], whose range goes from the start of the opening
    line to the end of the closing line, with one child, the variable
    [x]. *)
Theorem handler_with_variable_outline :
  let foo :=
    mkDocumentSymbol (js "foo") None symbolkind_public_handler
      (mkRange (mkPosition 0 0) (mkPosition 2 11))
      (mkRange (mkPosition 0 0) (mkPosition 2 11))
      [mkDocumentSymbol (js "x") (Some (js "variable")) symbolkind_variable
         (line_range 1 10) (line_range 1 10) []] in
  provideDocumentSymbols
    (document_of (js "handler foo" ++ LF ++ js "variable x" ++ LF ++ js "end handler"))
  = Ok [foo]
  /\ provideDocumentSymbols
       (document_of (js "handler foo" ++ LF ++ js "variable x" ++ LF
                     ++ js "end handler" ++ LF))
     = Ok [foo].
Proof. split; vm_compute; reflexivity. Qed.

(** C1.  What the scan makes of [variable a, b, c]: the tokens are cut at
    white space only, so the commas stay with the names.  The document
    that ends with a line feed has three top-level variables named [a,],
    [b,] and [c]; the document of that one line alone is rejected before
    the first line is read. *)
Theorem variable_list_names_keep_commas :
  (exists syms,
     provideDocumentSymbols (document_of (js "variable a, b, c" ++ LF)) = Ok syms
     /\ map name syms = [js "a,"; js "b,"; js "c"]
     /\ map kind syms = [symbolkind_variable; symbolkind_variable; symbolkind_variable]
     /\ map children syms = [[]; []; []])
  /\ provideDocumentSymbols (document_of (js "variable a, b, c"))
     = Throw "Illegal value for `line`".
Proof. split; [eexists; split; [vm_compute; reflexivity|]|]; vm_compute; auto. Qed.

(** C2.  Every document of one line is rejected: [document.lineAt(1)],
    which only serves to give the placeholder symbols a range, raises
    before the loop.  The empty document is such a document. *)
Theorem one_line_document_rejected :
  (forall t : jsstring,
     provideDocumentSymbols [t] = Throw "Illegal value for `line`")
  /\ provideDocumentSymbols (document_of []) = Throw "Illegal value for `line`".
Proof. split; [intros t|]; reflexivity. Qed.

(** C5.  A line [handler ] with nothing after the keyword matches the
    handler pattern and has one token; [tokens[1]] is [undefined], the
    symbol constructor refuses it, and the scan of the document ends
    there, whatever was found before. *)
Theorem handler_without_name_throws :
  (forall (st : ScanState) (rg : Range),
     scan_line (mkTextLine (js "handler ") rg) st = Throw "name must not be falsy")
  /\ provideDocumentSymbols
       (document_of (js "variable g" ++ LF ++ js "handler " ++ LF ++ js "end handler"))
     = Throw "name must not be falsy".
Proof. split; [intros st rg|]; vm_compute; reflexivity. Qed.

(** C6, as the claim states it: the two scans do not give two symbols of
    different kinds. *)
Lemma handler_kinds_not_distinct :
  ~ (exists p h,
       provideDocumentSymbols
         (document_of (js "private handler bar" ++ LF ++ js "end handler")) = Ok [p]
       /\ provideDocumentSymbols
            (document_of (js "handler foo" ++ LF ++ js "end handler")) = Ok [h]
       /\ kind p <> kind h).
Proof.
  intros (p & h & Hp & Hh & Hne). vm_compute in Hp, Hh.
  inversion Hp; inversion Hh; subst. apply Hne. reflexivity.
Qed.

(** C6, amended.  A line that opens a handler gives the handler symbol
    the kind [symbolkind_private_handler] when the private pattern
    matches it and [symbolkind_public_handler] otherwise; the two are
    the same kind, [SymbolKind.Method], and the scans of
    [private handler bar], [end handler] and of [handler foo],
    [end handler] each give one symbol, [bar] and [foo], of that kind. *)
Theorem handler_kind_by_prefix (line : TextLine) (st st' : ScanState) :
  scan_line line st = Ok st' ->
  (test re_private_handler (lineText_of (text line)) = true ->
   kind (handler_Symbol st') = symbolkind_private_handler)
  /\ (test re_private_handler (lineText_of (text line)) = false ->
      test re_handler (lineText_of (text line)) = true ->
      kind (handler_Symbol st') = symbolkind_public_handler)
  /\ symbolkind_private_handler = SymbolKind.Method
  /\ symbolkind_public_handler = SymbolKind.Method
  /\ (exists p h,
        provideDocumentSymbols
          (document_of (js "private handler bar" ++ LF ++ js "end handler")) = Ok [p]
        /\ provideDocumentSymbols
             (document_of (js "handler foo" ++ LF ++ js "end handler")) = Ok [h]
        /\ name p = js "bar" /\ name h = js "foo"
        /\ kind p = SymbolKind.Method /\ kind h = SymbolKind.Method).
Proof.
  intros H. destruct (scan_line_kind _ _ _ H) as [Hp Hh].
  repeat split; try assumption.
  eexists _, _. split; [vm_compute; reflexivity|].
  split; [vm_compute; reflexivity|]. repeat split.
Qed.

Lemma handler_kind_by_prefix_witness :
  let line := mkTextLine (js "private handler bar") (line_range 0 19) in
  let st := mkScanState []
              (mkDocumentSymbol (js "start") (Some (js "start")) SymbolKind.Method
                 (line_range 1 11) (line_range 1 11) []) false in
  exists st',
    scan_line line st = Ok st'
    /\ kind (handler_Symbol st') = symbolkind_private_handler.
Proof.
  intros line st. eexists. split; [vm_compute; reflexivity|].
  eapply (handler_kind_by_prefix line st); vm_compute; reflexivity.
Defined.

(** C10.  A handler symbol is in the outline only when its handler was
    closed: every symbol of kind [Method] that the scan resolves with
    goes from a line that opens a handler to an [end handler] line after
    it, with no line between the two that opens or ends a handler.  And
    when a line opens a handler and no line after it is an [end handler]
    line, the symbols that the scan resolves with are the top-level
    symbols as they were before that line was read: neither the handler
    nor anything found from that line on, such as the variables attached
    to the handler, is among them. *)
Theorem handler_symbol_only_when_closed
        (document : TextDocument) (syms : list DocumentSymbol) :
  provideDocumentSymbols document = Ok syms ->
  (forall s, In s syms -> kind s = SymbolKind.Method -> handler_span document s)
  /\ (forall i t,
        nth_error document i = Some t ->
        opens_handler t = true ->
        (forall j u, i < j -> nth_error document j = Some u -> ends_handler u = false) ->
        exists st, scan_prefix document i = Ok st /\ syms = symbols st).
Proof.
  intros H. split; [exact (provideDocumentSymbols_spans document syms H)|].
  intros i t Hi Ho Hno. rewrite provideDocumentSymbols_scan_prefix in H.
  assert (Hlen : i < length document) by (apply nth_error_Some; congruence).
  unfold lineCount in H.
  replace (length document) with (i + S (length document - i - 1)) in H by lia.
  set (k := length document - i - 1) in H. clearbody k.
  unfold scan_prefix in *.
  destruct (lineAt document 1) as [line1|e]; cbn [JS.bind] in *; [|discriminate].
  destruct (new_DocumentSymbol _ _ _ _ _) as [h0|e]; cbn [JS.bind] in *; [|discriminate].
  rewrite scan_from_add in H.
  destruct (scan_from document 0 i _) as [st|e]; cbn [JS.bind] in H; [|discriminate].
  exists st. split; [reflexivity|].
  simpl in H.
  destruct (lineAt document i) as [line|e] eqn:Hl; cbn [JS.bind] in H; [|discriminate].
  destruct (scan_line line st) as [st1|e] eqn:H1; cbn [JS.bind] in H; [|discriminate].
  destruct (scan_from document (S i) k st1) as [st2|e] eqn:H2; cbn [JS.bind] in H;
    [|discriminate].
  inversion H; subst syms.
  apply lineAt_text in Hl. rewrite Hi in Hl. inversion Hl; subst t.
  destruct (scan_line_opens _ _ _ H1 Ho) as [Hin Hs].
  rewrite <- Hs. eapply scan_from_inside; [|exact Hin|exact H2].
  intros j u Hj. apply Hno. lia.
Qed.

Lemma handler_symbol_only_when_closed_witness :
  let document :=
    document_of (js "handler a" ++ LF ++ js "end handler" ++ LF
                 ++ js "handler foo" ++ LF ++ js "variable x") in
  exists syms st,
    provideDocumentSymbols document = Ok syms
    /\ map name syms = [js "a"]
    /\ (forall s, In s syms -> kind s = SymbolKind.Method -> handler_span document s)
    /\ scan_prefix document 2 = Ok st /\ syms = symbols st.
Proof.
  intros document.
  pose (syms := match provideDocumentSymbols document with
                | Ok l => l
                | Throw _ => []
                end).
  assert (E : provideDocumentSymbols document = Ok syms) by (vm_compute; reflexivity).
  destruct (handler_symbol_only_when_closed document syms E) as [Hspan Hopen].
  destruct (Hopen 2 (js "handler foo")) as (st & Hst & Hs).
  - reflexivity.
  - vm_compute. reflexivity.
  - intros j u Hj Hu.
    destruct j as [|[|[|[|j]]]]; try lia.
    + vm_compute in Hu. inversion Hu; subst u. vm_compute. reflexivity.
    + vm_compute in Hu. destruct j; discriminate.
  - exists syms, st. repeat split; try assumption.
Defined.

(* ================================================================== *)
(** * The lines of the checker that become diagnostics *)

Section ProcessLineFacts.

(** What [MatchExpression] matches, and what its groups hold then. *)
Lemma MatchExpression_matches i mid c :
  matches MatchExpression i mid [] c <->
  exists msg file digits,
    diagnostic_shape mid msg file digits
    /\ c = [(3, digits); (2, file); (1, msg)].
Proof.
  unfold MatchExpression, diagnostic_shape, Plus. cbn [matches cat]. split.
  - intros (s1 & s2 & c1 & -> & (k & e & c0 & -> & Hk & He) & s3 & s4 & c2 & ->
            & Hc & s5 & s6 & c3 & -> & (c4 & (Hm & ->) & ->) & s7 & s8 & c5 & ->
            & Hin & s9 & s10 & c6 & -> & (c7 & (Hf & ->) & ->) & s11 & s12 & c8
            & -> & Hon & c9 & (d1 & d2 & c10 & -> & ((x & -> & Hx) & ->) & Hd & ->)
            & ->).
    apply matches_lit in He as [-> ->], Hc as [-> ->], Hin as [-> ->], Hon as [-> ->].
    exists s5, s9, ([x] ++ d2). split.
    + split; [|repeat split; try assumption; [discriminate|simpl; rewrite Hx; assumption]].
      destruct Hk as [Hk|Hk]; apply matches_lit in Hk as [-> ->];
        [left|right]; reflexivity.
    + destruct Hk as [Hk|Hk]; apply matches_lit in Hk as [-> ->]; reflexivity.
  - intros (msg & file & digits & (E & Hm & Hf & Hne & Hd) & ->).
    destruct digits as [|x d2]; [contradiction|].
    simpl in Hd. apply andb_prop in Hd as [Hx Hd].
    assert (exists kw, (kw = "Parse"%string \/ kw = "Fatal"%string)
                       /\ mid = (js kw ++ js " error") ++ js ": " ++ msg ++ js " in "
                                ++ file ++ js " on line " ++ [x] ++ d2)
      as (kw & Hkw & ->) by (destruct E as [-> | ->]; eexists; eauto).
    exists (js kw ++ js " error"), (js ": " ++ msg ++ js " in " ++ file ++ js " on line "
                                    ++ [x] ++ d2), [].
    split; [reflexivity|]. split.
    { exists (js kw), (js " error"), []. split; [reflexivity|].
      split; [|apply matches_lit; auto].
      destruct Hkw as [-> | ->]; [left|right]; apply matches_lit; auto. }
    exists (js ": "), (msg ++ js " in " ++ file ++ js " on line " ++ [x] ++ d2), [].
    split; [reflexivity|]. split; [apply matches_lit; auto|].
    exists msg, (js " in " ++ file ++ js " on line " ++ [x] ++ d2), (set_group 1 msg []).
    split; [reflexivity|]. split; [exists []; auto|].
    exists (js " in "), (file ++ js " on line " ++ [x] ++ d2), (set_group 1 msg []).
    split; [reflexivity|]. split; [apply matches_lit; auto|].
    exists file, (js " on line " ++ [x] ++ d2), (set_group 2 file (set_group 1 msg [])).
    split; [reflexivity|]. split; [eexists; auto|].
    exists (js " on line "), ([x] ++ d2), (set_group 2 file (set_group 1 msg [])).
    split; [reflexivity|]. split; [apply matches_lit; auto|].
    eexists. split; [|reflexivity].
    exists [x], d2, (set_group 2 file (set_group 1 msg [])).
    repeat split; eauto.
Qed.

Lemma has_diagnostic_occurs line : has_diagnostic line <-> occurs MatchExpression line.
Proof.
  unfold has_diagnostic, occurs. split.
  - intros (pre & mid & post & msg & file & digits & -> & H).
    exists pre, mid, post, [(3, digits); (2, file); (1, msg)]. split; [reflexivity|].
    apply MatchExpression_matches. eauto.
  - intros (pre & mid & post & c & -> & H).
    apply MatchExpression_matches in H as (msg & file & digits & H & _).
    eauto 10.
Qed.

(** The matcher tries the longest repetition first. *)
Lemma star_greedy_longest p (k : cont) s : forall i c res,
  star_greedy p k i s c = Some res ->
  exists s1 s2,
    s = s1 ++ s2 /\ forallb p s1 = true /\ k (i + length s1) s2 c = Some res
    /\ forall t1 t2, s = t1 ++ t2 -> forallb p t1 = true ->
                     length s1 < length t1 -> k (i + length t1) t2 c = None.
Proof.
  induction s as [|x s IH]; intros i c res H; simpl in H.
  - exists [], []. simpl. rewrite Nat.add_0_r. repeat split; auto.
    intros t1 t2 E _ Hl. destruct t1; [simpl in Hl; lia|discriminate E].
  - destruct (p x) eqn:Hp.
    + destruct (star_greedy p k (S i) s c) as [r0|] eqn:Hg.
      * inversion H; subst r0.
        destruct (IH _ _ _ Hg) as (s1 & s2 & -> & Hall & Hk & Hmax).
        exists (x :: s1), s2. simpl. rewrite Hp, Hall.
        replace (i + S (length s1)) with (S i + length s1) by lia.
        repeat split; auto.
        intros t1 t2 E Ht Hl. destruct t1 as [|y t1]; [simpl in Hl; lia|].
        simpl in E. inversion E; subst y. simpl in Ht, Hl.
        apply andb_prop in Ht as [_ Ht].
        replace (i + length (x :: t1)) with (S i + length t1) by (simpl; lia).
        apply Hmax; auto. lia.
      * exists [], (x :: s). simpl. rewrite Nat.add_0_r. repeat split; auto.
        intros t1 t2 E Ht Hl. destruct t1 as [|y t1]; [simpl in Hl; lia|].
        simpl in E. inversion E; subst y s. simpl in Ht.
        apply andb_prop in Ht as [_ Ht].
        destruct (k (i + length (x :: t1)) t2 c) eqn:Hk; [exfalso|reflexivity].
        apply (star_greedy_complete p k t1 t2 (S i) c Ht); [|exact Hg].
        replace (S i + length t1) with (i + length (x :: t1)) by (simpl; lia).
        rewrite Hk. discriminate.
    + exists [], (x :: s). simpl. rewrite Nat.add_0_r. repeat split; auto.
      intros t1 t2 E Ht Hl. destruct t1 as [|y t1]; [simpl in Hl; lia|].
      simpl in E. inversion E; subst y. simpl in Ht. rewrite Hp in Ht. discriminate.
Qed.

(** The matcher tries the shortest repetition first. *)
Lemma star_lazy_shortest p (k : cont) s : forall i c res,
  star_lazy p k i s c = Some res ->
  exists s1 s2,
    s = s1 ++ s2 /\ forallb p s1 = true /\ k (i + length s1) s2 c = Some res
    /\ forall t1 t2, s = t1 ++ t2 -> length t1 < length s1 ->
                     k (i + length t1) t2 c = None.
Proof.
  induction s as [|x s IH]; intros i c res H; simpl in H.
  - destruct (k i [] c) eqn:Hk; [|destruct (k i [] c); discriminate].
    exists [], []. simpl. rewrite Nat.add_0_r, Hk. repeat split; auto.
    intros t1 t2 _ Hl. simpl in Hl. lia.
  - destruct (k i (x :: s) c) eqn:Hk.
    + exists [], (x :: s). simpl. rewrite Nat.add_0_r, Hk. repeat split; auto.
      intros t1 t2 _ Hl. simpl in Hl. lia.
    + destruct (p x) eqn:Hp; [|discriminate].
      destruct (IH _ _ _ H) as (s1 & s2 & -> & Hall & Hk' & Hmin).
      exists (x :: s1), s2. simpl. rewrite Hp, Hall.
      replace (i + S (length s1)) with (S i + length s1) by lia.
      repeat split; auto.
      intros t1 t2 E Hl. destruct t1 as [|y t1].
      * simpl in E. subst t2. simpl. rewrite Nat.add_0_r. exact Hk.
      * simpl in E. inversion E; subst y. simpl in Hl.
        replace (i + length (x :: t1)) with (S i + length t1) by (simpl; lia).
        apply Hmin; auto. lia.
Qed.

(** The search stops at the first position where the pattern matches. *)
Lemma search_first r s : forall i res,
  search r i s = Some res ->
  exists pre rest,
    s = pre ++ rest /\ match_at r (i + length pre) rest = Some res
    /\ forall t1 t2, s = t1 ++ t2 -> length t1 < length pre ->
                     match_at r (i + length t1) t2 = None.
Proof.
  induction s as [|x s IH]; intros i res H; simpl in H.
  - destruct (match_at r i []) as [r0|] eqn:Hm; [|discriminate].
    exists [], []. simpl. rewrite Nat.add_0_r, Hm. repeat split; auto.
    intros t1 t2 _ Hl. simpl in Hl. lia.
  - destruct (match_at r i (x :: s)) as [r0|] eqn:Hm.
    + exists [], (x :: s). simpl. rewrite Nat.add_0_r, Hm. repeat split; auto.
      intros t1 t2 _ Hl. simpl in Hl. lia.
    + destruct (IH _ _ H) as (pre & rest & -> & Hk & Hmin).
      exists (x :: pre), rest. simpl.
      replace (i + S (length pre)) with (S i + length pre) by lia.
      repeat split; auto.
      intros t1 t2 E Hl. destruct t1 as [|y t1].
      * simpl in E. subst t2. simpl. rewrite Nat.add_0_r. exact Hm.
      * simpl in E. inversion E; subst y. simpl in Hl.
        replace (i + length (x :: t1)) with (S i + length t1) by (simpl; lia).
        apply Hmin; auto. lia.
Qed.

Lemma app_same_length (A : Type) (a : list A) : forall a' b b',
  a ++ b = a' ++ b' -> length a = length a' -> a = a' /\ b = b'.
Proof.
  induction a as [|x a IH]; intros [|y a'] b b' E Hl; simpl in *;
    try discriminate; auto.
  inversion E; subst y. destruct (IH a' b b') as [-> ->]; auto.
Qed.

(** The end of the pattern, from [ on line ] on, and from [ in ] on. *)
Lemma matches_on_line digits i c :
  digits <> [] -> forallb cls_d digits = true ->
  matches (cat [lit " on line "; Group 3 (Plus true cls_d)]) i
          (js " on line " ++ digits) c (set_group 3 digits c).
Proof.
  intros Hne Hd. destruct digits as [|x d2]; [contradiction|].
  simpl in Hd. apply andb_prop in Hd as [Hx Hd].
  unfold Plus. cbn [matches cat].
  exists (js " on line "), (x :: d2), c.
  split; [reflexivity|]. split; [apply matches_lit; auto|].
  eexists. split; [|reflexivity].
  exists [x], d2, c. repeat split; eauto.
Qed.

Lemma matches_in file digits i c :
  forallb cls_dot file = true -> digits <> [] -> forallb cls_d digits = true ->
  matches (cat [lit " in "; Group 2 (Star false cls_dot); lit " on line ";
                Group 3 (Plus true cls_d)]) i
          (js " in " ++ file ++ js " on line " ++ digits) c
          (set_group 3 digits (set_group 2 file c)).
Proof.
  intros Hf Hne Hd.
  change (cat [lit " in "; Group 2 (Star false cls_dot); lit " on line ";
               Group 3 (Plus true cls_d)])
    with (Seq (lit " in ")
              (Seq (Group 2 (Star false cls_dot))
                   (cat [lit " on line "; Group 3 (Plus true cls_d)]))).
  cbn [matches].
  exists (js " in "), (file ++ js " on line " ++ digits), c.
  split; [reflexivity|]. split; [apply matches_lit; auto|].
  exists file, (js " on line " ++ digits), (set_group 2 file c).
  split; [reflexivity|]. split; [eexists; eauto|].
  apply matches_on_line; assumption.
Qed.

(** Where the matcher finds the pattern at a given position, and what
    it has tried before. *)
Lemma m_MatchExpression_first i s e c :
  m MatchExpression accept i s [] = Some (e, c) ->
  exists kw msg file digits post,
    (kw = js "Parse error: " \/ kw = js "Fatal error: ")
    /\ s = kw ++ msg ++ js " in " ++ file ++ js " on line " ++ digits ++ post
    /\ forallb cls_dot msg = true /\ forallb cls_dot file = true
    /\ digits <> [] /\ forallb cls_d digits = true
    /\ c = [(3, digits); (2, file); (1, msg)]
    /\ forall msg' file' digits' post',
         msg ++ js " in " ++ file ++ js " on line " ++ digits ++ post
         = msg' ++ js " in " ++ file' ++ js " on line " ++ digits' ++ post' ->
         forallb cls_dot msg' = true -> forallb cls_dot file' = true ->
         digits' <> [] -> forallb cls_d digits' = true ->
         length msg' <= length msg
         /\ (length msg' = length msg ->
             length file <= length file'
             /\ (length file' = length file -> length digits' <= length digits)).
Proof.
  intros H.
  pose (T2 := cat [lit " on line "; Group 3 (Plus true cls_d)]).
  pose (T1 := cat [lit " in "; Group 2 (Star false cls_dot); lit " on line ";
                   Group 3 (Plus true cls_d)]).
  change (m (Seq (Alt (lit "Parse") (lit "Fatal")) (lit " error"))
            (m (lit ": ")
               (fun j s3 c2 =>
                  star_greedy cls_dot
                    (fun i' s' c' => m T1 accept i' s'
                                       (set_group 1 (firstn (i' - j) s3) c'))
                    j s3 c2))
            i s [] = Some (e, c)) in H.
  apply m_sound in H as (a & s2 & c1 & -> & MA & H).
  apply m_sound in H as (b & s3 & c2 & -> & MB & H).
  apply matches_lit in MB as [-> ->].
  assert (Hkw : (a ++ js ": " = js "Parse error: " \/ a ++ js ": " = js "Fatal error: ")
                /\ c1 = []).
  { cbn [matches] in MA. destruct MA as (a1 & a2 & c0 & -> & [M1|M1] & M2);
      apply matches_lit in M1 as [-> ->]; apply matches_lit in M2 as [-> ->];
      split; auto. }
  destruct Hkw as [Hkw ->]. clear MA.
  set (j := i + length a + length (js ": ")) in *.
  apply star_greedy_longest in H as (msg & t & -> & Hmsg & H & Hmax).
  rewrite firstn_len_app in H.
  change (m (lit " in ")
            (fun j2 t2 c3 =>
               star_lazy cls_dot
                 (fun i' s' c' => m T2 accept i' s'
                                    (set_group 2 (firstn (i' - j2) t2) c'))
                 j2 t2 c3)
            (j + length msg) t (set_group 1 msg []) = Some (e, c)) in H.
  apply m_sound in H as (b & t2 & c3 & -> & MB & H).
  apply matches_lit in MB as [-> ->].
  set (j2 := j + length msg + length (js " in ")) in *.
  apply star_lazy_shortest in H as (file & t3 & -> & Hfile & H & Hmin).
  rewrite firstn_len_app in H.
  change (m (lit " on line ")
            (fun j4 t4 c4 =>
               m (Class cls_d)
                 (star_greedy cls_d
                    (fun i' s' c' => accept i' s'
                                       (set_group 3 (firstn (i' - j4) t4) c')))
                 j4 t4 c4)
            (j2 + length file) t3 (set_group 2 file (set_group 1 msg []))
          = Some (e, c)) in H.
  apply m_sound in H as (b & t4 & c4 & -> & MB & H).
  apply matches_lit in MB as [-> ->].
  set (j4 := j2 + length file + length (js " on line ")) in *.
  cbn [m] in H. destruct t4 as [|x t5]; [discriminate H|].
  destruct (cls_d x) eqn:Hx; [|discriminate H].
  apply star_greedy_longest in H as (d2 & post & -> & Hd2 & H & Hmax3).
  unfold accept in H.
  replace (S j4 + length d2) with (j4 + length (x :: d2)) in H by (simpl; lia).
  change (x :: d2 ++ post) with ((x :: d2) ++ post) in H.
  rewrite firstn_len_app in H. injection H as He Hc. subst e c.
  exists (a ++ js ": "), msg, file, (x :: d2), post.
  split; [exact Hkw|]. split.
  { rewrite <- !app_assoc. reflexivity. }
  split; [exact Hmsg|]. split; [exact Hfile|]. split; [discriminate|].
  split; [simpl; rewrite Hx; exact Hd2|]. split; [reflexivity|].
  intros msg' file' digits' post' E Hmsg' Hfile' Hne' Hd'.
  assert (Hlen : length msg' <= length msg).
  { destruct (le_lt_dec (length msg') (length msg)) as [Hle|Hlt]; [exact Hle|exfalso].
    specialize (Hmax msg' _ E Hmsg' Hlt).
    pose proof (m_complete T1 accept (j + length msg')
                  (js " in " ++ file' ++ js " on line " ++ digits') post'
                  (set_group 1 (firstn (j + length msg' - j)
                                  (msg ++ js " in " ++ file ++ js " on line "
                                       ++ (x :: d2) ++ post)) [])
                  _ (matches_in file' digits' _ _ Hfile' Hne' Hd')) as Hc.
    rewrite <- !app_assoc in Hc. apply Hc; [|exact Hmax].
    unfold accept. discriminate. }
  split; [exact Hlen|]. intros Elen.
  apply app_same_length in E as [<- E]; [|symmetry; exact Elen].
  apply app_inv_head in E.
  assert (Hlen2 : length file <= length file').
  { destruct (le_lt_dec (length file) (length file')) as [Hle|Hlt]; [exact Hle|exfalso].
    specialize (Hmin file' _ E Hlt).
    pose proof (m_complete T2 accept (j2 + length file')
                  (js " on line " ++ digits') post'
                  (set_group 2 (firstn (j2 + length file' - j2)
                                  (file ++ js " on line " ++ (x :: d2) ++ post))
                     (set_group 1 msg []))
                  _ (matches_on_line digits' _ _ Hne' Hd')) as Hc.
    rewrite <- !app_assoc in Hc. apply Hc; [|exact Hmin].
    unfold accept. discriminate. }
  split; [exact Hlen2|]. intros Elen2.
  apply app_same_length in E as [<- E]; [|symmetry; exact Elen2].
  apply app_inv_head in E.
  destruct digits' as [|x' d2']; [contradiction|].
  simpl in E. inversion E as [[Ex E']]. subst x'.
  simpl in Hd'. apply andb_prop in Hd' as [_ Hd'].
  simpl. destruct (le_lt_dec (length d2') (length d2)) as [Hle|Hlt]; [lia|exfalso].
  specialize (Hmax3 d2' post' E' Hd' Hlt). discriminate Hmax3.
Qed.

(** What [String.match] finds in a line: the first place of the shape,
    and the message and digits there in groups 1 and 3. *)
Lemma exec_first_shape line res :
  exec MatchExpression line = Some res ->
  exists pre msg file digits post,
    first_shape line pre msg file digits post
    /\ matches_at res 1 = msg /\ matches_at res 3 = digits
    /\ forallb cls_dot msg = true /\ forallb cls_d digits = true.
Proof.
  unfold exec. intros H.
  apply search_first in H as (pre & rest & -> & H & Hfirst). simpl in H, Hfirst.
  unfold match_at in H.
  destruct (m MatchExpression accept (length pre) rest []) as [[e c]|] eqn:Hm;
    [|discriminate H].
  inversion H; subst res; clear H.
  apply m_MatchExpression_first in Hm
    as (kw & msg & file & digits & post & Hkw & -> & Hmsg & Hfile & Hne & Hd & -> & Hpri).
  exists pre, msg, file, digits, post.
  split; [|repeat split; assumption].
  split.
  { exists (kw ++ msg ++ js " in " ++ file ++ js " on line " ++ digits).
    split; [rewrite <- !app_assoc; reflexivity|].
    split; [destruct Hkw as [-> | ->]; [left|right]; reflexivity|].
    repeat split; assumption. }
  intros pre' msg' file' digits' post' (mid' & E & Hs).
  assert (Hm' : matches MatchExpression (length pre') mid' []
                  [(3, digits'); (2, file'); (1, msg')])
    by (apply MatchExpression_matches; eauto).
  destruct Hs as (Hmid & Hmsg' & Hfile' & Hne' & Hd').
  assert (Hlen : length pre <= length pre').
  { destruct (le_lt_dec (length pre) (length pre')) as [Hle|Hlt]; [exact Hle|exfalso].
    apply (match_at_complete _ _ _ post' _ Hm'). apply (Hfirst pre' _ E Hlt). }
  split; [exact Hlen|]. intros Elen.
  apply app_same_length in E as [<- E]; [|symmetry; exact Elen].
  assert (E' : msg ++ js " in " ++ file ++ js " on line " ++ digits ++ post
               = msg' ++ js " in " ++ file' ++ js " on line " ++ digits' ++ post').
  { destruct Hkw as [-> | ->]; destruct Hmid as [-> | ->];
      repeat (rewrite <- app_assoc in E || (progress simpl in E));
      inversion E as [E2]; exact E2. }
  apply (Hpri _ _ _ _ E' Hmsg' Hfile' Hne' Hd').
Qed.

(** There is one first place only. *)
Lemma first_shape_unique line pre msg file digits post pre' msg' file' digits' post' :
  first_shape line pre msg file digits post ->
  first_shape line pre' msg' file' digits' post' ->
  msg = msg' /\ digits = digits'.
Proof.
  intros [Hs Hp] [Hs' Hp'].
  destruct (Hp _ _ _ _ _ Hs') as [H1 H2]. destruct (Hp' _ _ _ _ _ Hs) as [H1' H2'].
  assert (E1 : length pre' = length pre) by lia.
  destruct (H2 E1) as [H3 H4]. destruct (H2' (eq_sym E1)) as [H3' H4'].
  assert (E2 : length msg' = length msg) by lia.
  destruct (H4 E2) as [H5 H6]. destruct (H4' (eq_sym E2)) as [H5' H6'].
  assert (E3 : length file' = length file) by lia.
  pose proof (H6 E3) as H7. pose proof (H6' (eq_sym E3)) as H7'.
  assert (E4 : length digits' = length digits) by lia.
  destruct Hs as (mid & E & Hmid & _). destruct Hs' as (mid' & E' & Hmid' & _).
  rewrite E in E'. apply app_same_length in E' as [<- E']; [|symmetry; exact E1].
  assert (E'' : msg ++ js " in " ++ file ++ js " on line " ++ digits ++ post
                = msg' ++ js " in " ++ file' ++ js " on line " ++ digits' ++ post').
  { destruct Hmid as [-> | ->]; destruct Hmid' as [-> | ->];
      repeat (rewrite <- app_assoc in E' || (progress simpl in E'));
      inversion E' as [Einv]; exact Einv. }
  apply app_same_length in E'' as [<- E'']; [|symmetry; exact E2].
  apply app_inv_head in E''.
  apply app_same_length in E'' as [<- E'']; [|symmetry; exact E3].
  apply app_inv_head in E''.
  apply app_same_length in E'' as [<- _]; [|symmetry; exact E4].
  split; reflexivity.
Qed.

(** [processLine] on a line in which the shape occurs: the diagnostic
    made of the message and the digits at the first place is pushed. *)
Lemma processLine_first line diagnostics pre msg file digits post :
  first_shape line pre msg file digits post ->
  processLine line diagnostics
  = JS.bind (diagnostic_for msg digits) (fun d => Ok (diagnostics ++ [d])).
Proof.
  intros Hf. unfold processLine.
  destruct (exec MatchExpression line) as [res|] eqn:He.
  - destruct (exec_first_shape _ _ He)
      as (pre' & msg' & file' & digits' & post' & Hf' & -> & -> & _).
    destruct (first_shape_unique _ _ _ _ _ _ _ _ _ _ _ Hf Hf') as [<- <-].
    unfold diagnostic_for. cbv zeta.
    destruct (new_Range4 _ _ _ _) as [r|e]; cbn [JS.bind]; [|reflexivity].
    destruct (new_Diagnostic r _); reflexivity.
  - exfalso. destruct Hf as [(mid & E & Hs) _].
    assert (Hhas : has_diagnostic line) by (red; eauto 10).
    apply has_diagnostic_occurs, test_occurs in Hhas.
    unfold test in Hhas. rewrite He in Hhas. discriminate.
Qed.

Lemma processLine_none line diagnostics :
  ~ has_diagnostic line -> processLine line diagnostics = Ok diagnostics.
Proof.
  intros Hn. unfold processLine.
  destruct (exec MatchExpression line) as [res|] eqn:He; [exfalso|reflexivity].
  apply Hn, has_diagnostic_occurs, test_occurs. unfold test. rewrite He. reflexivity.
Qed.

(** Numbers. *)
Lemma round_pos_small z : (0 < z < 2 ^ 53)%Z -> round_pos z = z.
Proof.
  intros H. unfold round_pos.
  assert (Z.log2 z < 53)%Z by (apply Z.log2_lt_pow2; lia).
  destruct (Z.ltb_spec (Z.log2 z) 53); [reflexivity|lia].
Qed.

Lemma round_pos_pos z : (1 <= z)%Z -> (1 <= round_pos z)%Z.
Proof.
  intros H. unfold round_pos.
  destruct (Z.ltb_spec (Z.log2 z) 53) as [_|He]; [exact H|].
  set (u := (2 ^ (Z.log2 z - 52))%Z).
  assert (Hu : (0 < u)%Z) by (apply Z.pow_pos_nonneg; lia).
  assert (Hle : (u <= z)%Z).
  { destruct (Z.log2_spec z) as [Hl _]; [lia|].
    apply Z.le_trans with (2 ^ Z.log2 z)%Z; [|exact Hl].
    apply Z.pow_le_mono_r; lia. }
  assert (Hq : (1 <= z / u)%Z) by (apply Z.div_le_lower_bound; lia).
  set (q := (z / u)%Z) in *.
  apply Z.min_glb.
  - assert (Hq' : (1 <= if (2 * (z mod u) <? u)%Z then q
                        else if (u <? 2 * (z mod u))%Z then q + 1
                             else if Z.even q then q else q + 1)%Z)
      by (destruct (2 * (z mod u) <? u)%Z, (u <? 2 * (z mod u))%Z, (Z.even q); lia).
    nia.
  - unfold Infinity. assert (0 < 2 ^ 1024)%Z by (apply Z.pow_pos_nonneg; lia). lia.
Qed.

Lemma to_number_small z : (0 <= z < 2 ^ 53)%Z -> to_number z = z.
Proof.
  intros H. unfold to_number.
  destruct (Z.ltb_spec z 0); [lia|].
  destruct (Z.eqb_spec z 0); [congruence|].
  apply round_pos_small. lia.
Qed.

Lemma to_number_pos z : (1 <= z)%Z -> (1 <= to_number z)%Z.
Proof.
  intros H. unfold to_number.
  destruct (Z.ltb_spec z 0); [lia|].
  destruct (Z.eqb_spec z 0); [lia|].
  apply round_pos_pos. exact H.
Qed.

Lemma to_number_nonneg z : (0 <= z)%Z -> (0 <= to_number z)%Z.
Proof.
  intros H. destruct (Z.eq_dec z 0) as [->|Hz]; [reflexivity|].
  pose proof (to_number_pos z). lia.
Qed.

Lemma decimal_digits digits : forall acc,
  forallb cls_d digits = true -> (0 <= acc)%Z ->
  (acc <= fold_left (fun a c => 10 * a + (Z.of_N c - 48)) digits acc)%Z.
Proof.
  induction digits as [|x d IH]; intros acc H Hacc; cbn [fold_left]; [lia|].
  cbn [forallb] in H. apply andb_prop in H as [Hx Hd].
  unfold cls_d, between in Hx. apply andb_prop in Hx as [H1 H2].
  apply N.leb_le in H1, H2.
  specialize (IH (10 * acc + (Z.of_N x - 48))%Z Hd). lia.
Qed.

Lemma decimal_nonneg digits : forallb cls_d digits = true -> (0 <= decimal digits)%Z.
Proof. intros H. apply (decimal_digits digits 0%Z H (Z.le_refl 0)). Qed.

(** The line of the diagnostic is not negative, unless the number
    written is 0. *)
Lemma minus_one_parseInt digits :
  forallb cls_d digits = true ->
  if (decimal digits =? 0)%Z then minus_one (parseInt digits) = (-1)%Z
  else (0 <= minus_one (parseInt digits))%Z.
Proof.
  intros H. pose proof (decimal_nonneg digits H) as Hn. unfold parseInt, minus_one.
  destruct (Z.eqb_spec (decimal digits) 0) as [E|E].
  - rewrite E. reflexivity.
  - pose proof (to_number_pos (decimal digits)). apply to_number_nonneg. lia.
Qed.

(** Up to [2 ^ 53] the line of the diagnostic is the number written
    less one. *)
Lemma minus_one_parseInt_exact digits :
  forallb cls_d digits = true ->
  (decimal digits <= 2 ^ 53)%Z ->
  minus_one (parseInt digits) = (decimal digits - 1)%Z.
Proof.
  intros H Hle. pose proof (decimal_nonneg digits H) as Hn. unfold parseInt, minus_one.
  destruct (Z.eq_dec (decimal digits) (2 ^ 53)) as [E|E].
  - rewrite E. vm_compute. reflexivity.
  - rewrite (to_number_small (decimal digits)) by lia.
    destruct (Z.eq_dec (decimal digits) 0) as [E0|E0]; [rewrite E0; reflexivity|].
    apply to_number_small. lia.
Qed.

(** The diagnostic of a message and a line number: the range refuses
    the number 0 and the diagnostic an empty message; otherwise it is on
    the line before that number, from column 0 to [Number.MAX_VALUE]. *)
Lemma diagnostic_for_spec msg digits :
  forallb cls_d digits = true ->
  diagnostic_for msg digits
  = if (decimal digits =? 0)%Z
    then Throw "Illegal argument: line must be non-negative"
    else if truthy msg
         then Ok (mkDiagnostic (line_range (minus_one (parseInt digits)) MAX_VALUE) msg)
         else Throw "message must be set".
Proof.
  intros H. pose proof (minus_one_parseInt digits H) as Hn.
  unfold diagnostic_for, new_Range4, new_Position. cbv zeta.
  destruct (decimal digits =? 0)%Z.
  - rewrite Hn. reflexivity.
  - replace (minus_one (parseInt digits) <? 0)%Z with false
      by (symmetry; apply Z.ltb_ge; exact Hn).
    cbn [JS.bind]. replace (0 <? 0)%Z with false by reflexivity.
    replace (MAX_VALUE <? 0)%Z with false by reflexivity.
    cbn [JS.bind]. unfold new_Range, isBefore. cbn [p_line p_character].
    rewrite Z.ltb_irrefl, Z.eqb_refl.
    replace (0 <? MAX_VALUE)%Z with true by reflexivity.
    cbn [orb andb]. unfold new_Diagnostic, line_range.
    destruct (truthy msg); reflexivity.
Qed.

(** The lines on which [processLine] raises: those in which the shape
    occurs and whose first place writes the number 0 or has an empty
    message. *)
Lemma raises_first_shape line pre msg file digits post :
  first_shape line pre msg file digits post ->
  raises line = ((decimal digits =? 0)%Z || negb (truthy msg))%bool.
Proof.
  intros Hf. unfold raises.
  assert (Hd : forallb cls_d digits = true)
    by (destruct Hf as [(mid & _ & _ & _ & _ & _ & Hd) _]; exact Hd).
  rewrite (processLine_first _ _ _ _ _ _ _ Hf), (diagnostic_for_spec msg digits Hd).
  destruct (decimal digits =? 0)%Z; [reflexivity|].
  destruct (truthy msg); reflexivity.
Qed.

Lemma raises_none line : ~ has_diagnostic line -> raises line = false.
Proof.
  intros Hn. unfold raises. rewrite (processLine_none _ _ Hn). reflexivity.
Qed.

End ProcessLineFacts.

(** C8, as the claim states it: a line with text before the shape is not
    a line of the exact shape, and yet it is not dropped. *)
Lemma leading_text_line_not_dropped :
  ~ (forall line,
       ~ is_diagnostic_line line -> processLine line [] = Ok []).
Proof.
  intros H.
  specialize (H (js "note: Parse error: bad token in test.lc on line 5")).
  assert (Hn : ~ is_diagnostic_line
                 (js "note: Parse error: bad token in test.lc on line 5")).
  { intros (msg & file & digits & [E|E] & _); simpl in E; discriminate. }
  specialize (H Hn). vm_compute in H. discriminate.
Qed.

(** C8, amended.  A line of the checker is dropped, nothing being
    appended and nothing raised, exactly when the shape occurs nowhere in
    it.  A line in which the shape occurs, with or without text before
    and after it (the pattern has no anchor), is handled at the first
    place of the shape: the earliest in the line, with the longest
    message there, the shortest file name for this message, and all the
    digits that follow.  When the number N that the digits write is 0
    the range raises; otherwise, when the message is empty the
    diagnostic raises; otherwise exactly one diagnostic is appended,
    with that message, on the line that double arithmetic gives for
    N - 1, which is N - 1 up to two to the power 53.  So a line yields a
    diagnostic only if the shape occurs in it. *)
Theorem diagnostic_iff_shape_occurs (line : jsstring) (diagnostics : list Diagnostic) :
  (~ has_diagnostic line <-> processLine line diagnostics = Ok diagnostics)
  /\ (has_diagnostic line ->
      exists pre msg file digits post, first_shape line pre msg file digits post)
  /\ (forall pre msg file digits post,
        first_shape line pre msg file digits post ->
        processLine line diagnostics
        = (if (decimal digits =? 0)%Z
           then Throw "Illegal argument: line must be non-negative"
           else if truthy msg
                then Ok (diagnostics
                         ++ [mkDiagnostic
                               (line_range (minus_one (parseInt digits)) MAX_VALUE) msg])
                else Throw "message must be set")
        /\ ((decimal digits <= 2 ^ 53)%Z ->
            minus_one (parseInt digits) = (decimal digits - 1)%Z))
  /\ (forall d, processLine line diagnostics = Ok (diagnostics ++ [d]) ->
                has_diagnostic line).
Proof.
  assert (Hdec : has_diagnostic line \/ ~ has_diagnostic line).
  { destruct (test MatchExpression line) eqn:T.
    - left. apply has_diagnostic_occurs, test_occurs. exact T.
    - right. intros Hhas. apply has_diagnostic_occurs, test_occurs in Hhas.
      congruence. }
  assert (Hex : has_diagnostic line ->
                exists pre msg file digits post,
                  first_shape line pre msg file digits post).
  { intros Hhas. apply has_diagnostic_occurs, test_occurs in Hhas.
    unfold test in Hhas.
    destruct (exec MatchExpression line) as [res|] eqn:He; [|discriminate].
    destruct (exec_first_shape _ _ He)
      as (pre & msg & file & digits & post & Hf & _).
    eauto 6. }
  assert (Hout : forall pre msg file digits post,
             first_shape line pre msg file digits post ->
             forallb cls_d digits = true
             /\ processLine line diagnostics
                = if (decimal digits =? 0)%Z
                  then Throw "Illegal argument: line must be non-negative"
                  else if truthy msg
                       then Ok (diagnostics
                                ++ [mkDiagnostic
                                      (line_range (minus_one (parseInt digits)) MAX_VALUE)
                                      msg])
                       else Throw "message must be set").
  { intros pre msg file digits post Hf.
    assert (Hd : forallb cls_d digits = true)
      by (destruct Hf as [(mid & _ & _ & _ & _ & _ & Hd) _]; exact Hd).
    split; [exact Hd|].
    rewrite (processLine_first _ _ _ _ _ _ _ Hf), (diagnostic_for_spec msg digits Hd).
    destruct (decimal digits =? 0)%Z; [reflexivity|].
    destruct (truthy msg); reflexivity. }
  assert (Hnot : has_diagnostic line -> processLine line diagnostics <> Ok diagnostics).
  { intros Hhas. destruct (Hex Hhas) as (pre & msg & file & digits & post & Hf).
    destruct (Hout _ _ _ _ _ Hf) as [_ ->].
    destruct (decimal digits =? 0)%Z; [discriminate|].
    destruct (truthy msg); [|discriminate].
    intros E. inversion E as [E']. apply (f_equal (@length _)) in E'.
    rewrite length_app in E'. simpl in E'. lia. }
  split; [|split; [exact Hex|split]].
  - split; [apply processLine_none|]. intros E Hhas. exact (Hnot Hhas E).
  - intros pre msg file digits post Hf. destruct (Hout _ _ _ _ _ Hf) as [Hd Hp].
    split; [exact Hp|]. apply minus_one_parseInt_exact. exact Hd.
  - intros d E. destruct Hdec as [Hhas|Hn]; [assumption|].
    rewrite (processLine_none _ _ Hn) in E. inversion E as [E'].
    apply (f_equal (@length _)) in E'.
    rewrite length_app in E'. simpl in E'. lia.
Qed.

(** The three outcomes on lines in which the shape occurs, and the
    rounding of a line number above two to the power 53. *)
Example processLine_outcomes :
  processLine (js "Parse error:  in f.lc on line 3") [] = Throw "message must be set"
  /\ processLine (js "Parse error: x in f.lc on line 0") []
     = Throw "Illegal argument: line must be non-negative"
  /\ processLine (js "Parse error: a in b in f.lc on line 12 on line 345") []
     = Ok [mkDiagnostic (line_range 11 MAX_VALUE) (js "a in b")]
  /\ processLine (js "Fatal error: x in f.lc on line 9007199254740993") []
     = Ok [mkDiagnostic (line_range 9007199254740991 MAX_VALUE) (js "x")].
Proof. vm_compute. repeat split. Qed.

(* ================================================================== *)
(** * The pause of the validation provider *)

Lemma streq_eq (a b : jsstring) : streq a b = true <-> a = b.
Proof. unfold streq. destruct (list_eq_dec N.eq_dec a b); split; congruence. Qed.

Lemma strict_eq_eq (a b : option jsstring) : strict_eq a b = true <-> a = b.
Proof.
  destruct a as [x|], b as [y|]; simpl; try (split; congruence).
  rewrite streq_eq. split; congruence.
Qed.

(** C9, as the claim states it: a provider that paused because no
    executable was found is still paused after a reload of settings that
    still name no executable, and a trigger does not run then; the same
    holds after a spawn error when the reload names the same
    executable. *)
Lemma reload_keeps_pause :
  let no_exe := mkConfig None None onSave in
  let exe := mkConfig (Some (js "/usr/bin/livecode")) (Some true) onSave in
  let lc := js "livecodescript" in
  let key := js "file:///test.lc" in
  let absolute := fun _ : jsstring => true in
  let p1 := fst (fst (doValidate LineDecoder.bytewise_write tt absolute NoPid
                        (loadConfiguration true no_exe new_Provider))) in
  let p2 := fst (fst (doValidate LineDecoder.bytewise_write tt absolute SpawnError
                        (loadConfiguration true exe new_Provider))) in
  (pauseValidation p1 = true
   /\ pauseValidation (loadConfiguration true no_exe p1) = true
   /\ snd (triggerValidate lc true key (loadConfiguration true no_exe p1)) = false)
  /\ (pauseValidation p2 = true
      /\ pauseValidation (loadConfiguration true exe p2) = true
      /\ snd (triggerValidate lc true key (loadConfiguration true exe p2)) = false).
Proof. vm_compute. repeat split. Qed.

(** C9, amended.  A reload of the settings clears the pause exactly when
    the executable it finds differs from the one of the configuration
    in use; with the same executable the provider stays paused.  After
    the reload a trigger hands the document to validation exactly when
    the pause was cleared, validation is enabled, the document is a
    livecodescript document and the workspace is trusted. *)
Theorem reload_clears_pause_iff_executable_changed
        (enable : bool) (cfg : ILivecodescriptConfig) (p : Provider) :
  pauseValidation p = true ->
  (pauseValidation (loadConfiguration enable cfg p) = false
   <-> config_executable p <> executable cfg)
  /\ (pauseValidation (loadConfiguration enable cfg p) = true
      <-> config_executable p = executable cfg)
  /\ forall languageId isTrusted key,
       snd (triggerValidate languageId isTrusted key (loadConfiguration enable cfg p))
       = true
       <-> (languageId = js "livecodescript" /\ config_executable p <> executable cfg
            /\ enable = true /\ isTrusted = true).
Proof.
  intros Hp.
  assert (E : pauseValidation (loadConfiguration enable cfg p)
              = strict_eq (config_executable p) (executable cfg))
    by (unfold loadConfiguration; simpl; rewrite Hp; reflexivity).
  assert (Hfalse : strict_eq (config_executable p) (executable cfg) = false
                   <-> config_executable p <> executable cfg).
  { rewrite <- strict_eq_eq.
    destruct (strict_eq (config_executable p) (executable cfg)); split; congruence. }
  split; [rewrite E; exact Hfalse|].
  split; [rewrite E; apply strict_eq_eq|].
  intros languageId isTrusted key. unfold triggerValidate. rewrite E.
  change (validationEnabled (loadConfiguration enable cfg p)) with enable.
  rewrite <- Hfalse, <- (streq_eq languageId).
  destruct (streq languageId (js "livecodescript")),
    (strict_eq (config_executable p) (executable cfg)), enable, isTrusted;
    simpl; split; intros H; try discriminate; try tauto;
    destruct H as (? & ? & ? & ?); discriminate.
Qed.

Lemma reload_clears_pause_iff_executable_changed_witness :
  let p := mkProvider true true (Some (mkConfig None None onSave)) [] in
  let cfg := mkConfig (Some (js "/usr/bin/livecode")) (Some true) onSave in
  pauseValidation (loadConfiguration true cfg p) = false
  /\ snd (triggerValidate (js "livecodescript") true (js "file:///test.lc")
            (loadConfiguration true cfg p)) = true.
Proof.
  intros p cfg.
  destruct (reload_clears_pause_iff_executable_changed true cfg p eq_refl)
    as (H1 & _ & H3).
  split.
  - apply H1. vm_compute. discriminate.
  - apply H3. repeat split. vm_compute. discriminate.
Defined.

(* ================================================================== *)
(** * The tokens of a line *)

Section TokenizerFacts.

Lemma match_at_group_class (p : char -> bool) i s :
  match_at (Group 1 (Class p)) i s
  = match s with
    | x :: _ =>
        if p x then Some (MatchResult i (S i) [(0, [x]); (1, [x])]) else None
    | [] => None
    end.
Proof.
  unfold match_at. cbn [m]. destruct s as [|x s]; [reflexivity|].
  destruct (p x); [|reflexivity]. unfold accept, set_group.
  replace (S i - i) with 1 by lia. reflexivity.
Qed.

Lemma search_class_none (p : char -> bool) s : forall i,
  forallb (fun c => negb (p c)) s = true ->
  search (Group 1 (Class p)) i s = None.
Proof.
  induction s as [|x s IH]; intros i H.
  - reflexivity.
  - simpl in H. apply andb_prop in H as [Hx Hs]. apply negb_true_iff in Hx.
    cbn [search]. rewrite match_at_group_class, Hx. apply IH. assumption.
Qed.

Lemma search_class_some (p : char -> bool) pre : forall i x post,
  forallb (fun c => negb (p c)) pre = true ->
  p x = true ->
  search (Group 1 (Class p)) i (pre ++ x :: post)
  = Some (MatchResult (i + length pre) (S (i + length pre)) [(0, [x]); (1, [x])]).
Proof.
  induction pre as [|y pre IH]; intros i x post H Hx.
  - simpl app. cbn [search]. rewrite match_at_group_class, Hx.
    simpl. rewrite Nat.add_0_r. reflexivity.
  - simpl in H. apply andb_prop in H as [Hy Hs]. apply negb_true_iff in Hy.
    simpl app. cbn [search]. rewrite match_at_group_class, Hy.
    rewrite IH by assumption. simpl.
    replace (i + S (length pre)) with (S (i + length pre)) by lia. reflexivity.
Qed.

Lemma first_of_class (p : char -> bool) s :
  forallb (fun c => negb (p c)) s = true
  \/ exists pre x post,
       s = pre ++ x :: post /\ forallb (fun c => negb (p c)) pre = true /\ p x = true.
Proof.
  induction s as [|c s IH]; [left; reflexivity|].
  destruct (p c) eqn:Hc.
  - right. exists [], c, s. auto.
  - destruct IH as [H|(pre & x & post & -> & Hpre & Hx)].
    + left. simpl. rewrite Hc. assumption.
    + right. exists (c :: pre), x, post. simpl. rewrite Hc. auto.
Qed.

Lemma spaced_text_plain s :
  forallb (fun c => negb (is_special c)) s = true -> spaced_text s = s.
Proof.
  induction s as [|c s IH]; intros H; [reflexivity|].
  simpl in H. apply andb_prop in H as [Hc Hs]. apply negb_true_iff in Hc.
  unfold spaced_text in *. simpl. rewrite Hc. simpl. rewrite IH by assumption.
  reflexivity.
Qed.

Lemma spaced_text_app a b : spaced_text (a ++ b) = spaced_text a ++ spaced_text b.
Proof. unfold spaced_text. apply flat_map_app. Qed.

(** The replacement of [re] by [" $1 "] puts a space before and after
    every [=] and double quote, and changes nothing else. *)
Lemma lineText_of_spaced_text : forall fuel t i,
  length t < fuel -> replace_loop fuel re spaced i t = spaced_text t.
Proof.
  induction fuel as [|fuel IH]; intros t i Hf; [lia|].
  cbn [replace_loop]. change re with (Group 1 (Class is_special)).
  destruct (first_of_class is_special t) as [H|(pre & x & post & -> & Hpre & Hx)].
  - rewrite search_class_none by assumption. symmetry. apply spaced_text_plain, H.
  - rewrite search_class_some by assumption.
    cbn [m_index m_end m_groups].
    replace (Nat.eqb (S (i + length pre)) (i + length pre)) with false
      by (symmetry; apply Nat.eqb_neq; lia).
    replace (i + length pre - i) with (length pre) by lia.
    replace (S (i + length pre) - i) with (S (length pre)) by lia.
    rewrite firstn_app, firstn_all, Nat.sub_diag. cbn [firstn]. rewrite app_nil_r.
    rewrite skipn_app, (skipn_all2 pre) by lia.
    replace (S (length pre) - length pre) with 1 by lia. cbn [skipn app].
    change (Group 1 (Class is_special)) with re.
    rewrite IH by (rewrite length_app in Hf; simpl in Hf; lia).
    rewrite spaced_text_app, (spaced_text_plain pre Hpre).
    unfold spaced. cbn [group Nat.eqb].
    change (x :: post) with ([x] ++ post). rewrite spaced_text_app.
    unfold spaced_text at 2. cbn [flat_map]. rewrite Hx, app_nil_r.
    rewrite <- !app_assoc. reflexivity.
Qed.

Lemma lineText_of_spec t : lineText_of t = spaced_text t.
Proof. unfold lineText_of, replace_all. apply lineText_of_spaced_text. lia. Qed.

Lemma star_greedy_accept (p : char -> bool) s : forall i c,
  star_greedy p accept i s c = Some (i + run p s, c).
Proof.
  induction s as [|x s IH]; intros i c; simpl.
  - unfold accept. rewrite Nat.add_0_r. reflexivity.
  - destruct (p x).
    + rewrite IH. replace (S i + run p s) with (i + S (run p s)) by lia. reflexivity.
    + unfold accept. rewrite Nat.add_0_r. reflexivity.
Qed.

(** The separator of the split matches at a white space character and
    takes the whole run of white space. *)
Lemma match_at_plus (p : char -> bool) q rest :
  match match_at (Plus true p) q rest with
  | Some res => Some (m_end res)
  | None => None
  end
  = match rest with
    | x :: rest' => if p x then Some (S q + run p rest') else None
    | [] => None
    end.
Proof.
  unfold match_at, Plus. cbn [m]. destruct rest as [|x rest']; [reflexivity|].
  destruct (p x); [|reflexivity]. rewrite star_greedy_accept. reflexivity.
Qed.

Lemma run_le (p : char -> bool) s : run p s <= length s.
Proof. induction s as [|c s IH]; simpl; [lia|]. destruct (p c); lia. Qed.

Lemma run_skipn (p : char -> bool) s : run p (skipn (run p s) s) = 0.
Proof.
  induction s as [|c s IH]; simpl; [reflexivity|].
  destruct (p c) eqn:E; simpl; [assumption|]. rewrite E. reflexivity.
Qed.

Lemma words_skipn s : words [] (skipn (run cls_s s) s) = words [] s.
Proof.
  induction s as [|c s IH]; simpl; [reflexivity|].
  destruct (cls_s c) eqn:E; simpl; [assumption|]. rewrite E. reflexivity.
Qed.

Lemma skipn_len_app (a b : jsstring) : skipn (length a) (a ++ b) = b.
Proof. rewrite skipn_app, skipn_all, Nat.sub_diag. reflexivity. Qed.

Lemma substring_tail (pre cur : jsstring) :
  substring (pre ++ cur) (length pre) (length (pre ++ cur)) = cur.
Proof.
  unfold substring. rewrite skipn_len_app, length_app.
  replace (length pre + length cur - length pre) with (length cur) by lia.
  apply firstn_all.
Qed.

Lemma filter_truthy_one (cur : jsstring) :
  filter truthy [cur] = match rev cur with [] => [] | _ :: _ => [rev (rev cur)] end.
Proof.
  rewrite rev_involutive. destruct cur as [|c cur]; [reflexivity|].
  simpl. destruct (rev cur ++ [c]) eqn:E; [|reflexivity].
  apply (f_equal (@length _)) in E. rewrite length_app in E. simpl in E. lia.
Qed.

(** The pieces of the split that are not empty are the words of the
    text.  [cur] is the piece being read and [rest] what is still to
    read. *)
Lemma split_loop_words : forall fuel pre cur rest,
  length rest <= fuel ->
  filter truthy (split_loop fuel re_split (pre ++ cur ++ rest)
                            (length pre) (length (pre ++ cur)))
  = words (rev cur) rest.
Proof.
  induction fuel as [|fuel IH]; intros pre cur rest Hf.
  - destruct rest; simpl in Hf; [|lia]. cbn [split_loop words].
    rewrite app_nil_r, substring_tail. apply filter_truthy_one.
  - cbn [split_loop]. destruct rest as [|x rest].
    + rewrite app_nil_r, Nat.leb_refl, substring_tail. apply filter_truthy_one.
    + replace (length (pre ++ cur ++ x :: rest) <=? length (pre ++ cur)) with false
        by (symmetry; apply Nat.leb_gt; rewrite !length_app; simpl; lia).
      rewrite (app_assoc pre cur (x :: rest)), skipn_len_app.
      pose proof (match_at_plus cls_s (length (pre ++ cur)) (x :: rest)) as Hm.
      fold re_split in Hm. cbn [words].
      destruct (match_at re_split (length (pre ++ cur)) (x :: rest)) as [res|];
        destruct (cls_s x) eqn:Hx; try discriminate Hm.
      * inversion Hm as [He]. rewrite He.
        match goal with
        | |- context [Nat.eqb ?a ?b] =>
            destruct (Nat.eqb_spec a b) as [E|_]; [rewrite length_app in E; lia|]
        end.
        cbn [filter]. rewrite <- (app_assoc pre cur (x :: rest)), LineDecoderFacts.substring_mid.
        pose proof (run_le cls_s rest) as Hn.
        pose proof (run_skipn cls_s rest) as Hr.
        pose proof (firstn_skipn (run cls_s rest) rest) as Hsplit.
        pose proof (firstn_length_le rest Hn) as Hle.
        rewrite <- (words_skipn rest).
        set (n := run cls_s rest) in *.
        set (sp := firstn n rest) in *. set (rest' := skipn n rest) in *.
        clearbody sp rest' n. subst rest n.
        replace (pre ++ cur ++ x :: sp ++ rest')
          with ((pre ++ cur ++ x :: sp) ++ [] ++ rest')
          by (rewrite <- !app_assoc; reflexivity).
        replace (S (length (pre ++ cur) + length sp))
          with (length (pre ++ cur ++ x :: sp))
          by (repeat (rewrite length_app || cbn [length]); lia).
        pose proof (IH (pre ++ cur ++ x :: sp) [] rest') as IH'.
        rewrite (app_nil_r (pre ++ cur ++ x :: sp)) in IH'.
        rewrite IH' by (simpl in Hf; rewrite length_app in Hf; lia).
        cbn [rev]. destruct cur as [|c cur]; [reflexivity|].
        cbn [truthy]. rewrite rev_involutive.
        destruct (rev (c :: cur)) eqn:E; [|reflexivity].
        apply (f_equal (@length _)) in E. rewrite length_rev in E. discriminate.
      * rewrite <- (app_assoc pre cur (x :: rest)).
        replace (pre ++ cur ++ x :: rest) with (pre ++ (cur ++ [x]) ++ rest)
          by (rewrite <- !app_assoc; reflexivity).
        replace (S (length (pre ++ cur))) with (length (pre ++ cur ++ [x]))
          by (rewrite !length_app; simpl; lia).
        rewrite IH by (simpl in Hf; lia).
        rewrite rev_app_distr. reflexivity.
Qed.

(** The tokens of a line are the words of its text, a space being put
    before and after every [=] and double quote. *)
Lemma tokens_of_words lineText : tokens_of lineText = words [] lineText.
Proof.
  unfold tokens_of, split. destruct lineText as [|c t]; [reflexivity|].
  apply (split_loop_words _ [] [] (c :: t)). simpl. lia.
Qed.

End TokenizerFacts.

Section TokenProperties.

Lemma forallb_rev_eq (f : char -> bool) (l : jsstring) : forallb f (rev l) = forallb f l.
Proof.
  induction l as [|c l IH]; simpl; [reflexivity|].
  rewrite forallb_app. simpl. rewrite andb_true_r.
  unfold jsstring, char in *. rewrite IH. apply andb_comm.
Qed.

Lemma existsb_rev_eq (f : char -> bool) (l : jsstring) : existsb f (rev l) = existsb f l.
Proof.
  induction l as [|c l IH]; simpl; [reflexivity|].
  rewrite existsb_app. simpl. rewrite orb_false_r.
  unfold jsstring, char in *. rewrite IH. apply orb_comm.
Qed.

Lemma is_special_not_space c : is_special c = true -> cls_s c = false.
Proof.
  unfold is_special. intros H. apply orb_prop in H as [H|H];
    apply N.eqb_eq in H; subst c; reflexivity.
Qed.

Lemma token_ok_word (cur : jsstring) :
  cur <> [] ->
  forallb (fun c => negb (cls_s c)) cur = true ->
  existsb is_special cur = false ->
  token_ok (rev cur).
Proof.
  intros Hne Hs Hp. repeat split.
  - intros E. apply (f_equal (@rev _)) in E. rewrite rev_involutive in E.
    contradiction.
  - rewrite forallb_rev_eq. assumption.
  - rewrite existsb_rev_eq, Hp. discriminate.
Qed.

Lemma words_spaced_ok t : forall cur,
  forallb (fun c => negb (cls_s c)) cur = true ->
  existsb is_special cur = false ->
  Forall token_ok (words cur (spaced_text t)).
Proof.
  induction t as [|c t IH]; intros cur Hs Hp.
  - simpl. destruct cur as [|a cur]; constructor; [|constructor].
    apply token_ok_word; [discriminate|assumption|assumption].
  - unfold spaced_text. cbn [flat_map]. fold (spaced_text t).
    destruct (is_special c) eqn:Hc.
    + pose proof (is_special_not_space c Hc) as Hn.
      assert (Hone : token_ok [c]).
      { repeat split; [discriminate|simpl; rewrite Hn; reflexivity|eauto]. }
      cbn [app words]. change (cls_s c_space) with true. cbv iota.
      rewrite Hn. cbn [rev app].
      change (cls_s c_space) with true. cbv iota.
      destruct cur as [|a cur].
      * constructor; [assumption|]. apply IH; reflexivity.
      * constructor; [apply token_ok_word; [discriminate|assumption|assumption]|].
        constructor; [assumption|]. apply IH; reflexivity.
    + cbn [app words]. destruct (cls_s c) eqn:Hn.
      * destruct cur as [|a cur]; [apply IH; reflexivity|].
        constructor; [apply token_ok_word; [discriminate|assumption|assumption]|].
        apply IH; reflexivity.
      * apply IH; simpl; [rewrite Hn|rewrite Hc]; assumption.
Qed.

Lemma words_concat s : forall cur,
  concat (words cur s) = rev cur ++ filter (fun c => negb (cls_s c)) s.
Proof.
  induction s as [|c s IH]; intros cur; simpl.
  - destruct cur; simpl; rewrite ?app_nil_r; reflexivity.
  - destruct (cls_s c) eqn:E; simpl.
    + destruct cur as [|a cur]; [apply IH|]. simpl. rewrite IH. reflexivity.
    + rewrite IH. simpl. rewrite <- app_assoc. reflexivity.
Qed.

Lemma spaced_text_filter t :
  filter (fun c => negb (cls_s c)) (spaced_text t)
  = filter (fun c => negb (cls_s c)) t.
Proof.
  induction t as [|c t IH]; [reflexivity|].
  unfold spaced_text. cbn [flat_map]. fold (spaced_text t).
  rewrite filter_app, IH. destruct (is_special c) eqn:Hc; simpl.
  - rewrite (is_special_not_space c Hc). reflexivity.
  - destruct (cls_s c); reflexivity.
Qed.

(** X1.  The tokens of a line, which the scanner gets with one regular
    expression replacement and one regular expression split, are the
    words of the line once a space is put before and after every [=]
    and double quote: its longest runs of characters that are not white
    space. *)
Theorem tokens_are_words (t : jsstring) :
  lineText_of t = spaced_text t
  /\ tokens_of (lineText_of t) = words [] (spaced_text t).
Proof.
  split; [apply lineText_of_spec|].
  rewrite tokens_of_words, lineText_of_spec. reflexivity.
Qed.

(** X2.  No token of a line is empty or holds white space, and [=] and
    the double quote are always tokens of their own: a token in which
    one of them is found is that one character. *)
Theorem tokens_isolate_specials (t : jsstring) :
  Forall (fun tok =>
            tok <> []
            /\ forallb (fun c => negb (cls_s c)) tok = true
            /\ (existsb is_special tok = true -> exists c, tok = [c]))
         (tokens_of (lineText_of t)).
Proof.
  rewrite tokens_of_words, lineText_of_spec.
  apply (words_spaced_ok t []); reflexivity.
Qed.

(** X3.  The tokens of a line, put end to end, are the line without its
    white space: the tokenizer drops white space and nothing else, and
    keeps the order. *)
Theorem tokens_keep_text (t : jsstring) :
  concat (tokens_of (lineText_of t)) = filter (fun c => negb (cls_s c)) t.
Proof.
  rewrite tokens_of_words, lineText_of_spec, words_concat, spaced_text_filter.
  reflexivity.
Qed.

End TokenProperties.

(* ================================================================== *)
(** * When the scan raises *)

Section ScanTotality.

Ltac break_match :=
  repeat match goal with
         | H : exists _, _ |- _ => destruct H
         | H : _ /\ _ |- _ => destruct H
         | H : matches (lit _) _ _ _ _ |- _ => apply matches_lit in H
         end.

Lemma words_skip a : forall b,
  forallb cls_s a = true -> words [] (a ++ b) = words [] b.
Proof.
  induction a as [|c a IH]; intros b H; [reflexivity|].
  simpl in H. apply andb_prop in H as [Hc Ha]. simpl. rewrite Hc. apply IH, Ha.
Qed.

Lemma words_word a : forall cur b,
  forallb (fun c => negb (cls_s c)) a = true ->
  words cur (a ++ b) = words (rev a ++ cur) b.
Proof.
  induction a as [|c a IH]; intros cur b H; [reflexivity|].
  simpl in H. apply andb_prop in H as [Hc Ha]. apply negb_true_iff in Hc.
  simpl. rewrite Hc, IH by assumption. rewrite <- app_assoc. reflexivity.
Qed.

Lemma words_sep cur x b :
  cls_s x = true -> cur <> [] -> words cur (x :: b) = rev cur :: words [] b.
Proof. intros Hx Hc. simpl. rewrite Hx. destruct cur; [contradiction|reflexivity]. Qed.

Lemma words_open s : forall cur,
  cur <> [] -> exists t ts, words cur s = t :: ts /\ truthy t = true.
Proof.
  induction s as [|c s IH]; intros cur Hc.
  - destruct cur as [|a cur]; [contradiction|]. simpl. eexists _, _.
    split; [reflexivity|]. destruct (rev cur ++ [a]) eqn:E; [|reflexivity].
    apply (f_equal (@length _)) in E. rewrite length_app in E. simpl in E. lia.
  - simpl. destruct (cls_s c).
    + destruct cur as [|a cur]; [contradiction|]. eexists _, _.
      split; [reflexivity|]. simpl. destruct (rev cur ++ [a]) eqn:E; [|reflexivity].
      apply (f_equal (@length _)) in E. rewrite length_app in E. simpl in E. lia.
    + apply IH. discriminate.
Qed.

Lemma cls_w_not_space c : cls_w c = true -> cls_s c = false.
Proof.
  unfold cls_w, cls_d, cls_s, between. intros H.
  repeat match goal with
         | H : (_ || _)%bool = true |- _ => apply orb_prop in H as [H|H]
         | H : (_ && _)%bool = true |- _ => apply andb_prop in H as [? ?]
         end;
    repeat match goal with
           | H : (_ <=? _)%N = true |- _ => apply N.leb_le in H
           | H : (_ =? _)%N = true |- _ => apply N.eqb_eq in H
           end;
    repeat match goal with
           | |- (_ || _)%bool = false => apply orb_false_intro
           | |- (_ && _)%bool = false => apply andb_false_iff
           end;
    try (apply N.eqb_neq; lia);
    try (left; apply N.leb_gt; lia); try (right; apply N.leb_gt; lia).
Qed.

(** What the private handler pattern matches: white space, [private],
    white space, [handler], white space, and a character of a name. *)
Lemma occurs_re_private_handler_full s :
  occurs re_private_handler s ->
  exists ws x1 s1 x2 s2 w rest,
    s = ws ++ js "private" ++ (x1 :: s1) ++ js "handler" ++ (x2 :: s2) ++ w :: rest
    /\ forallb cls_s ws = true
    /\ cls_s x1 = true /\ forallb cls_s s1 = true
    /\ cls_s x2 = true /\ forallb cls_s s2 = true
    /\ cls_w w = true.
Proof.
  intros (pre & mid & post & c & -> & H).
  unfold re_private_handler, Plus in H. cbn [matches cat] in H.
  break_match. subst. destruct pre; [|discriminate].
  repeat (rewrite <- app_assoc || (progress simpl)).
  eexists _, _, _, _, _, _, _. split; [reflexivity|]. repeat split; assumption.
Qed.

(** A line that the private handler pattern matches has a third token. *)
Lemma private_handler_has_name lineText :
  test re_private_handler lineText = true ->
  exists n, token_at (tokens_of lineText) 2 = Some n /\ truthy n = true.
Proof.
  intros H. apply test_occurs, occurs_re_private_handler_full in H
    as (ws & x1 & s1 & x2 & s2 & w & rest & -> & Hws & Hx1 & Hs1 & Hx2 & Hs2 & Hw).
  rewrite tokens_of_words, words_skip by assumption.
  rewrite (words_word (js "private")) by reflexivity.
  rewrite <- app_comm_cons, words_sep by (assumption || discriminate).
  rewrite words_skip by assumption.
  rewrite (words_word (js "handler")) by reflexivity.
  rewrite <- app_comm_cons, words_sep by (assumption || discriminate).
  rewrite words_skip by assumption.
  cbn [words]. rewrite (cls_w_not_space w Hw).
  destruct (words_open rest [w]) as (t & ts & -> & Ht); [discriminate|].
  exists t. split; [reflexivity|assumption].
Qed.

Lemma tokens_truthy lineText :
  Forall (fun t => truthy t = true) (tokens_of lineText).
Proof.
  unfold tokens_of. apply Forall_forall. intros t Hin.
  apply filter_In in Hin. tauto.
Qed.

Lemma token_at_truthy lineText i n :
  token_at (tokens_of lineText) i = Some n -> truthy n = true.
Proof.
  unfold token_at. destruct (i <? 0)%Z; [discriminate|]. intros H.
  apply nth_error_In in H.
  pose proof (tokens_truthy lineText) as Hall. rewrite Forall_forall in Hall.
  apply Hall, H.
Qed.

Lemma contains_line_range (i len : nat) :
  contains (line_range (Z.of_nat i) (Z.of_nat len))
           (line_range (Z.of_nat i) (Z.of_nat len)) = true.
Proof.
  unfold contains, contains_position, isBefore, line_range. simpl.
  rewrite !Z.ltb_irrefl, Z.eqb_refl. simpl.
  replace (Z.of_nat len <? 0)%Z with false by (symmetry; apply Z.ltb_ge; lia).
  reflexivity.
Qed.

Lemma new_DocumentSymbol_ok n dt k r :
  truthy n = true -> contains r r = true ->
  new_DocumentSymbol (Some n) dt k r r = Ok (mkDocumentSymbol n dt k r r []).
Proof. intros Hn Hr. unfold new_DocumentSymbol. rewrite Hn, Hr. reflexivity. Qed.

(** The loop over the tokens of a declaration does not raise. *)
Lemma variables_loop_total tokens line indices : forall tInQuotes st,
  Forall (fun i => i < length tokens) indices ->
  Forall (fun t => truthy t = true) tokens ->
  contains (tl_range line) (tl_range line) = true ->
  exists st', variables_loop tokens line indices tInQuotes st = Ok st'.
Proof.
  induction indices as [|index1 rest IH]; intros tInQuotes st Hi Ht Hr.
  - eexists. reflexivity.
  - inversion Hi as [|? ? Hlt Hrest]; subst. cbn [variables_loop].
    destruct (_ || _)%bool; [apply IH; assumption|].
    destruct (is_str _ (js "variable")); [apply IH; assumption|].
    destruct (is_str _ (js "as")); [eexists; reflexivity|].
    destruct (nth_error tokens index1) as [t|] eqn:E;
      [|apply nth_error_None in E; lia].
    rewrite Forall_forall in Ht. pose proof (Ht t (nth_error_In _ _ E)) as Htt.
    rewrite new_DocumentSymbol_ok by assumption. cbn [JS.bind].
    unfold inside_blockcomment.
    destruct (inside_handler st); apply IH; try assumption;
      apply Forall_forall; assumption.
Qed.

(** A line of the document that is no handler line without a name does
    not make the scan raise. *)
Lemma scan_line_total document i line st :
  lineAt document i = Ok line ->
  nameless_handler (text line) = false ->
  exists st', scan_line line st = Ok st'.
Proof.
  intros Hl Hn. pose proof (contains_line_range i (length (text line))) as Hc.
  assert (Hrg : tl_range line
                = line_range (Z.of_nat i) (Z.of_nat (length (text line)))).
  { unfold lineAt in Hl. destruct (nth_error document i); [|discriminate].
    inversion Hl; reflexivity. }
  rewrite <- Hrg in Hc. clear Hrg Hl.
  unfold nameless_handler in Hn. unfold scan_line.
  set (lineText := lineText_of (text line)) in *.
  set (tokens := tokens_of lineText) in *.
  assert (H1 : exists st1, handler_branch lineText tokens line st = Ok st1).
  { unfold handler_branch. destruct (test re_handler lineText).
    - simpl in Hn. destruct (token_at tokens 1) as [n|] eqn:E; [|discriminate].
      rewrite (new_DocumentSymbol_ok n) by (eauto using token_at_truthy).
      eexists. reflexivity.
    - destruct (test re_end_handler lineText); eexists; reflexivity. }
  destruct H1 as [st1 ->]. cbn [JS.bind].
  assert (H2 : exists st2, private_branch lineText tokens line st1 = Ok st2).
  { unfold private_branch. destruct (test re_private_handler lineText) eqn:Hp.
    - destruct (private_handler_has_name _ Hp) as (n & E & Hn2).
      fold tokens in E. rewrite E, (new_DocumentSymbol_ok n) by assumption.
      eexists. reflexivity.
    - destruct (test re_end_handler_0 lineText); eexists; reflexivity. }
  destruct H2 as [st2 ->]. cbn [JS.bind].
  unfold variables_branch. destruct (test re_variable lineText);
    [|eexists; reflexivity].
  apply variables_loop_total; try assumption.
  - apply Forall_forall. intros k Hk. apply in_seq in Hk. lia.
  - apply tokens_truthy.
Qed.

(** A handler line without a name makes the scan raise. *)
Lemma scan_line_nameless line st :
  nameless_handler (text line) = true ->
  scan_line line st = Throw "name must not be falsy".
Proof.
  unfold nameless_handler, scan_line, handler_branch. intros H.
  apply andb_prop in H as [Ht Hn]. rewrite Ht.
  destruct (token_at _ 1); [discriminate|]. reflexivity.
Qed.

Lemma scan_from_total document n : forall i st,
  i + n <= length document ->
  (forall t, In t document -> nameless_handler t = false) ->
  exists st', scan_from document i n st = Ok st'.
Proof.
  induction n as [|n IH]; intros i st Hlen Hok; [eexists; reflexivity|].
  cbn [scan_from].
  destruct (lineAt document i) as [line|e] eqn:Hl.
  - cbn [JS.bind].
    destruct (scan_line_total document i line st Hl) as [st1 ->].
    + apply Hok. apply lineAt_text in Hl. eapply nth_error_In; eassumption.
    + cbn [JS.bind]. apply IH; [lia|assumption].
  - unfold lineAt in Hl. destruct (nth_error document i) eqn:E; [discriminate|].
    apply nth_error_None in E. lia.
Qed.

(** A handler line without a name among the lines to scan makes the
    loop raise, whatever the lines before it are. *)
Lemma scan_from_nameless document n : forall i st k t,
  i <= k < i + n ->
  nth_error document k = Some t ->
  nameless_handler t = true ->
  scan_from document i n st = Throw "name must not be falsy".
Proof.
  induction n as [|n IH]; intros i st k t Hk Ht Hn; [lia|].
  cbn [scan_from].
  destruct (lineAt document i) as [line|e] eqn:Hl.
  - cbn [JS.bind]. destruct (nameless_handler (text line)) eqn:Hni.
    + rewrite scan_line_nameless by assumption. reflexivity.
    + destruct (scan_line_total document i line st Hl Hni) as [st1 ->].
      cbn [JS.bind]. apply (IH (S i) st1 k t); try assumption.
      assert (k <> i); [|lia]. intros ->.
      apply lineAt_text in Hl. congruence.
  - unfold lineAt in Hl. destruct (nth_error document i) eqn:E; [discriminate|].
    assert (Hlen : k < length document) by (apply nth_error_Some; congruence).
    apply nth_error_None in E.
    destruct (Nat.eq_dec k i) as [->|Hne]; [lia|].
    exfalso.
    assert (Hi : i < length document) by lia. lia.
Qed.

(** X4.  The outline request is resolved exactly when the document has
    two lines or more and none of them is a handler line without a
    name.  When it is rejected, it is with the error of the line lookup
    or with that of the symbol constructor. *)
Theorem outline_resolved_iff (document : TextDocument) :
  ((exists syms, provideDocumentSymbols document = Ok syms)
   <-> 2 <= length document /\ existsb nameless_handler document = false)
  /\ (forall e, provideDocumentSymbols document = Throw e ->
                e = "Illegal value for `line`"%string
                \/ e = "name must not be falsy"%string).
Proof.
  unfold provideDocumentSymbols.
  destruct (lineAt document 1) as [line1|e1] eqn:Hl1.
  - assert (Hlen : 2 <= length document).
    { apply lineAt_text in Hl1.
      assert (1 < length document) by (apply nth_error_Some; congruence). lia. }
    pose proof (contains_line_range 1 (length (text line1))) as Hc.
    rewrite <- (lineAt_range _ _ _ Hl1) in Hc.
    cbn [JS.bind]. rewrite (new_DocumentSymbol_ok (js "start")) by (reflexivity || assumption).
    cbn [JS.bind].
    destruct (existsb nameless_handler document) eqn:Hex.
    + apply existsb_exists in Hex as (t & Hin & Hn).
      apply In_nth_error in Hin as [k Hk].
      assert (Hklen : k < length document) by (apply nth_error_Some; congruence).
      rewrite (scan_from_nameless document (lineCount document) 0 _ k t)
        by (unfold lineCount; (lia || assumption)).
      cbn [JS.bind]. split.
      * split; [intros [syms H]; discriminate|intros [_ H]; discriminate].
      * intros e H. inversion H. auto.
    + destruct (scan_from_total document (lineCount document) 0
                  (mkScanState []
                     (mkDocumentSymbol (js "start") (Some (js "start"))
                        SymbolKind.Method (tl_range line1) (tl_range line1) [])
                     false)) as [st Hst].
      * unfold lineCount. lia.
      * intros t Hin. destruct (nameless_handler t) eqn:Hn; [|reflexivity].
        assert (existsb nameless_handler document = true)
          by (apply existsb_exists; eauto).
        congruence.
      * rewrite Hst. cbn [JS.bind]. split.
        -- split; [auto|eauto].
        -- intros e H. discriminate.
  - cbn [JS.bind]. unfold lineAt in Hl1.
    destruct (nth_error document 1) eqn:E; [discriminate|].
    apply nth_error_None in E. inversion Hl1; subst e1. split.
    + split; [intros [syms H]; discriminate|intros [H _]; lia].
    + intros e H. inversion H. auto.
Qed.

Lemma occurs_re_variable s :
  occurs re_variable s ->
  exists ws rest,
    forallb cls_s ws = true
    /\ (s = ws ++ js "private" ++ rest \/ s = ws ++ js "variable" ++ rest).
Proof.
  intros (pre & mid & post & c & -> & H).
  unfold re_variable, Plus in H. cbn [matches cat] in H.
  destruct H as (s1 & s2 & c1 & -> & (c0 & [H|H] & ->) & _);
    break_match; subst; (destruct pre; [|discriminate]);
    repeat (rewrite <- app_assoc || (progress simpl));
    eexists _, _;
    (split; [|first [left; reflexivity|right; reflexivity]]); assumption.
Qed.

(** An [end handler] line declares no variable. *)
Lemma ends_not_variable t :
  ends_handler t = true -> test re_variable (lineText_of t) = false.
Proof.
  unfold ends_handler. intros He.
  assert (He1 : test re_end_handler (lineText_of t) = true).
  { apply orb_prop in He as [He|He]; [assumption|].
    apply end_handler_0_end_handler; assumption. }
  destruct (test re_variable (lineText_of t)) eqn:Hv; [exfalso|reflexivity].
  apply test_occurs, occurs_re_end_handler in He1 as (ws' & rest' & E & Hws').
  apply test_occurs, occurs_re_variable in Hv as (ws & rest & Hws & [E'|E']);
    rewrite E' in E; simpl in E;
    pose proof (first_after_run cls_s ws ws' _ _ _ _ E Hws Hws' eq_refl eq_refl);
    discriminate.
Qed.

(** X5.  Outside a handler, an [end handler] line changes nothing and
    does not raise: no symbol is added, the scope stays closed, and the
    handler symbol in hand is left as it is. *)
Theorem end_handler_outside_handler (line : TextLine) (st : ScanState) :
  ends_handler (text line) = true ->
  inside_handler st = false ->
  scan_line line st = Ok st.
Proof.
  intros He Hi. pose proof (ends_not_variable _ He) as Hv.
  assert (Hno : opens_handler (text line) = false).
  { destruct (opens_handler (text line)) eqn:Ho; [|reflexivity].
    apply opens_not_ends in Ho. congruence. }
  unfold opens_handler in Hno. apply orb_false_elim in Hno as [Hh Hp].
  unfold scan_line, handler_branch, private_branch, variables_branch.
  rewrite Hh, Hp, Hv.
  assert (Hc : close_handler st line = st)
    by (unfold close_handler; rewrite Hi; reflexivity).
  destruct (test re_end_handler (lineText_of (text line))); cbn [JS.bind];
    rewrite ?Hc;
    destruct (test re_end_handler_0 (lineText_of (text line))); cbn [JS.bind];
    rewrite ?Hc; reflexivity.
Qed.

Lemma end_handler_outside_handler_witness :
  let st := mkScanState []
              (mkDocumentSymbol (js "start") (Some (js "start")) SymbolKind.Method
                 (line_range 1 0) (line_range 1 0) []) false in
  scan_line (mkTextLine (js "  end   handler ") (line_range 0 16)) st = Ok st.
Proof.
  intros st. apply end_handler_outside_handler; vm_compute; reflexivity.
Defined.

End ScanTotality.

(* ================================================================== *)
(** * The names of the variables of a declaration *)

Section VariableNames.

Lemma firstn_S_nth (l : list jsstring) j :
  firstn (S j) l
  = firstn j l ++ match nth_error l j with Some x => [x] | None => [] end.
Proof.
  revert j. induction l as [|a l IH]; intros j.
  - destruct j; reflexivity.
  - destruct j as [|j]; [reflexivity|].
    change (firstn (S (S j)) (a :: l)) with (a :: firstn (S j) l).
    rewrite IH. reflexivity.
Qed.

Lemma quote_count_S tokens j :
  quote_count (firstn (S j) tokens)
  = quote_count (firstn j tokens)
    + (if is_str (nth_error tokens j) [c_quote] then 1 else 0).
Proof.
  unfold quote_count. rewrite firstn_S_nth, filter_app, length_app.
  destruct (nth_error tokens j) as [t|]; simpl; [|reflexivity].
  destruct (streq t [c_quote]); reflexivity.
Qed.

Lemma placed_nil st : placed st st [].
Proof.
  unfold placed. split; [reflexivity|].
  destruct (inside_handler st); rewrite app_nil_r; split; try reflexivity.
  destruct (handler_Symbol st); reflexivity.
Qed.

Lemma variables_loop_names tokens line n : forall k tInQuotes st st',
  tInQuotes = Nat.odd (quote_count (firstn k tokens)) ->
  variables_loop tokens line (seq k n) tInQuotes st = Ok st' ->
  exists indices vs,
    placed st st' vs
    /\ Forall2 (from_token tokens line) indices vs
    /\ Forall (fun j => k <= j < k + n) indices
    /\ StronglySorted lt indices.
Proof.
  induction n as [|n IH]; intros k tInQuotes st st' Hq H.
  - inversion H; subst. exists [], [].
    split; [apply placed_nil|]. repeat split; constructor.
  - cbn [seq variables_loop] in H.
    set (tok := nth_error tokens k) in *.
    set (q' := if is_str tok [c_quote] then negb tInQuotes else tInQuotes) in *.
    assert (Hq' : q' = Nat.odd (quote_count (firstn (S k) tokens))).
    { subst q'. rewrite quote_count_S. fold tok.
      destruct (is_str tok [c_quote]); subst tInQuotes.
      - rewrite Nat.add_1_r, Nat.odd_succ, <- Nat.negb_odd. reflexivity.
      - rewrite Nat.add_0_r. reflexivity. }
    assert (Hweak : forall indices,
               Forall (fun j => S k <= j < S k + n) indices ->
               Forall (fun j => k <= j < k + S n) indices).
    { intros indices. apply Forall_impl. intros j Hj. lia. }
    destruct (q' || Nat.eqb k 0 || is_str tok [c_eq] || is_str tok [c_quote]
              || is_str (token_at tokens (Z.of_nat k - 1)) [c_eq]
              || is_str tok (js ","))%bool eqn:Hskip.
    { destruct (IH _ _ _ _ Hq' H) as (indices & vs & Hp & Hvs & Hb & Hs).
      exists indices, vs. auto. }
    destruct (is_str tok (js "variable")) eqn:Hvar.
    { destruct (IH _ _ _ _ Hq' H) as (indices & vs & Hp & Hvs & Hb & Hs).
      exists indices, vs. auto. }
    destruct (is_str tok (js "as")) eqn:Has.
    { inversion H; subst. exists [], [].
      split; [apply placed_nil|]. repeat split; constructor. }
    apply orb_false_elim in Hskip as [Hskip Hcomma].
    apply orb_false_elim in Hskip as [Hskip Hprev].
    apply orb_false_elim in Hskip as [Hskip Hquote].
    apply orb_false_elim in Hskip as [Hskip Heq].
    apply orb_false_elim in Hskip as [Hskip Hk0].
    destruct tok as [t|] eqn:Etok; [|discriminate H].
    unfold new_DocumentSymbol in H.
    destruct (truthy t); [|discriminate H].
    destruct (contains (tl_range line) (tl_range line)); [|discriminate H].
    cbn [JS.bind] in H. unfold inside_blockcomment in H.
    set (v := variable_symbol tokens line t).
    assert (Hv : from_token tokens line k v).
    { unfold from_token. subst v. cbn [name variable_symbol].
      repeat split; try assumption.
      - apply Nat.eqb_neq in Hk0. lia.
      - subst q'. rewrite Hquote in Hskip. subst tInQuotes.
        rewrite <- Nat.negb_odd, Hskip. reflexivity.
      - unfold never_a_name. cbn [is_str] in Heq, Hquote, Hcomma, Hvar, Has.
        rewrite Heq, Hquote, Hcomma, Hvar, Has. reflexivity. }
    destruct (inside_handler st) eqn:Hin;
      destruct (IH _ _ _ _ Hq' H) as (indices & vs & (Hi & Hp) & Hvs & Hb & Hs);
      cbn [inside_handler symbols handler_Symbol] in Hi, Hp;
      destruct Hp as [Hp1 Hp2]; exists (k :: indices), (v :: vs);
      (split;
       [|split; [constructor; assumption|];
         split; [constructor; [lia|apply Hweak, Hb]|];
         constructor; [exact Hs|];
         revert Hb; apply Forall_impl; intros j Hj; lia]);
      unfold placed; rewrite Hin, Hi; (split; [reflexivity|]);
      rewrite Hp1, Hp2.
    + split; [reflexivity|]. unfold push_child. cbn. rewrite <- app_assoc.
      reflexivity.
    + split; [|reflexivity]. rewrite <- app_assoc. reflexivity.
Qed.

(** The symbols of the variables statement come from tokens of the
    line, one index after the other. *)
Lemma variables_branch_ordered lineText tokens line st st' :
  variables_branch lineText tokens line st = Ok st' ->
  exists indices vs,
    placed st st' vs
    /\ StronglySorted lt indices
    /\ Forall2 (fun j v => j < length tokens /\ from_token tokens line j v)
               indices vs.
Proof.
  unfold variables_branch. destruct (test re_variable lineText).
  - intros H. apply (variables_loop_names tokens line _ 0) in H; [|reflexivity].
    destruct H as (indices & vs & Hp & Hvs & Hb & Hs). exists indices, vs.
    split; [assumption|]. split; [assumption|].
    clear Hs Hp. induction Hvs as [|j v indices vs Hv Hvs IH]; constructor.
    + inversion Hb; subst. split; [lia|assumption].
    + apply IH. inversion Hb; assumption.
  - intros H. inversion H; subst. exists [], [].
    split; [apply placed_nil|]. split; constructor.
Qed.

Lemma variables_branch_places lineText tokens line st st' :
  variables_branch lineText tokens line st = Ok st' ->
  exists vs,
    placed st st' vs
    /\ Forall (fun v => exists j, j < length tokens /\ from_token tokens line j v) vs.
Proof.
  intros H. apply variables_branch_ordered in H as (indices & vs & Hp & _ & Hvs).
  exists vs. split; [assumption|].
  clear Hp. induction Hvs as [|j v indices vs Hv Hvs IH]; constructor;
    [exists j; exact Hv|exact IH].
Qed.

(** X6.  The symbols that the variables statement makes of a line are
    made of tokens of the line, in the order of the tokens, and go to
    the children of the open handler or, outside a handler, to the
    top-level list, after what is there.  Each one bears the name of a
    token that is not the first, that an even number of double quote
    tokens precede (it is not inside a quoted literal), that does not
    follow a [=] token, and that is none of [=], the double quote, [,],
    [variable] and [as]; its detail is the first token, its kind
    [Variable], its range the line, and it has no children. *)
Theorem variable_names_are_unquoted_tokens
        (lineText : jsstring) (tokens : list jsstring) (line : TextLine)
        (st st' : ScanState) :
  variables_branch lineText tokens line st = Ok st' ->
  exists indices vs,
    placed st st' vs
    /\ StronglySorted lt indices
    /\ Forall2 (fun j v => j < length tokens /\ from_token tokens line j v)
               indices vs.
Proof. apply variables_branch_ordered. Qed.

Lemma variable_names_are_unquoted_tokens_witness :
  let t := js "variable a = " ++ [c_quote] ++ js "x y" ++ [c_quote] ++ js " , b as T" in
  let lineText := lineText_of t in
  let tokens := tokens_of lineText in
  let line := mkTextLine t (line_range 0 (Z.of_nat (length t))) in
  let st := mkScanState []
              (mkDocumentSymbol (js "start") (Some (js "start")) SymbolKind.Method
                 (line_range 1 0) (line_range 1 0) []) false in
  exists st' vs,
    variables_branch lineText tokens line st = Ok st'
    /\ placed st st' vs
    /\ map name vs = [js "a"; js "b"].
Proof.
  intros t lineText tokens line st.
  pose (st' := match variables_branch lineText tokens line st with
               | Ok s => s
               | Throw _ => st
               end).
  assert (E : variables_branch lineText tokens line st = Ok st')
    by (vm_compute; reflexivity).
  destruct (variable_names_are_unquoted_tokens lineText tokens line st st' E)
    as (indices & vs & Hp & _).
  exists st', vs. split; [exact E|]. split; [exact Hp|].
  destruct Hp as [_ Hp]. vm_compute in Hp. destruct Hp as [Hs _].
  rewrite <- Hs. reflexivity.
Defined.

End VariableNames.

(* ================================================================== *)
(** * One write of the line decoder, and what [end] returns *)

Section DecoderSteps.
Import LineDecoder LineDecoderFacts.

Variable StringDecoder : Type.
Variable sd_write : StringDecoder -> Buffer -> StringDecoder * jsstring.

(** X7.  A write returns exactly the complete lines of the text made of
    what was pending and what the chunk decodes to, and keeps pending
    what follows the last terminator of that text; what is pending is
    never the empty text and never holds a CR or LF. *)
Theorem write_returns_completed_lines (d : LineDecoder.t StringDecoder) (buffer : Buffer) :
  wf_remaining (remaining d) ->
  let text := remaining_text (remaining d) ++ snd (sd_write (stringDecoder d) buffer) in
  snd (write sd_write d buffer) = fst (cut [] text)
  /\ remaining (fst (write sd_write d buffer)) = remaining_of (snd (cut [] text))
  /\ stringDecoder (fst (write sd_write d buffer)) = fst (sd_write (stringDecoder d) buffer)
  /\ wf_remaining (remaining (fst (write sd_write d buffer))).
Proof.
  intros Hwf text. rewrite write_spec by assumption. cbn [fst snd remaining stringDecoder].
  pose proof (wf_remaining_no_eol _ Hwf) as Hr.
  assert (E : cut [] text
              = cut (rev (remaining_text (remaining d)))
                    (snd (sd_write (stringDecoder d) buffer))).
  { subst text. rewrite cut_app_no_eol by assumption. rewrite app_nil_r. reflexivity. }
  rewrite E. repeat split.
  apply remaining_of_wf, cut_snd_no_eol. rewrite no_eol_rev. assumption.
Qed.

Lemma cut_snd_nil (txt : jsstring) :
  snd (cut [] txt) = []
  <-> txt = [] \/ exists t c, txt = t ++ [c] /\ is_eol c = true.
Proof.
  destruct (rev txt) as [|c rt] eqn:E.
  - apply (f_equal (@rev _)) in E. rewrite rev_involutive in E. subst txt.
    simpl. tauto.
  - apply (f_equal (@rev _)) in E. rewrite rev_involutive in E. simpl in E.
    subst txt. rewrite cut_app. cbn [snd cut].
    destruct (is_eol c) eqn:Hc.
    + split; [intros _; right; eauto|intros _].
      destruct (rev (snd (cut [] (rev rt)))); reflexivity.
    + cbn [snd]. split.
      * intros H. apply (f_equal (@length _)) in H. simpl in H.
        rewrite length_app in H. simpl in H. lia.
      * intros [H|(t & c' & H & Hc')].
        -- apply (f_equal (@length _)) in H. rewrite length_app in H.
           simpl in H. lia.
        -- apply app_inj_tail in H as [_ ->]. congruence.
Qed.

(** X8.  After any writes to a new decoder, [end] returns [null] exactly
    when the text decoded so far is empty or ends with a CR or LF;
    otherwise it returns the text after the last terminator. *)
Theorem end_null_iff_text_terminated (sd : StringDecoder) (chunks : list Buffer) :
  let text := snd (decode_chunks sd_write sd chunks) in
  (end_ (fst (write_all sd_write (new sd) chunks)) = None
   <-> text = [] \/ exists t c, text = t ++ [c] /\ is_eol c = true)
  /\ end_ (fst (write_all sd_write (new sd) chunks)) = remaining_of (snd (cut [] text)).
Proof.
  intros text. rewrite write_all_spec by exact I.
  cbn [fst end_ remaining new remaining_text rev stringDecoder]. fold text.
  split; [|reflexivity]. rewrite <- cut_snd_nil.
  destruct (snd (cut [] text)); cbn [remaining_of truthy]; split; intros H;
    (reflexivity || discriminate H).
Qed.

End DecoderSteps.

Lemma write_returns_completed_lines_witness :
  let d := LineDecoder.mk tt (Some (js "par")) in
  snd (LineDecoder.write LineDecoder.bytewise_write d (js "tial" ++ [13%N; 10%N] ++ js "next"))
  = [js "partial"]
  /\ LineDecoder.remaining
       (fst (LineDecoder.write LineDecoder.bytewise_write d
               (js "tial" ++ [13%N; 10%N] ++ js "next")))
     = Some (js "next").
Proof.
  intros d.
  destruct (write_returns_completed_lines unit LineDecoder.bytewise_write d
              (js "tial" ++ [13%N; 10%N] ++ js "next"))
    as (H1 & H2 & _).
  - simpl. split; [discriminate|reflexivity].
  - rewrite H1, H2. split; reflexivity.
Defined.

(* ================================================================== *)
(** * The diagnostics of a run, whatever the chunks *)

Section DiagnosticsOfRun.
Import LineDecoder LineDecoderFacts.

Variable StringDecoder : Type.
Variable sd_write : StringDecoder -> Buffer -> StringDecoder * jsstring.

Lemma processLine_appends line diagnostics diagnostics' :
  processLine line diagnostics = Ok diagnostics' ->
  diagnostics' = diagnostics
  \/ exists d, diagnostics' = diagnostics ++ [d] /\ on_one_line d.
Proof.
  intros H. destruct (exec MatchExpression line) as [res|] eqn:He.
  - destruct (exec_first_shape _ _ He)
      as (pre & msg & file & digits & post & Hf & _ & _ & Hm & Hd).
    rewrite (processLine_first _ _ _ _ _ _ _ Hf), (diagnostic_for_spec msg digits Hd) in H.
    pose proof (minus_one_parseInt digits Hd) as Hn.
    destruct (decimal digits =? 0)%Z; [discriminate H|].
    destruct (truthy msg); [|discriminate H].
    cbn [JS.bind] in H. inversion H. right. eexists. split; [reflexivity|].
    exists (minus_one (parseInt digits)). repeat split; assumption.
  - left. unfold processLine in H. rewrite He in H. inversion H. reflexivity.
Qed.

Lemma forEach_processLine_appends lines : forall diagnostics,
  exists added,
    fst (forEach_processLine lines diagnostics) = diagnostics ++ added
    /\ length added <= length lines /\ Forall on_one_line added.
Proof.
  induction lines as [|l lines IH]; intros ds; cbn [forEach_processLine].
  - exists []. rewrite app_nil_r. auto.
  - destruct (processLine l ds) as [ds1|e] eqn:H1.
    + destruct (IH ds1) as (added & -> & Hlen & Hall).
      destruct (processLine_appends _ _ _ H1) as [->|(d & -> & Hd)].
      * exists added. simpl. auto.
      * exists (d :: added). rewrite <- app_assoc. simpl.
        repeat split; [lia|constructor; assumption].
    + exists []. simpl. rewrite app_nil_r. repeat split; [lia|constructor].
Qed.

(** The [data] callbacks push one diagnostic at most for every line that
    the decoder hands out, whether a callback raises or not. *)
Lemma on_data_appends chunks : forall (d : LineDecoder.t StringDecoder) diagnostics,
  fst (fst (on_data sd_write d chunks diagnostics)) = fst (write_all sd_write d chunks)
  /\ exists added,
       snd (fst (on_data sd_write d chunks diagnostics)) = diagnostics ++ added
       /\ length added <= length (snd (write_all sd_write d chunks))
       /\ Forall on_one_line added.
Proof.
  induction chunks as [|b chunks IH]; intros d ds; simpl.
  - split; [reflexivity|]. exists []. rewrite app_nil_r. auto.
  - destruct (write sd_write d b) as [d1 ls].
    destruct (forEach_processLine_appends ls ds) as (added1 & E1 & Hlen1 & Hall1).
    destruct (forEach_processLine ls ds) as [ds1 e]. simpl in E1. subst ds1.
    destruct (IH d1 (ds ++ added1)) as (Hd & added2 & E2 & Hlen2 & Hall2).
    destruct (on_data sd_write d1 chunks (ds ++ added1)) as [[d2 ds2] es].
    destruct (write_all sd_write d1 chunks) as [d2' ls']. simpl in *.
    split; [exact Hd|]. exists (added1 ++ added2).
    rewrite E2, <- app_assoc, !length_app. repeat split; [lia|].
    apply Forall_app. auto.
Qed.

(** X9.  When the run of the checker ends with diagnostics set for the
    document, they are at most one for every line of the output, and
    each of them is on one line whose number is not negative, from
    column 0 to [Number.MAX_VALUE], with a message that holds no line
    terminator. *)
Theorem diagnostics_one_per_line_at_most (sd : StringDecoder) (chunks : list Buffer)
        (diagnostics : list Diagnostic) :
  stdout_diagnostics sd_write sd chunks = Ok diagnostics ->
  length diagnostics <= length (lines_of_stream sd_write sd chunks)
  /\ Forall on_one_line diagnostics.
Proof.
  unfold stdout_diagnostics, lines_of_stream.
  destruct (on_data_appends chunks (new sd) []) as (Hd & added & E & Hlen & Hall).
  destruct (on_data sd_write (new sd) chunks []) as [[d ds] es].
  destruct (write_all sd_write (new sd) chunks) as [d' ls]. simpl in *.
  subst d' ds. unfold on_end. rewrite length_app.
  destruct (end_ d) as [l|]; [destruct (truthy l)|]; intros H.
  - destruct (processLine_appends _ _ _ H) as [->|(x & -> & Hx)].
    + split; [lia|assumption].
    + rewrite length_app. simpl. split; [lia|].
      apply Forall_app. split; [assumption|constructor; [assumption|constructor]].
  - inversion H; subst. split; [lia|assumption].
  - inversion H; subst. split; [lia|assumption].
Qed.

Hypothesis sd_write_nil : forall sd, sd_write sd [] = (sd, []).
Hypothesis sd_write_app : forall sd b1 b2,
  sd_write sd (b1 ++ b2) =
  (fst (sd_write (fst (sd_write sd b1)) b2),
   snd (sd_write sd b1) ++ snd (sd_write (fst (sd_write sd b1)) b2)).

(** X10.  When no complete line of the output makes [processLine]
    raise, the outcome of a run of the checker does not depend on the
    chunks in which the output arrives: no exception leaves a [data]
    callback, and what is set is what the lines of the whole decoded
    output give, handled in order, the exception of a last line without
    terminator leaving nothing set. *)
Theorem diagnostics_independent_of_chunks (sd : StringDecoder) (chunks : list Buffer) :
  forallb (fun l => negb (raises l))
          (fst (cut [] (snd (sd_write sd (concat chunks))))) = true ->
  stdout_diagnostics sd_write sd chunks = stdout_diagnostics sd_write sd [concat chunks]
  /\ stdout_diagnostics sd_write sd chunks
     = outcome (forEach_processLine
                  (lines_of_text (snd (sd_write sd (concat chunks)))) [])
  /\ stdout_uncaught sd_write sd chunks = [].
Proof.
  intros H.
  pose proof (decode_chunks_concat StringDecoder sd_write sd_write_nil sd_write_app)
    as Hc.
  assert (Hq : forall cs, concat cs = concat chunks ->
               snd (forEach_processLine
                      (fst (cut [] (snd (decode_chunks sd_write sd cs)))) []) = None).
  { intros cs E. rewrite Hc, E. apply forEach_processLine_quiet. exact H. }
  assert (Hone : concat [concat chunks] = concat chunks)
    by (simpl; apply app_nil_r).
  rewrite !stdout_diagnostics_quiet by (apply Hq; auto).
  rewrite !lines_of_stream_spec, !Hc, Hone.
  split; [reflexivity|]. split; [reflexivity|].
  unfold stdout_uncaught. rewrite on_data_quiet; [reflexivity|].
  pose proof (write_all_spec StringDecoder sd_write chunks (new sd) I) as Hw.
  simpl in Hw. rewrite Hw. apply (Hq chunks eq_refl).
Qed.

End DiagnosticsOfRun.

Lemma diagnostics_one_per_line_at_most_witness :
  let chunks := [js "Fatal error: x in a.lc on li"; js "ne 3" ++ [10%N] ++ js "noise" ++ [10%N]] in
  exists ds,
    stdout_diagnostics LineDecoder.bytewise_write tt chunks = Ok ds
    /\ length ds = 1 /\ Forall on_one_line ds.
Proof.
  intros chunks.
  pose (ds := match stdout_diagnostics LineDecoder.bytewise_write tt chunks with
              | Ok l => l
              | Throw _ => []
              end).
  assert (E : stdout_diagnostics LineDecoder.bytewise_write tt chunks = Ok ds)
    by (vm_compute; reflexivity).
  destruct (diagnostics_one_per_line_at_most unit LineDecoder.bytewise_write tt chunks ds E)
    as [_ Hall].
  exists ds. split; [exact E|]. split; [reflexivity|exact Hall].
Defined.

Lemma diagnostics_independent_of_chunks_witness :
  let chunks := [js "Fatal error: x in a.lc on li"; js "ne 3" ++ [10%N] ++ js "noise" ++ [10%N]] in
  stdout_diagnostics LineDecoder.bytewise_write tt chunks
  = stdout_diagnostics LineDecoder.bytewise_write tt [concat chunks].
Proof.
  intros chunks.
  apply (diagnostics_independent_of_chunks unit LineDecoder.bytewise_write
           (fun sd => eq_refl) (fun sd b1 b2 => eq_refl) tt chunks).
  vm_compute. reflexivity.
Defined.

(** With a line that makes [processLine] raise, the chunks matter: in
    one chunk the exception ends the only [data] callback and the line
    after it is not handled; in two chunks it is. *)
Example chunks_matter_when_a_line_raises :
  let l0 := js "Parse error: x in f.lc on line 0" ++ [10%N] in
  let l2 := js "Parse error: y in f.lc on line 2" ++ [10%N] in
  stdout_diagnostics LineDecoder.bytewise_write tt [l0 ++ l2] = Ok []
  /\ stdout_diagnostics LineDecoder.bytewise_write tt [l0; l2]
     = Ok [mkDiagnostic (line_range 1 MAX_VALUE) (js "y")]
  /\ stdout_uncaught LineDecoder.bytewise_write tt [l0; l2]
     = ["Illegal argument: line must be non-negative"%string].
Proof. vm_compute. repeat split. Qed.

(* ================================================================== *)
(** * Messages, pauses and delayers of the validation provider *)

Section ProviderSteps.

Variable StringDecoder : Type.
Variable sd_write : StringDecoder -> Buffer -> StringDecoder * jsstring.

Lemma paused_trigger_does_nothing languageId isTrusted key p :
  pauseValidation p = true ->
  triggerValidate languageId isTrusted key p = (p, false).
Proof.
  intros H. unfold triggerValidate. rewrite H, orb_true_r. reflexivity.
Qed.

(** X11.  A validation never clears a pause and never touches the
    configuration, the enabled flag or the delayers.  It shows one
    message at most, and it never sets the pause without showing one.
    A missing executable is reported whether the provider is paused or
    not, and the provider is paused then; the [error] event of the
    child is reported only when the provider is not paused yet, and
    the provider is paused then.  An exception caught in the [try]
    block is reported and the provider is left as it was: the pause is
    not set, so that a provider that was not paused validates again at
    the next trigger.  A paused provider does nothing at a trigger.
    When diagnostics are set, no message is shown and the provider is
    left as it was. *)
Theorem message_shown_then_paused
        (sd : StringDecoder) (isAbsolute : jsstring -> bool)
        (child : Spawned) (p : Provider) :
  let r := doValidate sd_write sd isAbsolute child p in
  let p' := fst (fst r) in
  let shown := snd (fst r) in
  (config p' = config p /\ validationEnabled p' = validationEnabled p
   /\ delayers p' = delayers p)
  /\ (pauseValidation p = true -> pauseValidation p' = true)
  /\ (shown = 0 \/ shown = 1)
  /\ (pauseValidation p' = true -> pauseValidation p = true \/ shown = 1)
  /\ (pauseValidation p' = true ->
      forall languageId isTrusted key,
        triggerValidate languageId isTrusted key p' = (p', false))
  /\ (shown = 1 -> pauseValidation p' = true \/ (child = SpawnThrows /\ p' = p))
  /\ (truthy_value (config_executable p) = false ->
      shown = 1 /\ pauseValidation p' = true)
  /\ (forall e, config_executable p = Some e -> truthy e = true ->
                isAbsolute e = true ->
                (child = SpawnError ->
                 shown = (if pauseValidation p then 0 else 1)
                 /\ pauseValidation p' = true)
                /\ (child = SpawnThrows -> shown = 1 /\ p' = p))
  /\ (snd r <> None -> shown = 0 /\ p' = p).
Proof.
  assert (Hpause : forall q : Provider,
             pauseValidation q = true ->
             forall languageId isTrusted key,
               triggerValidate languageId isTrusted key q = (q, false))
    by (intros; apply paused_trigger_does_nothing; assumption).
  unfold doValidate.
  destruct (config_executable p) as [e|] eqn:He;
    [destruct (truthy e) eqn:Ht; cbn [negb];
     [destruct (isAbsolute e) eqn:Ha; cbn [negb];
      [destruct child as [| | |stdout]; [|destruct (pauseValidation p) eqn:Hp| |]|]|]|];
    cbn [fst snd]; cbn [config validationEnabled delayers pauseValidation];
    repeat split; auto; try discriminate; try congruence;
    try (intros; apply Hpause; assumption);
    try (intros H; contradict H; reflexivity);
    try (intros H; cbn [truthy_value] in H; congruence);
    try (intros e' E; inversion E; subst e'; congruence);
    try (intros; right; split; reflexivity);
    try (intros; left; reflexivity);
    try (match goal with
         | H : truthy_value (Some _) = false |- _ =>
             cbn [truthy_value] in H; congruence
         end).
Qed.

End ProviderSteps.

Lemma existsb_streq_In key (l : list jsstring) :
  existsb (streq key) l = true <-> In key l.
Proof.
  rewrite existsb_exists. split.
  - intros (x & Hin & E). apply streq_eq in E. subst x. assumption.
  - intros Hin. exists key. split; [assumption|]. apply streq_eq. reflexivity.
Qed.

(** X12.  A trigger keeps one delayer for every document: it adds the
    key of the document only when the document has no delayer yet, and
    never removes or repeats a key.  It hands the document to
    validation exactly when the document is a livecodescript document,
    the provider is not paused, validation is enabled and the workspace
    is trusted; otherwise it changes nothing.  It never touches the
    pause, the enabled flag or the configuration. *)
Theorem trigger_keeps_one_delayer_per_document
        (languageId : jsstring) (isTrusted : bool) (key : jsstring) (p : Provider) :
  NoDup (delayers p) ->
  let r := triggerValidate languageId isTrusted key p in
  NoDup (delayers (fst r))
  /\ (forall k, In k (delayers (fst r)) <-> In k (delayers p) \/ (snd r = true /\ k = key))
  /\ (snd r = true
      <-> languageId = js "livecodescript" /\ pauseValidation p = false
          /\ validationEnabled p = true /\ isTrusted = true)
  /\ (snd r = false -> fst r = p)
  /\ pauseValidation (fst r) = pauseValidation p
  /\ validationEnabled (fst r) = validationEnabled p
  /\ config (fst r) = config p.
Proof.
  intros Hnd.
  assert (E : triggerValidate languageId isTrusted key p
              = if streq languageId (js "livecodescript")
                   && negb (pauseValidation p) && validationEnabled p && isTrusted
                then (mkProvider (validationEnabled p) (pauseValidation p) (config p)
                        (if existsb (streq key) (delayers p) then delayers p
                         else delayers p ++ [key]), true)
                else (p, false)).
  { unfold triggerValidate.
    destruct (streq languageId (js "livecodescript")), (pauseValidation p),
      (validationEnabled p), isTrusted; reflexivity. }
  rewrite E. clear E.
  assert (Hiff : streq languageId (js "livecodescript")
                 && negb (pauseValidation p) && validationEnabled p && isTrusted = true
                 <-> languageId = js "livecodescript" /\ pauseValidation p = false
                     /\ validationEnabled p = true /\ isTrusted = true).
  { rewrite !andb_true_iff, negb_true_iff, streq_eq. tauto. }
  destruct (streq languageId (js "livecodescript")
            && negb (pauseValidation p) && validationEnabled p && isTrusted) eqn:Hc;
    cbn [fst snd delayers pauseValidation validationEnabled config].
  - split; [|split; [|split; [|split; [discriminate|repeat split]]]].
    + destruct (existsb (streq key) (delayers p)) eqn:Hk; [assumption|].
      apply NoDup_app; [assumption|repeat constructor; intros []|].
      intros k Hin [<-|[]]. apply existsb_streq_In in Hin. congruence.
    + intros k. destruct (existsb (streq key) (delayers p)) eqn:Hk; split.
      * auto.
      * intros [Hin|[_ ->]]; [assumption|]. apply existsb_streq_In. assumption.
      * intros Hin. apply in_app_or in Hin as [?|[<-|[]]]; auto.
      * intros [Hin|[_ ->]]; apply in_or_app; [auto|right; left; reflexivity].
    + split; [intros _; apply Hiff; reflexivity|reflexivity].
  - split; [assumption|]. split; [|split; [|repeat split]].
    + intros k. split; [auto|]. intros [?|[? _]]; [assumption|discriminate].
    + split; [discriminate|]. intros H. apply Hiff in H. discriminate.
Qed.

Lemma trigger_keeps_one_delayer_per_document_witness :
  let p := mkProvider true false (Some (mkConfig (Some (js "/usr/bin/lc")) None onSave))
             [js "file:///a.lc"] in
  delayers (fst (triggerValidate (js "livecodescript") true (js "file:///b.lc") p))
  = [js "file:///a.lc"; js "file:///b.lc"]
  /\ NoDup (delayers (fst (triggerValidate (js "livecodescript") true (js "file:///a.lc") p))).
Proof.
  intros p. split; [reflexivity|].
  apply (trigger_keeps_one_delayer_per_document (js "livecodescript") true
           (js "file:///a.lc") p).
  simpl. repeat constructor. intros [].
Defined.

(* ================================================================== *)
(** * The executable that the configuration names *)

Section ConfigFacts.

Variable isAbsolute : jsstring -> bool.
Variable joinPath : jsstring -> jsstring -> jsstring.


(** X14.  When a setting names the executable, the path lookup plays no
    part in the configuration.  The workspace value goes before the
    user's value, which goes before the default, and the executable
    counts as defined by the user exactly when the user's value is the
    one taken.  A relative path without a workspace folder gives no
    executable, whatever the path lookup would find. *)
Theorem setting_goes_before_lookup
        (ins : Inspect) (first which : option jsstring) (run : jsstring) :
  let cfg := getConfig isAbsolute joinPath (Some ins) first which run in
  let chosen :=
    if truthy_value (workspaceValue ins) then workspaceValue ins
    else if truthy_value (globalValue ins) then globalValue ins
    else if truthy_value (defaultValue ins) then defaultValue ins
    else None in
  (truthy_value chosen = true ->
   forall which', cfg = getConfig isAbsolute joinPath (Some ins) first which' run)
  /\ (truthy_value chosen = false ->
      executable cfg = which /\ executableIsUserDefined cfg = None)
  /\ (executableIsUserDefined cfg = Some true
      <-> truthy_value (workspaceValue ins) = false
          /\ truthy_value (globalValue ins) = true)
  /\ (forall e, chosen = Some e -> truthy e = true -> isAbsolute e = true ->
                executable cfg = Some e)
  /\ (forall e, chosen = Some e -> truthy e = true -> isAbsolute e = false ->
                executable cfg = match first with
                                 | Some uri => Some (joinPath uri e)
                                 | None => None
                                 end).
Proof.
  unfold getConfig.
  destruct (workspaceValue ins) as [w|] eqn:Hw;
    destruct (globalValue ins) as [g|] eqn:Hg;
    destruct (defaultValue ins) as [d|] eqn:Hd;
    cbn [truthy_value];
    repeat match goal with
           | |- context [truthy ?x] => destruct (truthy x) eqn:?
           end;
    cbn [fst snd executable executableIsUserDefined truthy_value andb negb];
    repeat split; intros;
    repeat match goal with
           | H : Some _ = Some _ |- _ => inversion H; subst; clear H
           | H : _ /\ _ |- _ => destruct H
           end;
    try discriminate; try congruence; auto;
    repeat match goal with
           | H : truthy ?x = _ |- context [truthy ?x] => rewrite H
           | H : isAbsolute ?x = _ |- context [isAbsolute ?x] => rewrite H
           end;
    cbn [andb negb]; try reflexivity;
    repeat match goal with
           | |- context [isAbsolute ?x] => destruct (isAbsolute x)
           end;
    cbn [andb negb]; try reflexivity; try congruence.
Qed.

End ConfigFacts.


(* ================================================================== *)
(** * The ranges of the outline *)

Section NestingFacts.

Ltac break_match :=
  repeat match goal with
         | H : exists _, _ |- _ => destruct H
         | H : _ /\ _ |- _ => destruct H
         | H : matches (lit _) _ _ _ _ |- _ => apply matches_lit in H
         end.

Lemma same_run (p : char -> bool) ws : forall ws' a b x y,
  ws ++ a :: x = ws' ++ b :: y ->
  forallb p ws = true -> forallb p ws' = true ->
  p a = false -> p b = false -> ws = ws' /\ a = b /\ x = y.
Proof.
  induction ws as [|w ws IH]; intros ws' a b x y E H H' Ha Hb.
  - destruct ws' as [|w' ws']; simpl in *.
    + inversion E. auto.
    + inversion E; subst. apply andb_prop in H' as [Hw _]. congruence.
  - destruct ws' as [|w' ws']; simpl in *.
    + inversion E; subst. apply andb_prop in H as [Hw _]. congruence.
    + inversion E; subst. apply andb_prop in H as [_ H].
      apply andb_prop in H' as [_ H'].
      destruct (IH _ _ _ _ _ H2 H H' Ha Hb) as (-> & -> & ->). auto.
Qed.

(** What the variable pattern matches at the start of a line. *)
Lemma occurs_re_variable_full s :
  occurs re_variable s ->
  exists ws rest,
    forallb cls_s ws = true
    /\ ((exists sp, forallb cls_s sp = true
                    /\ s = ws ++ js "private" ++ sp ++ js "variable" ++ rest)
        \/ s = ws ++ js "variable" ++ rest).
Proof.
  intros (pre & mid & post & c & -> & H).
  unfold re_variable, Plus in H. cbn [matches cat] in H.
  destruct H as (s1 & s2 & c1 & -> & (c0 & [H|H] & ->) & _);
    break_match; subst; (destruct pre; [|discriminate]);
    repeat (rewrite <- app_assoc || (progress simpl)).
  - match goal with
    | Hw : forallb cls_s ?ws = true, Hs : forallb cls_s ?sp = true
      |- context [?ws ++ 112%N :: _] =>
        exists ws; eexists; split; [exact Hw|left; exists sp; split; [exact Hs|]]
    end.
    simpl. reflexivity.
  - eexists _, _. split; [|right; reflexivity]. assumption.
Qed.

(** A line that opens a handler declares no variable. *)
Lemma opens_not_variable t :
  opens_handler t = true -> test re_variable (lineText_of t) = false.
Proof.
  unfold opens_handler. intros Ho.
  destruct (test re_variable (lineText_of t)) eqn:Hv; [exfalso|reflexivity].
  apply test_occurs, occurs_re_variable_full in Hv as (ws' & rest' & Hws' & Hv).
  apply orb_prop in Ho as [Ho|Ho].
  - apply test_occurs, occurs_re_handler in Ho as (ws & rest & E & Hws).
    destruct Hv as [(sp & Hsp & E')|E']; rewrite E' in E; simpl in E;
      pose proof (first_after_run cls_s ws' ws _ _ _ _ E Hws' Hws eq_refl eq_refl);
      discriminate.
  - apply test_occurs, occurs_re_private_handler_full in Ho
      as (ws & x1 & s1 & x2 & s2 & w & rest & E & Hws & Hx1 & Hs1 & _).
    destruct Hv as [(sp & Hsp & E')|E']; rewrite E' in E; simpl in E.
    + destruct (same_run cls_s ws' ws _ _ _ _ E Hws' Hws eq_refl eq_refl)
        as (_ & _ & Et).
      inversion Et as [Et'].
      change (sp ++ 118%N :: js "ariable" ++ rest' = (x1 :: s1) ++ 104%N :: js "andler" ++ (x2 :: s2) ++ w :: rest) in Et'.
      assert (Hxs : forallb cls_s (x1 :: s1) = true) by (simpl; rewrite Hx1; assumption).
      pose proof (first_after_run cls_s sp (x1 :: s1) _ _ _ _ Et' Hsp Hxs eq_refl eq_refl).
      discriminate.
    + pose proof (first_after_run cls_s ws' ws _ _ _ _ E Hws' Hws eq_refl eq_refl).
      discriminate.
Qed.

(** An [end handler] line does what [close_handler] does, and no more. *)
Lemma scan_line_ends_exact line st :
  ends_handler (text line) = true ->
  scan_line line st = Ok (close_handler st line).
Proof.
  intros He. pose proof (ends_not_variable _ He) as Hv.
  assert (Hno : opens_handler (text line) = false).
  { destruct (opens_handler (text line)) eqn:Ho; [|reflexivity].
    apply opens_not_ends in Ho. congruence. }
  unfold opens_handler in Hno. apply orb_false_elim in Hno as [Hh Hp].
  assert (He1 : test re_end_handler (lineText_of (text line)) = true).
  { unfold ends_handler in He. apply orb_prop in He as [He|He]; [assumption|].
    apply end_handler_0_end_handler; assumption. }
  unfold scan_line, handler_branch, private_branch, variables_branch.
  rewrite Hh, Hp, Hv, He1. cbn [JS.bind].
  assert (Hc : close_handler (close_handler st line) line = close_handler st line).
  { unfold close_handler at 1.
    replace (inside_handler (close_handler st line)) with false; [reflexivity|].
    unfold close_handler. destruct (inside_handler st) eqn:Hi; simpl; auto. }
  destruct (test re_end_handler_0 (lineText_of (text line))); cbn [JS.bind];
    rewrite ?Hc; reflexivity.
Qed.

(** A line that opens a handler leaves a handler symbol without
    children. *)
Lemma scan_line_opens_children line st st' :
  scan_line line st = Ok st' ->
  opens_handler (text line) = true ->
  children (handler_Symbol st') = [].
Proof.
  intros H Ho. pose proof (opens_not_variable _ Ho) as Hv.
  pose proof (opens_not_ends _ Ho) as He.
  unfold opens_handler in Ho. unfold ends_handler in He.
  apply orb_false_elim in He as [He He0].
  unfold scan_line, handler_branch, private_branch, variables_branch in H.
  rewrite Hv, He, He0 in H.
  destruct (test re_private_handler (lineText_of (text line))) eqn:Hp.
  - destruct (test re_handler (lineText_of (text line)));
      repeat match type of H with
             | context [new_DocumentSymbol ?a ?b ?c ?d ?e] =>
                 let E := fresh "E" in
                 destruct (new_DocumentSymbol a b c d e) eqn:E;
                 cbn [JS.bind] in H; [|discriminate H]
             end;
      inversion H; subst; cbn [handler_Symbol];
      match goal with
      | E : new_DocumentSymbol _ _ symbolkind_private_handler _ _ = Ok ?h
        |- children ?h = [] =>
          unfold new_DocumentSymbol in E;
          repeat match type of E with
                 | context [match ?x with _ => _ end] => destruct x; try discriminate E
                 end;
          inversion E; reflexivity
      end.
  - rewrite orb_false_r in Ho. rewrite Ho in H.
    destruct (new_DocumentSymbol _ _ _ _ _) as [h|e] eqn:E in H;
      cbn [JS.bind] in H; [|discriminate H].
    inversion H; subst. cbn [handler_Symbol].
    unfold new_DocumentSymbol in E.
    repeat match type of E with
           | context [match ?x with _ => _ end] => destruct x; try discriminate E
           end;
      inversion E; reflexivity.
Qed.

(** Any other line only places the variable symbols of its tokens. *)
Lemma scan_line_other_places line st st' :
  scan_line line st = Ok st' ->
  opens_handler (text line) = false ->
  ends_handler (text line) = false ->
  exists vs,
    placed st st' vs
    /\ Forall (fun v => exists nm,
                 v = variable_symbol (tokens_of (lineText_of (text line))) line nm) vs.
Proof.
  intros H Ho He. unfold opens_handler in Ho. unfold ends_handler in He.
  apply orb_false_elim in Ho as [Hh Hp]. apply orb_false_elim in He as [He He0].
  unfold scan_line, handler_branch, private_branch in H.
  rewrite Hh, Hp, He, He0 in H. cbn [JS.bind] in H.
  apply variables_branch_places in H as (vs & Hpl & Hvs).
  exists vs. split; [assumption|]. revert Hvs. apply Forall_impl.
  intros v (j & _ & Hv). destruct Hv as (_ & _ & _ & _ & _ & Hv). eauto.
Qed.

Lemma new_Range_line (n len : nat) :
  new_Range (mkPosition (Z.of_nat n) 0) (mkPosition (Z.of_nat n) (Z.of_nat len))
  = line_range (Z.of_nat n) (Z.of_nat len).
Proof.
  unfold new_Range, isBefore, line_range. cbn [p_line p_character].
  rewrite Z.ltb_irrefl, Z.eqb_refl. cbn [orb andb].
  destruct (0 <? Z.of_nat len)%Z eqn:E; [reflexivity|].
  apply Z.ltb_ge in E. replace (Z.of_nat len) with 0%Z by lia. reflexivity.
Qed.

Lemma ordered_line_range (n len : nat) :
  ordered (line_range (Z.of_nat n) (Z.of_nat len)).
Proof.
  unfold ordered, isBefore, line_range. cbn.
  rewrite Z.ltb_irrefl, Z.eqb_refl. cbn.
  apply Z.ltb_ge. lia.
Qed.

Lemma contains_between (i j k L l : nat) :
  i < k < j ->
  contains (mkRange (mkPosition (Z.of_nat i) 0) (mkPosition (Z.of_nat j) (Z.of_nat L)))
           (line_range (Z.of_nat k) (Z.of_nat l)) = true.
Proof.
  intros Hk. unfold contains, contains_position, isBefore, line_range.
  cbn [r_start r_end p_line p_character].
  replace (Z.of_nat k <? Z.of_nat i)%Z with false by (symmetry; apply Z.ltb_ge; lia).
  replace (Z.of_nat k =? Z.of_nat i)%Z with false by (symmetry; apply Z.eqb_neq; lia).
  replace (Z.of_nat j <? Z.of_nat k)%Z with false by (symmetry; apply Z.ltb_ge; lia).
  replace (Z.of_nat j =? Z.of_nat k)%Z with false by (symmetry; apply Z.eqb_neq; lia).
  reflexivity.
Qed.

Lemma well_nested_variable_symbol document n line tokens nm :
  lineAt document n = Ok line ->
  well_nested (variable_symbol tokens line nm).
Proof.
  intros Hl. apply lineAt_range in Hl.
  unfold well_nested, variable_symbol. cbn [range children].
  rewrite Hl. unfold line_range at 1 2. cbn [r_start r_end].
  rewrite new_Range_line. split; [apply ordered_line_range|constructor].
Qed.

(** A line keeps the ranges nested. *)
Lemma scan_line_nested document n line st st' :
  nested_inv n st ->
  lineAt document n = Ok line ->
  scan_line line st = Ok st' ->
  nested_inv (S n) st'.
Proof.
  intros [Hs Hh] Hl H. pose proof (lineAt_range _ _ _ Hl) as Hr.
  destruct (opens_handler (text line)) eqn:Ho.
  - destruct (scan_line_opens _ _ _ H Ho) as [Hi Hsy].
    split; [rewrite Hsy; exact Hs|]. intros _.
    exists n, (length (text line)). split; [lia|]. split.
    + rewrite (scan_line_opens_range _ _ _ H Ho). exact Hr.
    + rewrite (scan_line_opens_children _ _ _ H Ho). constructor.
  - destruct (ends_handler (text line)) eqn:He.
    + rewrite (scan_line_ends_exact _ st He) in H. inversion H; subst st'; clear H.
      unfold close_handler. destruct (inside_handler st) eqn:Hi.
      * split; [|cbn [inside_handler]; discriminate].
        cbn [symbols]. apply Forall_app. split; [exact Hs|].
        constructor; [|constructor].
        destruct (Hh eq_refl) as (i & len & Hlt & Hrg & Hch).
        unfold well_nested, set_selectionRange, set_range. cbn [range children].
        rewrite Hrg, Hr. unfold line_range. cbn [r_start r_end].
        assert (E : new_Range (mkPosition (Z.of_nat i) 0)
                      (mkPosition (Z.of_nat n) (Z.of_nat (length (text line))))
                    = mkRange (mkPosition (Z.of_nat i) 0)
                        (mkPosition (Z.of_nat n) (Z.of_nat (length (text line))))).
        { unfold new_Range, isBefore. cbn [p_line p_character].
          replace (Z.of_nat i <? Z.of_nat n)%Z with true
            by (symmetry; apply Z.ltb_lt; lia).
          reflexivity. }
        rewrite E. split.
        -- unfold ordered, isBefore. cbn [r_start r_end p_line p_character].
           replace (Z.of_nat n <? Z.of_nat i)%Z with false
             by (symmetry; apply Z.ltb_ge; lia).
           replace (Z.of_nat n =? Z.of_nat i)%Z with false
             by (symmetry; apply Z.eqb_neq; lia).
           reflexivity.
        -- revert Hch. apply Forall_impl.
           intros c (Hc & k & l & Hk & Hrc). split; [|exact Hc].
           rewrite Hrc. apply contains_between. exact Hk.
      * split; [exact Hs|]. intros Hi'. congruence.
    + destruct (scan_line_other_places _ _ _ H Ho He) as (vs & (Hi & Hp) & Hvs).
      destruct (inside_handler st) eqn:Hin.
      * destruct Hp as [Hsy Hhs]. split; [rewrite Hsy; exact Hs|]. intros _.
        destruct (Hh eq_refl) as (i & len & Hlt & Hrg & Hch).
        exists i, len. split; [lia|]. rewrite Hhs. cbn [range children].
        split; [exact Hrg|]. apply Forall_app. split.
        -- revert Hch. apply Forall_impl.
           intros c (Hc & k & l & Hk & Hrc). split; [exact Hc|].
           exists k, l. split; [lia|exact Hrc].
        -- revert Hvs. apply Forall_impl. intros v (nm & ->).
           unfold variable_symbol. cbn [range children]. split; [reflexivity|].
           exists n, (length (text line)). split; [lia|].
           rewrite Hr. unfold line_range at 1 2. cbn [r_start r_end].
           apply new_Range_line.
      * destruct Hp as [Hsy Hhs]. split; [|intros Hi'; congruence].
        rewrite Hsy. apply Forall_app. split; [exact Hs|].
        revert Hvs. apply Forall_impl. intros v (nm & ->).
        eapply well_nested_variable_symbol; exact Hl.
Qed.

Lemma scan_from_nested document n : forall i st st',
  nested_inv i st ->
  scan_from document i n st = Ok st' ->
  nested_inv (i + n) st'.
Proof.
  induction n as [|n IH]; intros i st st' Hinv H; cbn [scan_from] in H.
  - inversion H; subst. rewrite Nat.add_0_r. exact Hinv.
  - destruct (lineAt document i) as [line|e] eqn:Hl; cbn [JS.bind] in H;
      [|discriminate H].
    destruct (scan_line line st) as [st1|e] eqn:Hs; cbn [JS.bind] in H;
      [|discriminate H].
    replace (i + S n) with (S i + n) by lia.
    apply (IH _ _ _ (scan_line_nested _ _ _ _ _ Hinv Hl Hs) H).
Qed.

(** X15.  In a resolved outline the ranges are nested: the range of
    every top-level symbol ends no earlier than it starts, the range of
    each of its children lies inside it, and no child has children of
    its own, so the outline is at most two levels deep. *)
Theorem outline_ranges_nested (document : TextDocument) (syms : list DocumentSymbol) :
  provideDocumentSymbols document = Ok syms ->
  Forall well_nested syms.
Proof.
  unfold provideDocumentSymbols. intros H.
  destruct (lineAt document 1) as [l1|e]; cbn [JS.bind] in H; [|discriminate H].
  destruct (new_DocumentSymbol _ _ _ _ _) as [h0|e]; cbn [JS.bind] in H;
    [|discriminate H].
  destruct (scan_from document 0 (lineCount document) _) as [st|e] eqn:Hs;
    cbn [JS.bind] in H; [|discriminate H].
  inversion H; subst.
  apply scan_from_nested in Hs; [apply Hs|].
  split; [constructor|]. cbn [inside_handler]. discriminate.
Qed.

End NestingFacts.

Lemma outline_ranges_nested_witness :
  let document := [js "handler go"; js "  variable x"; js "end handler"; js "variable z"] in
  exists syms,
    provideDocumentSymbols document = Ok syms
    /\ length syms = 2
    /\ Forall well_nested syms.
Proof.
  intros document.
  pose (syms := match provideDocumentSymbols document with
                | Ok s => s
                | Throw _ => []
                end).
  assert (E : provideDocumentSymbols document = Ok syms)
    by (vm_compute; reflexivity).
  exists syms. split; [exact E|]. split; [vm_compute; reflexivity|].
  apply (outline_ranges_nested document syms E).
Defined.
